(** * A shallow embedding of the OIDC session manager of rjvdw/oidc-demo

    The development follows the three layers of [web/src/lib]:
    - [CryptoSuite] (crypto.ts): the codec that protects the refresh token,
    - the cookie slots (oidc-cookies.ts): [AuthStateCookie],
      [AccessTokenCookie], [RefreshTokenCookie],
    - [OIDC] (oidc.ts): the login flow, refresh, logout and token access,
    and their two users, the API client (api.ts) and the logout route
    (pages/logout.ts).

    External collaborators (node:crypto, jwt-decode, fetch, the URL parser,
    the random sources and the environment constants) are fields of the
    record [Env]; the program is a function of it.  JS strings are modelled
    by [string], unit by unit, buffers by lists of bytes. *)

From Stdlib Require Import String Ascii List ZArith NArith Lia Bool DecimalString.
From Stdlib Require DecimalFacts DecimalN.
From stdpp Require Import base option list gmap strings.

Local Open Scope string_scope.

(** ** Bytes and JS strings *)

Definition Buffer := list ascii.

Definition byte (n : N) : ascii := ascii_of_N n.

(** A JS string is a sequence of UTF-16 code units.  It is represented by
    the [string] that holds, unit after unit, the bytes UTF-8 would give
    the unit if it were a code point: one byte below U+0080, two below
    U+0800, three from there on, the surrogates included.  ASCII text is
    its own representation, and concatenation, equality and the search for
    a substring are those of [string]. *)

(** The bytes UTF-8 gives the code point [cp]. *)
Definition utf8_bytes (cp : N) : list ascii :=
  if (cp <? 128)%N then [byte cp]
  else if (cp <? 2048)%N then [byte (192 + cp / 64); byte (128 + cp mod 64)]
  else if (cp <? 65536)%N then
    [byte (224 + cp / 64 / 64); byte (128 + (cp / 64) mod 64); byte (128 + cp mod 64)]
  else
    [byte (240 + cp / 64 / 64 / 64); byte (128 + (cp / 64 / 64) mod 64);
     byte (128 + (cp / 64) mod 64); byte (128 + cp mod 64)].

Definition string_of_units (units : list N) : string :=
  string_of_list_ascii (flat_map utf8_bytes units).

Definition continuation (c : ascii) : bool :=
  (128 <=? N_of_ascii c)%N && (N_of_ascii c <? 192)%N.

(** The code units of a string.  A byte that does not start a sequence of
    the representation is read as a unit of its own. *)
Fixpoint units_of_bytes (l : list ascii) : list N :=
  match l with
  | [] => []
  | a :: l1 =>
      let x := N_of_ascii a in
      match l1 with
      | b :: l2 =>
          if (192 <=? x)%N && (x <? 224)%N && continuation b then
            ((x - 192) * 64 + (N_of_ascii b - 128))%N :: units_of_bytes l2
          else
            match l2 with
            | c :: l3 =>
                if (224 <=? x)%N && (x <? 240)%N && continuation b && continuation c then
                  ((x - 224) * 4096 + (N_of_ascii b - 128) * 64 + (N_of_ascii c - 128))%N
                  :: units_of_bytes l3
                else x :: units_of_bytes l1
            | [] => x :: units_of_bytes l1
            end
      | [] => [x]
      end
  end.

Definition code_units (s : string) : list N :=
  units_of_bytes (list_ascii_of_string s).

(** ** The utf8 encoding *)

Definition is_high_surrogate (u : N) : bool := (55296 <=? u)%N && (u <? 56320)%N.
Definition is_low_surrogate (u : N) : bool := (56320 <=? u)%N && (u <? 57344)%N.

(** The code points of a sequence of code units: a high surrogate and the
    low one that follows it make one code point, a surrogate without its
    partner is replaced by U+FFFD. *)
Fixpoint scalars_of_units (units : list N) : list N :=
  match units with
  | [] => []
  | u :: rest =>
      if is_high_surrogate u then
        match rest with
        | l :: rest' =>
            if is_low_surrogate l then
              (65536 + (u - 55296) * 1024 + (l - 56320))%N :: scalars_of_units rest'
            else 65533%N :: scalars_of_units rest
        | [] => [65533%N]
        end
      else if is_low_surrogate u then 65533%N :: scalars_of_units rest
      else u :: scalars_of_units rest
  end.

Definition units_of_scalar (cp : N) : list N :=
  if (cp <? 65536)%N then [cp]
  else [(55296 + (cp - 65536) / 1024)%N; (56320 + (cp - 65536) mod 1024)%N].

(** [s.isWellFormed()]: every surrogate has its partner. *)
Fixpoint paired (units : list N) : bool :=
  match units with
  | [] => true
  | u :: rest =>
      if is_high_surrogate u then
        match rest with
        | l :: rest' => is_low_surrogate l && paired rest'
        | [] => false
        end
      else negb (is_low_surrogate u) && paired rest
  end.

Definition isWellFormed (s : string) : bool := paired (code_units s).

(** [s.toWellFormed()]: a surrogate without its partner becomes U+FFFD. *)
Definition toWellFormed (s : string) : string :=
  string_of_units (flat_map units_of_scalar (scalars_of_units (code_units s))).

(** [s] is the representation of a JS string. *)
Definition represents (s : string) : Prop := string_of_units (code_units s) = s.

(** [Buffer.from(s, "utf8")] *)
Definition utf8_encode (s : string) : Buffer :=
  flat_map utf8_bytes (scalars_of_units (code_units s)).

(** The code points of a byte sequence that is UTF-8: shortest forms only,
    no surrogate, nothing above U+10FFFF. *)
Fixpoint scalars_of_utf8 (l : list ascii) : option (list N) :=
  match l with
  | [] => Some []
  | a :: l1 =>
      let x := N_of_ascii a in
      if (x <? 128)%N then cons x <$> scalars_of_utf8 l1
      else
        match l1 with
        | b :: l2 =>
            if (194 <=? x)%N && (x <? 224)%N then
              if continuation b then
                cons ((x - 192) * 64 + (N_of_ascii b - 128))%N <$> scalars_of_utf8 l2
              else None
            else
              match l2 with
              | c :: l3 =>
                  if (224 <=? x)%N && (x <? 240)%N then
                    let cp := ((x - 224) * 4096 + (N_of_ascii b - 128) * 64
                               + (N_of_ascii c - 128))%N in
                    if continuation b && continuation c && (2048 <=? cp)%N
                       && negb (is_high_surrogate cp) && negb (is_low_surrogate cp)
                    then cons cp <$> scalars_of_utf8 l3
                    else None
                  else
                    match l3 with
                    | d :: l4 =>
                        let cp := ((x - 240) * 262144 + (N_of_ascii b - 128) * 4096
                                   + (N_of_ascii c - 128) * 64 + (N_of_ascii d - 128))%N in
                        if (240 <=? x)%N && (x <? 245)%N
                           && continuation b && continuation c && continuation d
                           && (65536 <=? cp)%N && (cp <? 1114112)%N
                        then cons cp <$> scalars_of_utf8 l4
                        else None
                    | [] => None
                    end
              | [] => None
              end
        | [] => None
        end
  end.

(** ** The base64url encoding *)

(** Six bits, most significant first. *)
Inductive sextet := Sextet (b5 b4 b3 b2 b1 b0 : bool).

Definition N_of_sextet (s : sextet) : N :=
  match s with
  | Sextet b5 b4 b3 b2 b1 b0 =>
      (N.b2n b5 * 32 + N.b2n b4 * 16 + N.b2n b3 * 8
       + N.b2n b2 * 4 + N.b2n b1 * 2 + N.b2n b0)%N
  end.

Definition sextet_of_N (n : N) : sextet :=
  Sextet (N.testbit n 5) (N.testbit n 4) (N.testbit n 3)
         (N.testbit n 2) (N.testbit n 1) (N.testbit n 0).

Definition BASE64URL_ALPHABET : string :=
  "ABCDEFGHIJKLMNOPQRSTUVWXYZabcdefghijklmnopqrstuvwxyz0123456789-_".

Fixpoint find_index (c : ascii) (s : string) : option nat :=
  match s with
  | EmptyString => None
  | String d s' => if Ascii.eqb c d then Some 0 else S <$> find_index c s'
  end.

Definition is_base64url_char (c : ascii) : bool :=
  match find_index c BASE64URL_ALPHABET with Some _ => true | None => false end.

Definition char_of_sextet (s : sextet) : ascii :=
  match String.get (N.to_nat (N_of_sextet s)) BASE64URL_ALPHABET with
  | Some c => c
  | None => "A"%char
  end.

(** Node's decoder accepts the URL alphabet and the standard one ([+], [/]). *)
Definition unbase64 (c : ascii) : option sextet :=
  if Ascii.eqb c "+" then Some (sextet_of_N 62)
  else if Ascii.eqb c "/" then Some (sextet_of_N 63)
  else (fun n => sextet_of_N (N.of_nat n)) <$> find_index c BASE64URL_ALPHABET.

Fixpoint sextets_of_bytes (b : Buffer) : list sextet :=
  match b with
  | [] => []
  | Ascii x0 x1 x2 x3 x4 x5 x6 x7 :: b1 =>
      match b1 with
      | [] => [Sextet x7 x6 x5 x4 x3 x2; Sextet x1 x0 false false false false]
      | Ascii y0 y1 y2 y3 y4 y5 y6 y7 :: b2 =>
          match b2 with
          | [] => [Sextet x7 x6 x5 x4 x3 x2; Sextet x1 x0 y7 y6 y5 y4;
                   Sextet y3 y2 y1 y0 false false]
          | Ascii z0 z1 z2 z3 z4 z5 z6 z7 :: rest =>
              Sextet x7 x6 x5 x4 x3 x2 :: Sextet x1 x0 y7 y6 y5 y4
              :: Sextet y3 y2 y1 y0 z7 z6 :: Sextet z5 z4 z3 z2 z1 z0
              :: sextets_of_bytes rest
          end
      end
  end.

(** Left-over bits of an incomplete group are dropped without any check:
    the decoder does not insist on a canonical encoding. *)
Fixpoint bytes_of_sextets (l : list sextet) : Buffer :=
  match l with
  | [] => []
  | Sextet a5 a4 a3 a2 a1 a0 :: l1 =>
      match l1 with
      | [] => []
      | Sextet b5 b4 b3 b2 b1 b0 :: l2 =>
          match l2 with
          | [] => [Ascii b4 b5 a0 a1 a2 a3 a4 a5]
          | Sextet c5 c4 c3 c2 c1 c0 :: l3 =>
              match l3 with
              | [] => [Ascii b4 b5 a0 a1 a2 a3 a4 a5;
                       Ascii c2 c3 c4 c5 b0 b1 b2 b3]
              | Sextet d5 d4 d3 d2 d1 d0 :: rest =>
                  Ascii b4 b5 a0 a1 a2 a3 a4 a5
                  :: Ascii c2 c3 c4 c5 b0 b1 b2 b3
                  :: Ascii d0 d1 d2 d3 d4 d5 c0 c1
                  :: bytes_of_sextets rest
              end
          end
      end
  end.

(** [buf.toString("base64url")] *)
Definition base64url_encode (b : Buffer) : string :=
  string_of_list_ascii (map char_of_sextet (sextets_of_bytes b)).

Fixpoint until_padding (l : list ascii) : list ascii :=
  match l with
  | [] => []
  | c :: l' => if Ascii.eqb c "=" then [] else c :: until_padding l'
  end.

Fixpoint legal_sextets (l : list ascii) : list sextet :=
  match l with
  | [] => []
  | c :: l' =>
      match unbase64 c with
      | Some s => s :: legal_sextets l'
      | None => legal_sextets l'
      end
  end.

(** [Buffer.from(s, "base64url")]: the decoder reads the low byte of every
    code unit, stops at the first [=] and skips what is outside the
    alphabets. *)
Definition base64url_decode (s : string) : Buffer :=
  bytes_of_sextets
    (legal_sextets (until_padding (map (fun u => byte (u mod 256)) (code_units s)))).

(** ** [Array.prototype.join] and [String.prototype.split] *)

Fixpoint array_join (sep : string) (parts : list string) : string :=
  match parts with
  | [] => ""
  | p :: rest =>
      match rest with
      | [] => p
      | _ :: _ => p ++ sep ++ array_join sep rest
      end
  end.

Fixpoint string_drop (n : nat) (s : string) : string :=
  match n, s with
  | O, _ => s
  | S n', String _ s' => string_drop n' s'
  | S _, EmptyString => EmptyString
  end.

(** The piece before the first occurrence of [sep] in [s], and what follows
    that occurrence when there is one. *)
Fixpoint split_first (sep s : string) : string * option string :=
  if String.prefix sep s then (EmptyString, Some (string_drop (String.length sep) s))
  else match s with
       | EmptyString => (EmptyString, None)
       | String c s' =>
           let (p, r) := split_first sep s' in (String c p, r)
       end.

Fixpoint split_pieces (fuel : nat) (sep s : string) : list string :=
  match fuel with
  | O => []
  | S fuel' =>
      match split_first sep s with
      | (p, None) => [p]
      | (p, Some r) => p :: split_pieces fuel' sep r
      end
  end.

(** The code units of [s], one string each. *)
Definition characters (s : string) : list string :=
  map (fun u => string_of_units [u]) (code_units s).

(** [s.split(sep)]; every piece but the last consumes a non-empty separator,
    so [S (length s)] rounds are enough. *)
Definition string_split (sep s : string) : list string :=
  match sep with
  | EmptyString => characters s
  | String _ _ => split_pieces (S (String.length s)) sep s
  end.

(** ** node:crypto, as the suite uses it *)

(** A cipher after [update] and [final]: the bytes it produced, and what
    the probe for [getAuthTag] finds, [None] when the object has no such
    method, [Some None] when the call throws, [Some (Some t)] for a tag. *)
Record Cipher := {
  cipher_output : Buffer;
  cipher_getAuthTag : option (option Buffer)
}.

(** A decipher: whether it has [setAuthTag], and the bytes [update] and
    [final] produce for a ciphertext given the tag that was set on it,
    [None] when [setAuthTag], [update] or [final] throws. *)
Record Decipher := {
  decipher_hasSetAuthTag : bool;
  decipher_output : option Buffer -> Buffer -> option Buffer
}.

(** The names of Node's encodings. *)
Definition Encoding := string.

(** [createCipheriv(algorithm, key, iv)] followed by [update(data)] and
    [final()], and [createDecipheriv(algorithm, key, iv)]; [None] when a
    call throws.  Of Node's codecs, utf8 and base64url are modelled above.
    Left to the environment are what the utf8 decoders make of bytes that
    are not UTF-8 (they replace what is malformed by U+FFFD), in
    [buf.toString] and in the text a cipher or decipher yields, and the
    codecs of the other encodings: [Buffer.from(s, encoding)],
    [buf.toString(encoding)], the bytes that [update] reads from a text
    ([None] when it refuses the text) and the text that [update] and
    [final] yield for the bytes they produce. *)
Record NodeCrypto := {
  createCipheriv : string -> Buffer -> Buffer -> Buffer -> option Cipher;
  createDecipheriv : string -> Buffer -> Buffer -> option Decipher;
  utf8_malformed : Buffer -> string;
  utf8_malformed_text : Buffer -> string;
  other_from : Encoding -> string -> Buffer;
  other_toString : Encoding -> Buffer -> string;
  other_update : Encoding -> string -> option Buffer;
  other_text : Encoding -> Buffer -> string
}.

(** The utf8 decoder: the text of a byte sequence that is UTF-8, and
    [malformed] of any other. *)
Definition utf8_decode (malformed : Buffer -> string) (b : Buffer) : string :=
  match scalars_of_utf8 b with
  | Some scalars => string_of_units (flat_map units_of_scalar scalars)
  | None => malformed b
  end.

Definition is_utf8 (encoding : Encoding) : bool :=
  String.eqb encoding "utf8" || String.eqb encoding "utf-8".

(** [Buffer.from(s, encoding)] *)
Definition Buffer_from (node : NodeCrypto) (encoding : Encoding) (s : string) : Buffer :=
  if is_utf8 encoding then utf8_encode s
  else if String.eqb encoding "base64url" then base64url_decode s
  else other_from node encoding s.

(** [buf.toString(encoding)] *)
Definition Buffer_toString (node : NodeCrypto) (encoding : Encoding) (b : Buffer) : string :=
  if is_utf8 encoding then utf8_decode (utf8_malformed node) b
  else if String.eqb encoding "base64url" then base64url_encode b
  else other_toString node encoding b.

(** The bytes that [update(text, encoding, ...)] reads from [text]. *)
Definition update_input (node : NodeCrypto) (encoding : Encoding) (text : string)
    : option Buffer :=
  if is_utf8 encoding then Some (utf8_encode text)
  else if String.eqb encoding "base64url" then Some (base64url_decode text)
  else other_update node encoding text.

(** The text that [update(..., encoding)] and [final(encoding)] yield
    together for the bytes they produce: the two share a string decoder, so
    the pieces concatenate to the text of the whole output. *)
Definition text_output (node : NodeCrypto) (encoding : Encoding) (b : Buffer) : string :=
  if is_utf8 encoding then utf8_decode (utf8_malformed_text node) b
  else if String.eqb encoding "base64url" then base64url_encode b
  else other_text node encoding b.

Definition hasGetAuthTag (cipher : Cipher) : bool :=
  match cipher_getAuthTag cipher with Some _ => true | None => false end.

Definition getAuthTag (cipher : Cipher) : option Buffer :=
  if hasGetAuthTag cipher then
    match cipher_getAuthTag cipher with
    | Some (Some tag) => Some tag
    | _ => None
    end
  else None.

Definition hasSetAuthTag (decipher : Decipher) : bool :=
  decipher_hasSetAuthTag decipher.

(** The tag installed on the decipher, if any. *)
Definition setAuthTag (decipher : Decipher) (authTag : option Buffer) : option Buffer :=
  match authTag with
  | Some tag => if hasSetAuthTag decipher then Some tag else None
  | None => None
  end.

Record CryptoOptions := {
  inputEncoding : Encoding;
  outputEncoding : Encoding;
  ivLength : nat;
  separator : string
}.

Definition DEFAULT_OPTIONS : CryptoOptions :=
  {| inputEncoding := "utf8"; outputEncoding := "base64url";
     ivLength := 16; separator := "." |}.

(** JS truthiness of a [string | undefined]. *)
Definition truthy (v : option string) : bool :=
  match v with
  | Some s => negb (String.eqb s "")
  | None => false
  end.

Module CryptoSuite.

Record t := {
  algorithm : string;
  key : Buffer;
  options : CryptoOptions
}.

(** [options] is the [Partial<CryptoOptions>] of the constructor, field by
    field. *)
Definition new (algorithm : string) (key : Buffer)
    (inputEncoding' outputEncoding' : option Encoding)
    (ivLength' : option nat) (separator' : option string) : t :=
  {| algorithm := algorithm;
     key := key;
     options :=
       {| inputEncoding := default (inputEncoding DEFAULT_OPTIONS) inputEncoding';
          outputEncoding := default (outputEncoding DEFAULT_OPTIONS) outputEncoding';
          ivLength := default (ivLength DEFAULT_OPTIONS) ivLength';
          separator := default (separator DEFAULT_OPTIONS) separator' |} |}.

Definition combine (node : NodeCrypto) (this : t) (iv : Buffer) (ciphered : string)
    (authTag : option Buffer) : string :=
  let parts := [Buffer_toString node (outputEncoding (options this)) iv; ciphered] in
  let parts :=
    match authTag with
    | Some tag => (parts ++ [Buffer_toString node (outputEncoding (options this)) tag])%list
    | None => parts
    end in
  array_join (separator (options this)) parts.

(** [None] when [parts[0]] is undefined and [Buffer.from] throws; the
    second component is [parts[1]], possibly undefined. *)
Definition split (node : NodeCrypto) (this : t) (combined : string)
    : option (Buffer * option string * option Buffer) :=
  let parts := string_split (separator (options this)) combined in
  iv ← Buffer_from node (outputEncoding (options this)) <$> parts !! 0%nat;
  let ciphered := parts !! 1%nat in
  let authTag :=
    if truthy (parts !! 2%nat)
    then Buffer_from node (outputEncoding (options this)) <$> parts !! 2%nat
    else None in
  Some (iv, ciphered, authTag).

(** [randomBytes] is the draw of this call. *)
Definition encrypt (node : NodeCrypto) (randomBytes : nat -> Buffer)
    (this : t) (data : string) : option string :=
  let iv := randomBytes (ivLength (options this)) in
  input ← update_input node (inputEncoding (options this)) data;
  cipher ← createCipheriv node (algorithm this) (key this) iv input;
  let ciphered := text_output node (outputEncoding (options this)) (cipher_output cipher) in
  match getAuthTag cipher with
  | Some authTag => Some (combine node this iv ciphered (Some authTag))
  | None => Some (combine node this iv ciphered None)
  end.

(** [decipher.update(undefined, ...)] throws. *)
Definition decrypt (node : NodeCrypto) (this : t) (data : string)
    : option string :=
  '(iv, ciphered, authTag) ← split node this data;
  decipher ← createDecipheriv node (algorithm this) (key this) iv;
  let tag := setAuthTag decipher authTag in
  ciphered ← ciphered;
  input ← update_input node (outputEncoding (options this)) ciphered;
  deciphered ← decipher_output decipher tag input;
  Some (text_output node (inputEncoding (options this)) deciphered).

End CryptoSuite.

(** ** JSON values, as [response.json()] yields them *)

#[local] Set Warnings "-register-all".

Inductive JSON :=
| JNull
| JBool (b : bool)
| JNumber (n : Z)
| JString (s : string)
| JArray (items : list JSON)
| JObject (props : list (string * JSON)).

Fixpoint lookup_property (k : string) (props : list (string * JSON)) : option JSON :=
  match props with
  | [] => None
  | (k', v) :: rest => if String.eqb k k' then Some v else lookup_property k rest
  end.

(** [v !== null && typeof v === "object"] *)
Definition is_object (v : JSON) : bool :=
  match v with
  | JObject _ | JArray _ => true
  | _ => false
  end.

(** [v[k]], [None] for undefined.  The property names read by this program
    are never those of an array (its indices and [length]). *)
Definition get_property (k : string) (v : JSON) : option JSON :=
  match v with
  | JObject props => lookup_property k props
  | _ => None
  end.

(** [k in v] *)
Definition has_property (k : string) (v : JSON) : bool :=
  match get_property k v with Some _ => true | None => false end.

(** [typeof v[k] === "string"] *)
Definition property_is_string (k : string) (v : JSON) : bool :=
  match get_property k v with Some (JString _) => true | _ => false end.

(** [v[k] === s] *)
Definition property_equals (k s : string) (v : JSON) : bool :=
  match get_property k v with Some (JString s') => String.eqb s' s | _ => false end.

(** [v[k]] where a string is expected. *)
Definition string_property (k : string) (v : JSON) : option string :=
  match get_property k v with Some (JString s) => Some s | _ => None end.

(** ** URLs, requests and responses *)

Record URL := {
  href : string;
  searchParams : list (string * string)
}.

(** [URLSearchParams.prototype.set]: the first entry named [k] takes the
    value, later ones are removed; without one the pair is appended. *)
Fixpoint params_remove (k : string) (ps : list (string * string)) : list (string * string) :=
  match ps with
  | [] => []
  | (k', v') :: rest =>
      if String.eqb k k' then params_remove k rest else (k', v') :: params_remove k rest
  end.

Fixpoint params_set (k v : string) (ps : list (string * string)) : list (string * string) :=
  match ps with
  | [] => [(k, v)]
  | (k', v') :: rest =>
      if String.eqb k k' then (k, v) :: params_remove k rest
      else (k', v') :: params_set k v rest
  end.

(** [URLSearchParams.prototype.get], [None] for null. *)
Fixpoint params_get (k : string) (ps : list (string * string)) : option string :=
  match ps with
  | [] => None
  | (k', v') :: rest => if String.eqb k k' then Some v' else params_get k rest
  end.

Definition url_set (k v : string) (u : URL) : URL :=
  {| href := href u; searchParams := params_set k v (searchParams u) |}.

(** The two shapes of request this program hands to [fetch]: the discovery
    document by its address, and a POST of form parameters. *)
Inductive Request :=
| GET (url : string)
| POST (url : URL) (body : list (string * string)).

(** [body] is the outcome of [response.json()], [None] when it rejects. *)
Record Response := {
  status : Z;
  body : option JSON
}.

(** [response.ok] *)
Definition ok (r : Response) : bool :=
  (200 <=? status r)%Z && (status r <=? 299)%Z.

Definition is_refresh_grant (r : Request) : bool :=
  match r with
  | POST _ b =>
      match params_get "grant_type" b with
      | Some g => String.eqb g "refresh_token"
      | None => false
      end
  | GET _ => false
  end.

(** JS truthiness of a value read from a JSON document, [None] for
    undefined.  Numbers are the integers, as in [JSON]. *)
Definition json_truthy (v : option JSON) : bool :=
  match v with
  | None | Some JNull => false
  | Some (JBool b) => b
  | Some (JNumber n) => negb (n =? 0)%Z
  | Some (JString s) => negb (String.eqb s "")
  | Some (JArray _) | Some (JObject _) => true
  end.

(** [new Date(1000 * exp)], kept as the value it is built from: [1000 * exp]
    and [exp * 1000] convert [exp] to the same number. *)
Inductive Date := Date_of_seconds (exp : JSON).

(** ** Cookies *)

Inductive SameSite := Lax | Strict | SameSiteNone.

Record CookieSerializeOptions := {
  sameSite : option SameSite;
  httpOnly : option bool;
  secure : option bool;
  path : option string;
  expires : option Date;
  maxAge : option Z
}.

Definition no_options : CookieSerializeOptions :=
  {| sameSite := None; httpOnly := None; secure := None; path := None;
     expires := None; maxAge := None |}.

(** [{...a, ...b}]: a field that [b] defines wins. *)
Definition spread (a b : CookieSerializeOptions) : CookieSerializeOptions :=
  {| sameSite := sameSite b ∪ sameSite a;
     httpOnly := httpOnly b ∪ httpOnly a;
     secure := secure b ∪ secure a;
     path := path b ∪ path a;
     expires := expires b ∪ expires a;
     maxAge := maxAge b ∪ maxAge a |}.

Record CookieRecord := {
  cookie_value : string;
  cookie_options : CookieSerializeOptions
}.

(** What [jwtDecode] returns: the value that [JSON.parse] yields for the
    payload part of the token, [null] included. *)
Definition JwtPayload := JSON.

(** ** Errors, the environment and the state *)

Inductive Error :=
| StateMismatch                                  (* "state did not match" *)
| TokenExchangeFailed (status : Z) (data : JSON) (* "fetching tokens failed ..." *)
| RefreshFailed (status : Z) (data : JSON)       (* "refreshing access token failed ..." *)
| ConfigUnavailable                              (* "unable to retrieve realm configuration" *)
| InvalidTokenError                              (* thrown by jwtDecode *)
| NullPayload                                    (* TypeError: getExpiry destructures null *)
| InvalidHeaderValue                             (* TypeError: Headers.append refuses the value *)
| CipherError                                    (* thrown by node:crypto while encrypting *)
| FetchRejected                                  (* fetch rejects *)
| JsonRejected                                   (* response.json() rejects *)
| InvalidURL.                                    (* new URL throws *)

Inductive LogEntry :=
| LogResponse (r : Response)
| LogData (d : JSON)
| ErrorInvalidCookie.

(** What the program is run against: the constants of [import.meta.env]
    and the collaborators it calls.  [fetch] sees the requests made so far;
    the random sources are indexed by the number of earlier draws.
    [mathRandom n] is [Math.floor(Math.random() * 1e8)] at draw [n]. *)
Record Env := {
  BASE_URL : string;
  REALM : string;
  CLIENT_ID : string;
  CLIENT_SECRET : string;
  ALGORITHM : string;
  KEY : Buffer;
  node_crypto : NodeCrypto;
  randomBytes : nat -> nat -> Buffer;
  mathRandom : nat -> N;
  jwtDecode : string -> option JwtPayload;
  fetch : list Request -> Request -> option Response;
  newURL : string -> option URL
}.

(** The cookie jar of the request, the private field [#cachedConfig] of the
    manager, and the trace of effects: requests sent (oldest first),
    console output and random draws. *)
Record World := {
  cookies : gmap string CookieRecord;
  cachedConfig : option JSON;
  sent : list Request;
  console : list LogEntry;
  draws : nat
}.

Definition with_cookies (f : gmap string CookieRecord -> gmap string CookieRecord)
    (w : World) : World :=
  {| cookies := f (cookies w); cachedConfig := cachedConfig w; sent := sent w;
     console := console w; draws := draws w |}.

Definition with_cachedConfig (c : option JSON) (w : World) : World :=
  {| cookies := cookies w; cachedConfig := c; sent := sent w;
     console := console w; draws := draws w |}.

Definition with_sent (r : Request) (w : World) : World :=
  {| cookies := cookies w; cachedConfig := cachedConfig w; sent := (sent w ++ [r])%list;
     console := console w; draws := draws w |}.

Definition with_console (e : LogEntry) (w : World) : World :=
  {| cookies := cookies w; cachedConfig := cachedConfig w; sent := sent w;
     console := (console w ++ [e])%list; draws := draws w |}.

Definition with_draw (w : World) : World :=
  {| cookies := cookies w; cachedConfig := cachedConfig w; sent := sent w;
     console := console w; draws := S (draws w) |}.

(** ** The monad of the program: state that survives a throw *)

Inductive Result (A : Type) :=
| Ok (a : A)
| Throw (e : Error).
Arguments Ok {A} a.
Arguments Throw {A} e.

Definition M (A : Type) : Type := World -> Result A * World.

#[global] Instance M_ret : MRet M := fun A a w => (Ok a, w).

#[global] Instance M_bind : MBind M := fun A B f m w =>
  match m w with
  | (Ok a, w') => f a w'
  | (Throw e, w') => (Throw e, w')
  end.

#[global] Instance M_fmap : FMap M := fun A B f m w =>
  match m w with
  | (Ok a, w') => (Ok (f a), w')
  | (Throw e, w') => (Throw e, w')
  end.

Definition throw {A : Type} (e : Error) : M A := fun w => (Throw e, w).
Definition get_world : M World := fun w => (Ok w, w).
Definition modify (f : World -> World) : M unit := fun w => (Ok tt, f w).

(** Lift a call that may throw [e]. *)
Definition or_throw {A : Type} (e : Error) (o : option A) : M A :=
  match o with
  | Some a => mret a
  | None => throw e
  end.

Definition console_log (e : LogEntry) : M unit := modify (with_console e).

(** [await fetch(request)] *)
Definition fetchM (env : Env) (r : Request) : M Response := fun w =>
  let w' := with_sent r w in
  match fetch env (sent w) r with
  | Some resp => (Ok resp, w')
  | None => (Throw FetchRejected, w')
  end.

(** [await response.json()] *)
Definition jsonM (r : Response) : M JSON := or_throw JsonRejected (body r).

(** ** The cookie slots (oidc-cookies.ts) *)

(** Modelled from the spec: the [Cookie] base class (module [./Cookie], not
    among the sources).  A slot is a name and its serialisation options in
    the request's cookie jar: [value] reads the stored value ("absent" when
    there is none), [set] stores a [CookieRecord] under the name with the
    slot's options overridden by the call's, [delete] removes it. *)
Module Cookie.

Record t := {
  name : string;
  options : CookieSerializeOptions
}.

Definition value (this : t) : M (option string) := fun w =>
  (Ok (cookie_value <$> cookies w !! name this), w).

Definition set (this : t) (value : string) (overrides : CookieSerializeOptions)
    : M unit :=
  modify (with_cookies
    (insert (name this)
       {| cookie_value := value;
          cookie_options := spread (options this) overrides |})).

Definition delete (this : t) : M unit :=
  modify (with_cookies (base.delete (name this))).

End Cookie.

Module BaseCookie.

Definition new (name : string) (options : CookieSerializeOptions) : Cookie.t :=
  {| Cookie.name := name;
     Cookie.options :=
       spread {| sameSite := Some Lax; httpOnly := Some true;
                 secure := Some true; path := Some "/";
                 expires := None; maxAge := None |} options |}.

End BaseCookie.

(** [None] when the destructuring of [jwt] throws, as it does for [null];
    a value other than an object has no [exp]. *)
Definition getExpiry (jwt : JwtPayload) : option (option Date) :=
  match jwt with
  | JNull => None
  | _ =>
      let exp := get_property "exp" jwt in
      Some (if json_truthy exp then Date_of_seconds <$> exp else None)
  end.

(** [{ expires: getExpiry(jwt), ...overrides }], for the value that
    [getExpiry(jwt)] has returned. *)
Definition expiry_options (expires : option Date) (overrides : CookieSerializeOptions)
    : CookieSerializeOptions :=
  spread {| sameSite := None; httpOnly := None; secure := None; path := None;
            expires := expires; maxAge := None |} overrides.

Module AuthStateCookie.

Definition new : Cookie.t := BaseCookie.new "auth-state" no_options.

Definition value : M (option string) := Cookie.value new.
Definition set (value : string) : M unit := Cookie.set new value no_options.

End AuthStateCookie.

Module AccessTokenCookie.
Section WithEnv.
Variable env : Env.

Definition new : Cookie.t := BaseCookie.new "access-token" no_options.

Definition value : M (option string) := Cookie.value new.

Definition set (value : string) (overrides : CookieSerializeOptions) : M unit :=
  jwt ← or_throw InvalidTokenError (jwtDecode env value);
  expires ← or_throw NullPayload (getExpiry jwt);
  Cookie.set new value (expiry_options expires overrides).

Definition delete : M unit := Cookie.delete new.

End WithEnv.
End AccessTokenCookie.

Module RefreshTokenCookie.
Section WithEnv.
Variable env : Env.

Definition new : Cookie.t := BaseCookie.new "refresh-token" no_options.

Definition crypto : CryptoSuite.t :=
  CryptoSuite.new (ALGORITHM env) (KEY env) None None None None.

(** The [try] block returns the stored value as it is when it is falsy,
    its decryption otherwise; the [catch] logs and returns undefined. *)
Definition value : M (option string) :=
  value ← Cookie.value new;
  if truthy value then
    match value ≫= CryptoSuite.decrypt (node_crypto env) crypto with
    | Some token => mret (Some token)
    | None => console_log ErrorInvalidCookie;; mret None
    end
  else mret value.

(** The arguments of [super.set] are evaluated in order: the token is
    encrypted before [getExpiry] is called. *)
Definition set (value : string) (overrides : CookieSerializeOptions) : M unit :=
  jwt ← or_throw InvalidTokenError (jwtDecode env value);
  w ← get_world;
  modify with_draw;;
  encrypted ← or_throw CipherError
    (CryptoSuite.encrypt (node_crypto env) (randomBytes env (draws w)) crypto value);
  expires ← or_throw NullPayload (getExpiry jwt);
  Cookie.set new encrypted (expiry_options expires overrides).

Definition delete : M unit := Cookie.delete new.

End WithEnv.
End RefreshTokenCookie.

(** ** The session manager (oidc.ts) *)

Definition isExpiredSession (response : Response) (data : JSON) : bool :=
  (status response =? 400)%Z
  && is_object data
  && has_property "error" data
  && property_equals "error" "invalid_grant" data
  && has_property "error_description" data
  && property_equals "error_description" "Session not active" data.

Definition isRealmConfig (value : JSON) : bool :=
  is_object value
  && has_property "authorization_endpoint" value
  && property_is_string "authorization_endpoint" value
  && has_property "token_endpoint" value
  && property_is_string "token_endpoint" value
  && has_property "end_session_endpoint" value
  && property_is_string "end_session_endpoint" value.

Definition isTokens (value : JSON) : bool :=
  is_object value
  && has_property "access_token" value
  && property_is_string "access_token" value
  && has_property "refresh_token" value
  && property_is_string "refresh_token" value.

(** The decimal numeral of the draw. *)
Definition generateRandomState (env : Env) (draw : nat) : string :=
  NilZero.string_of_uint (N.to_uint (mathRandom env draw)).

Record Expirations := {
  exp_accessToken : option Date;
  exp_refreshToken : option Date
}.

(** [jwt?.exp ? new Date(jwt.exp * 1000) : undefined] *)
Definition expiration (jwt : option JwtPayload) : option Date :=
  let exp := jwt ≫= get_property "exp" in
  if json_truthy exp then Date_of_seconds <$> exp else None.

Module OIDC.
Section WithEnv.
Variable env : Env.

Definition accessToken : M (option string) := AccessTokenCookie.value.
Definition refreshToken : M (option string) := RefreshTokenCookie.value env.
Definition authState : M (option string) := AuthStateCookie.value.

(** [token ? jwtDecode(token) : undefined] *)
Definition decode_if_present (token : option string) : M (option JwtPayload) :=
  if truthy token then
    jwt ← or_throw InvalidTokenError (token ≫= jwtDecode env); mret (Some jwt)
  else mret None.

Definition getExpirations : M Expirations :=
  at' ← accessToken;
  atJwt ← decode_if_present at';
  let atExp := expiration atJwt in
  rt ← refreshToken;
  rtJwt ← decode_if_present rt;
  let rtExp := expiration rtJwt in
  mret {| exp_accessToken := atExp; exp_refreshToken := rtExp |}.

Definition isLoggedIn : M bool :=
  rt ← refreshToken; mret (truthy rt).

Definition deleteTokens : M unit :=
  AccessTokenCookie.delete;;
  RefreshTokenCookie.delete.

Definition getRealmConfig : M JSON :=
  w ← get_world;
  match cachedConfig w with
  | None =>
      response ← fetchM env (GET (REALM env ++ "/.well-known/openid-configuration"));
      data ← jsonM response;
      if negb (isRealmConfig data) then throw ConfigUnavailable
      else modify (with_cachedConfig (Some data));; mret data
  | Some config => mret config
  end.

(** [new URL(config[field])] *)
Definition endpoint (field : string) (config : JSON) : M URL :=
  or_throw InvalidURL (string_property field config ≫= newURL env).

Definition logout : M URL :=
  deleteTokens;;
  config ← getRealmConfig;
  logoutUrl ← endpoint "end_session_endpoint" config;
  let logoutUrl := url_set "post_logout_redirect_uri" (BASE_URL env ++ "/") logoutUrl in
  let logoutUrl := url_set "client_id" (CLIENT_ID env) logoutUrl in
  mret logoutUrl.

Definition createAuthorizationCodeRequest (code : string) : M Request :=
  config ← getRealmConfig;
  tokenUrl ← endpoint "token_endpoint" config;
  let body := [] in
  let body := params_set "client_id" (CLIENT_ID env) body in
  let body := params_set "client_secret" (CLIENT_SECRET env) body in
  let body := params_set "grant_type" "authorization_code" body in
  let body := params_set "code" code body in
  let body := params_set "redirect_uri" (BASE_URL env ++ "/login") body in
  mret (POST tokenUrl body).

Definition createRefreshTokenRequest (refreshToken : string) : M Request :=
  config ← getRealmConfig;
  tokenUrl ← endpoint "token_endpoint" config;
  let body := [] in
  let body := params_set "client_id" (CLIENT_ID env) body in
  let body := params_set "client_secret" (CLIENT_SECRET env) body in
  let body := params_set "grant_type" "refresh_token" body in
  let body := params_set "refresh_token" refreshToken body in
  mret (POST tokenUrl body).

(** [this.#accessTokenCookie.set(data.access_token);
     this.#refreshTokenCookie.set(data.refresh_token)] once [isTokens]
    has passed. *)
Definition storeTokens (data : JSON) : M unit :=
  access_token ← or_throw InvalidTokenError (string_property "access_token" data);
  AccessTokenCookie.set env access_token no_options;;
  refresh_token ← or_throw InvalidTokenError (string_property "refresh_token" data);
  RefreshTokenCookie.set env refresh_token no_options.

(** The getter [#refreshToken] is read twice, as in the source; an undefined
    argument of [URLSearchParams.set] would be sent as the text [undefined]. *)
Definition refresh : M unit :=
  rt ← refreshToken;
  if negb (truthy rt) then mret tt
  else
    rt ← refreshToken;
    request ← createRefreshTokenRequest (default "undefined" rt);
    response ← fetchM env request;
    data ← jsonM response;
    console_log (LogResponse response);;
    console_log (LogData data);;
    if isExpiredSession response data then deleteTokens
    else if negb (ok response) || negb (isTokens data) then
      throw (RefreshFailed (status response) data)
    else storeTokens data.

Definition getAccessToken : M (option string) :=
  current ← accessToken;
  if truthy current then mret current
  else refresh;; accessToken.

Definition startLoginFlow : M URL :=
  w ← get_world;
  modify with_draw;;
  let state := generateRandomState env (draws w) in
  AuthStateCookie.set state;;
  config ← getRealmConfig;
  authUrl ← endpoint "authorization_endpoint" config;
  let authUrl := url_set "client_id" (CLIENT_ID env) authUrl in
  let authUrl := url_set "response_type" "code" authUrl in
  let authUrl := url_set "redirect_uri" (BASE_URL env ++ "/login") authUrl in
  let authUrl := url_set "state" state authUrl in
  mret authUrl.

(** [state] is [None] for null. *)
Definition completeLoginFlow (state : option string) (code : string) : M string :=
  mismatch ←
    match state with
    | None => mret true
    | Some _ => stored ← authState; mret (negb (bool_decide (state = stored)))
    end;
  if (mismatch : bool) then throw StateMismatch
  else
    request ← createAuthorizationCodeRequest code;
    response ← fetchM env request;
    data ← jsonM response;
    if negb (ok response) || negb (isTokens data) then
      throw (TokenExchangeFailed (status response) data)
    else
      storeTokens data;;
      mret "/".

(** The result is a URL or a path. *)
Definition handleLoginFlow (params : list (string * string)) : M (URL + string) :=
  let state := params_get "state" params in
  let code := params_get "code" params in
  if truthy code then inr <$> completeLoginFlow state (default "" code)
  else inl <$> startLoginFlow.

End WithEnv.
End OIDC.

(** ** Contracts of node:crypto *)

(** The separator holds a character that no base64url text contains. *)
Definition separator_safe (sep : string) : bool :=
  existsb (fun c => negb (is_base64url_char c)) (list_ascii_of_string sep).

(** A configuration the suite supports: the base64url output encoding, a
    safe separator, and an algorithm and key for which, at every IV of the
    configured length, the cipher runs, its tag (if it has one) is not
    empty, and the decipher, handed that tag where it takes one, returns
    the data the cipher was fed. *)
Definition supported (node : NodeCrypto) (suite : CryptoSuite.t) : Prop :=
  outputEncoding (CryptoSuite.options suite) = "base64url" /\
  separator_safe (separator (CryptoSuite.options suite)) = true /\
  forall iv data, length iv = ivLength (CryptoSuite.options suite) ->
    exists cipher decipher,
      createCipheriv node (CryptoSuite.algorithm suite) (CryptoSuite.key suite) iv data
        = Some cipher /\
      createDecipheriv node (CryptoSuite.algorithm suite) (CryptoSuite.key suite) iv
        = Some decipher /\
      getAuthTag cipher <> Some [] /\
      decipher_output decipher (setAuthTag decipher (getAuthTag cipher))
        (cipher_output cipher) = Some data.

(** An authenticated mode: every decipher takes a tag, refuses to finish
    without one, and accepts a ciphertext under a tag only when that tag is
    a non-empty prefix of the tag the cipher produces, with exactly that
    ciphertext, for the data returned (GCM deciphers accept truncated tags
    unless a tag length is configured, and the suite configures none). *)
Definition authenticated (node : NodeCrypto) (suite : CryptoSuite.t) : Prop :=
  forall iv decipher,
    createDecipheriv node (CryptoSuite.algorithm suite) (CryptoSuite.key suite) iv
      = Some decipher ->
    hasSetAuthTag decipher = true /\
    (forall ciphertext, decipher_output decipher None ciphertext = None) /\
    (forall tag ciphertext data,
        decipher_output decipher (Some tag) ciphertext = Some data ->
        exists cipher full,
          createCipheriv node (CryptoSuite.algorithm suite) (CryptoSuite.key suite) iv data
            = Some cipher /\
          cipher_output cipher = ciphertext /\
          getAuthTag cipher = Some full /\
          tag <> [] /\ tag `prefix_of` full).

(** ** Notions used in the statements *)

(** The request for the discovery document. *)
Definition discovery_request (env : Env) : Request :=
  GET (REALM env ++ "/.well-known/openid-configuration").

(** The world in which [refresh] inspects the response: the request is on
    the trace, the response and its data are on the console. *)
Definition answered (request : Request) (response : Response) (data : JSON)
    (w1 : World) : World :=
  with_console (LogData data)
    (with_console (LogResponse response) (with_sent request w1)).

(** The records that the two setters store, for the expiry that
    [getExpiry] has returned. *)
Definition access_record (token : string) (expires : option Date) : CookieRecord :=
  {| cookie_value := token;
     cookie_options :=
       spread (Cookie.options AccessTokenCookie.new) (expiry_options expires no_options) |}.

Definition refresh_record (encrypted : string) (expires : option Date) : CookieRecord :=
  {| cookie_value := encrypted;
     cookie_options :=
       spread (Cookie.options RefreshTokenCookie.new) (expiry_options expires no_options) |}.

(** No refresh token is stored: the cookie is absent or empty, does not
    decrypt, or decrypts to the empty string. *)
Definition no_refresh_token (env : Env) (w : World) : Prop :=
  forall c rt,
    cookies w !! "refresh-token" = Some c ->
    CryptoSuite.decrypt (node_crypto env) (RefreshTokenCookie.crypto env) (cookie_value c)
      = Some rt ->
    rt = "".

(** The refresh token [rt] is stored. *)
Definition refresh_token_stored (env : Env) (w : World) (rt : string) : Prop :=
  exists c,
    cookies w !! "refresh-token" = Some c /\
    CryptoSuite.decrypt (node_crypto env) (RefreshTokenCookie.crypto env) (cookie_value c)
      = Some rt /\
    rt <> "".

(** The refresh-grant requests on a trace. *)
Definition refresh_grants (trace : list Request) : nat :=
  length (List.filter is_refresh_grant trace).

(** The invariant of the token pair: an access-token cookie is stored only
    together with a refresh-token cookie. *)
Definition token_pair (w : World) : Prop :=
  is_Some (cookies w !! "access-token") -> is_Some (cookies w !! "refresh-token").

(** Two strings of the same length that differ at exactly one position. *)
Fixpoint differences (s t : string) : option nat :=
  match s, t with
  | EmptyString, EmptyString => Some 0%nat
  | String a s', String b t' =>
      (fun n => if Ascii.eqb a b then n else S n) <$> differences s' t'
  | _, _ => None
  end.

Definition one_byte_apart (s t : string) : bool :=
  bool_decide (differences s t = Some 1%nat).

(** ** A sample environment, for closed instances *)

Definition xor_byte (a b : ascii) : ascii :=
  match a, b with
  | Ascii a0 a1 a2 a3 a4 a5 a6 a7, Ascii b0 b1 b2 b3 b4 b5 b6 b7 =>
      Ascii (xorb a0 b0) (xorb a1 b1) (xorb a2 b2) (xorb a3 b3)
            (xorb a4 b4) (xorb a5 b5) (xorb a6 b6) (xorb a7 b7)
  end.

Definition toy_pad (key iv : Buffer) : ascii :=
  fold_right xor_byte zero (key ++ iv)%list.

(** A one-byte key stream, its own inverse. *)
Definition toy_apply (key iv data : Buffer) : Buffer :=
  map (xor_byte (toy_pad key iv)) data.

(** A one-byte checksum over key, iv and ciphertext. *)
Definition toy_mac (key iv ciphertext : Buffer) : Buffer :=
  [fold_right xor_byte one (key ++ iv ++ ciphertext)%list].

(** Two toy algorithms behind the node:crypto interface: [toy-aead]
    produces and checks a tag and refuses to finish without one,
    [toy-stream] has no tag ([getAuthTag] and [setAuthTag] throw). *)
Definition toy_crypto : NodeCrypto :=
  {| createCipheriv := fun algorithm key iv data =>
       if String.eqb algorithm "toy-aead" then
         Some {| cipher_output := toy_apply key iv data;
                 cipher_getAuthTag :=
                   Some (Some (toy_mac key iv (toy_apply key iv data))) |}
       else if String.eqb algorithm "toy-stream" then
         Some {| cipher_output := toy_apply key iv data;
                 cipher_getAuthTag := Some None |}
       else None;
     createDecipheriv := fun algorithm key iv =>
       if String.eqb algorithm "toy-aead" then
         Some {| decipher_hasSetAuthTag := true;
                 decipher_output := fun tag ciphertext =>
                   match tag with
                   | Some t =>
                       if bool_decide (t = toy_mac key iv ciphertext)
                       then Some (toy_apply key iv ciphertext) else None
                   | None => None
                   end |}
       else if String.eqb algorithm "toy-stream" then
         Some {| decipher_hasSetAuthTag := true;
                 decipher_output := fun tag ciphertext =>
                   match tag with
                   | Some _ => None
                   | None => Some (toy_apply key iv ciphertext)
                   end |}
       else None;
     utf8_malformed := fun _ => string_of_units [65533%N];
     utf8_malformed_text := fun _ => string_of_units [65533%N];
     other_from := fun _ s => list_ascii_of_string s;
     other_toString := fun _ b => string_of_list_ascii b;
     other_update := fun _ s => Some (list_ascii_of_string s);
     other_text := fun _ b => string_of_list_ascii b |}.

Definition dquote : ascii := ascii_of_nat 34.

(** The payloads the sample decoder reads: [null], an empty object, or an
    object whose only member is a numeric [exp]. *)
Definition sample_payload (text : string) : option JwtPayload :=
  let opening := String "{" (String dquote ("exp" ++ String dquote ":")) in
  if String.eqb text "null" then Some JNull
  else if String.eqb text "{}" then Some (JObject [])
  else if String.prefix opening text then
    let rest := string_drop (String.length opening) text in
    let digits := String.substring 0 (String.length rest - 1) rest in
    if String.eqb (string_drop (String.length rest - 1) rest) "}" then
      (fun n => JObject [("exp", JNumber (Z.of_N (N.of_uint n)))])
        <$> NilEmpty.uint_of_string digits
    else None
  else None.

(** A decoder in the manner of jwt-decode: the second dot-separated part of
    the token is base64url-decoded and read as the payload; a token without
    a second part, or with an unreadable one, is rejected.  The token is
    read in its well-formed form: a surrogate without its partner is no
    more a base64 character than U+FFFD is. *)
Definition sample_jwtDecode (token : string) : option JwtPayload :=
  part ← string_split "." (toWellFormed token) !! 1%nat;
  sample_payload (utf8_decode (utf8_malformed toy_crypto) (base64url_decode part)).

Definition sample_newURL (s : string) : option URL :=
  if String.prefix "https://" s then Some {| href := s; searchParams := [] |}
  else None.

(** The identity provider answers the discovery request with [discovery]
    and every token request with [token]. *)
Definition sample_env (algorithm : string) (discovery token : option Response) : Env :=
  {| BASE_URL := "https://app";
     REALM := "https://idp/realms/demo";
     CLIENT_ID := "demo";
     CLIENT_SECRET := "secret";
     ALGORITHM := algorithm;
     KEY := utf8_encode "k";
     node_crypto := toy_crypto;
     randomBytes := fun _ n => repeat zero n;
     mathRandom := fun n => (12345 + N.of_nat n)%N;
     jwtDecode := sample_jwtDecode;
     fetch := fun _ r => match r with GET _ => discovery | POST _ _ => token end;
     newURL := sample_newURL |}.

(** A token whose third part is a surrogate without its partner, and an
    environment whose decoder accepts that token and [sample_jwt] and
    nothing else; its token endpoint answers with the two. *)
Definition lone_surrogate_jwt : string :=
  "a.e30." ++ string_of_units [55296%N].

Definition picky_env : Env :=
  {| BASE_URL := "https://app";
     REALM := "https://idp/realms/demo";
     CLIENT_ID := "demo";
     CLIENT_SECRET := "secret";
     ALGORITHM := "toy-aead";
     KEY := utf8_encode "k";
     node_crypto := toy_crypto;
     randomBytes := fun _ n => repeat zero n;
     mathRandom := fun n => (12345 + N.of_nat n)%N;
     jwtDecode := fun token =>
       if String.eqb token lone_surrogate_jwt then Some (JObject [])
       else if String.eqb token "eyJhbGciOiJub25lIn0.eyJleHAiOjE3MDAwMDAwMDB9.c2ln"
       then Some (JObject [("exp", JNumber 1700000000)])
       else None;
     fetch := fun _ r =>
       match r with
       | GET _ =>
           Some {| status := 200;
                   body := Some (JObject [("authorization_endpoint", JString "https://idp/auth");
                                          ("token_endpoint", JString "https://idp/token");
                                          ("end_session_endpoint", JString "https://idp/logout")]) |}
       | POST _ _ =>
           Some {| status := 200;
                   body := Some (JObject [("access_token",
                                           JString "eyJhbGciOiJub25lIn0.eyJleHAiOjE3MDAwMDAwMDB9.c2ln");
                                          ("refresh_token", JString lone_surrogate_jwt)]) |}
       end;
     newURL := sample_newURL |}.

Definition sample_config : JSON :=
  JObject [("issuer", JString "https://idp/realms/demo");
           ("authorization_endpoint", JString "https://idp/auth");
           ("token_endpoint", JString "https://idp/token");
           ("end_session_endpoint", JString "https://idp/logout")].

Definition empty_world : World :=
  {| cookies := ∅; cachedConfig := None; sent := []; console := []; draws := 0 |}.

Definition plain_cookie (value : string) : CookieRecord :=
  {| cookie_value := value; cookie_options := no_options |}.

(** header [{"alg":"none"}], payload [{"exp":1700000000}] *)
Definition sample_jwt : string :=
  "eyJhbGciOiJub25lIn0.eyJleHAiOjE3MDAwMDAwMDB9.c2ln".

(** header [{"alg":"none"}], payload [{"exp":1800000000}] *)
Definition sample_jwt' : string :=
  "eyJhbGciOiJub25lIn0.eyJleHAiOjE4MDAwMDAwMDB9.c2ln".

(** header [{"alg":"none"}], payload [null] *)
Definition null_jwt : string :=
  "eyJhbGciOiJub25lIn0.bnVsbA.c2ln".

Definition toy_suite (algorithm : string) : CryptoSuite.t :=
  CryptoSuite.new algorithm (utf8_encode "k") None None None None.

Definition sample_tokens : JSON :=
  JObject [("access_token", JString sample_jwt);
           ("refresh_token", JString sample_jwt')].

Definition sample_provider (algorithm : string) (token : Response) : Env :=
  sample_env algorithm (Some {| status := 200; body := Some sample_config |})
    (Some token).

Definition sample_refresh_cookie : string :=
  "AAAAAAAAAAAAAAAAAAAAAA.DhIhAwksCAIkAiEeCVleByIFW0UOEiEHDiMqAiQBLl8mLyocJi8qHCYvKVJFCFkHBQ.XQ".

(** A session whose refresh token is [sample_jwt'] and whose access token
    has expired with its cookie. *)
Definition refreshable_world : World :=
  with_cookies (insert "refresh-token" (plain_cookie sample_refresh_cookie)) empty_world.


(** ** The API client (api.ts) and the logout route (pages/logout.ts) *)

(** The request of [getHello]: its address and its headers, in order. *)
Record ApiRequest := {
  api_url : URL;
  api_headers : list (string * string)
}.

(** The constant [API_URL] of [import.meta.env], and [fetch] as the API
    server answers it. *)
Record ApiEnv := {
  API_URL : string;
  api_fetch : ApiRequest -> option Response
}.

(** The header values of the Fetch standard: a value is a byte string, so
    every code unit is at most U+00FF; leading and trailing HTTP whitespace
    is removed; what remains holds no NUL, LF or CR. *)
Definition is_http_whitespace (u : N) : bool :=
  (u =? 9)%N || (u =? 10)%N || (u =? 13)%N || (u =? 32)%N.

Fixpoint drop_while (p : N -> bool) (l : list N) : list N :=
  match l with
  | [] => []
  | u :: l' => if p u then drop_while p l' else l
  end.

Definition headerValueNormalize (value : list N) : list N :=
  rev (drop_while is_http_whitespace (rev (drop_while is_http_whitespace value))).

Definition isValidHeaderValue (value : list N) : bool :=
  forallb (fun u => negb ((u =? 0)%N || (u =? 10)%N || (u =? 13)%N)) value.

Definition isByteString (value : list N) : bool :=
  forallb (fun u => (u <=? 255)%N) value.

(** [headers.append(name, value)] for a valid [name] that [headers] does
    not hold yet; [None] when it throws a [TypeError]. *)
Definition Headers_append (headers : list (string * string)) (name value : string)
    : option (list (string * string)) :=
  let units := code_units value in
  if isByteString units then
    let value := headerValueNormalize units in
    if isValidHeaderValue value
    then Some (headers ++ [(name, string_of_units value)])%list
    else None
  else None.

(** Visible ASCII characters only, as in a JWT. *)
Definition visible_ascii (s : string) : bool :=
  forallb (fun c => (33 <=? N_of_ascii c)%N && (N_of_ascii c <? 127)%N)
    (list_ascii_of_string s).

Module Api.
Section WithEnv.
Variable env : Env.
Variable api : ApiEnv.

(** [new Request] parses the address; the header is appended for a truthy
    access token, and [append] throws for a value it refuses. *)
Definition getHello : M Response :=
  url ← or_throw InvalidURL (newURL env (API_URL api ++ "/hello"));
  let request := {| api_url := url; api_headers := [] |} in
  accessToken ← OIDC.getAccessToken env;
  request ←
    (if truthy accessToken then
       headers ← or_throw InvalidHeaderValue
         (Headers_append (api_headers request) "Authorization"
            ("Bearer " ++ default "undefined" accessToken));
       mret {| api_url := api_url request; api_headers := headers |}
     else mret request);
  or_throw FetchRejected (api_fetch api request).

End WithEnv.
End Api.

(** [new OIDC(cookies)]: a manager without cached configuration. *)
Definition new_OIDC : M unit := modify (with_cachedConfig None).

(** [redirect(url.toString())] *)
Inductive RouteResult := redirect (location : URL).

Module LogoutRoute.

Definition GET (env : Env) : M RouteResult :=
  new_OIDC;;
  url ← OIDC.logout env;
  mret (redirect url).

End LogoutRoute.

(** ** Notions used in the further statements *)

(** The discovery requests on a trace. *)
Definition is_discovery (r : Request) : bool :=
  match r with
  | GET _ => true
  | POST _ _ => false
  end.

Definition discovery_fetches (trace : list Request) : nat :=
  length (List.filter is_discovery trace).

(** The attributes every slot is constructed with. *)
Definition base_attributes (r : CookieRecord) : Prop :=
  sameSite (cookie_options r) = Some Lax /\
  httpOnly (cookie_options r) = Some true /\
  secure (cookie_options r) = Some true /\
  path (cookie_options r) = Some "/".

(** What a run may do to the jar: every cookie it leaves was there before,
    or carries the base attributes. *)
Definition jar_step (w w' : World) : Prop :=
  forall name r,
    cookies w' !! name = Some r ->
    cookies w !! name = Some r \/ base_attributes r.

(** What a run does under a cached configuration [config]: it keeps it and
    sends no discovery request. *)
Definition config_step (config : JSON) (w w' : World) : Prop :=
  cachedConfig w = Some config ->
  cachedConfig w' = Some config /\
  discovery_fetches (sent w') = discovery_fetches (sent w).

(** Every run of [m] is an [R]-step, however it ends. *)
Definition steps (R : World -> World -> Prop) {A : Type} (m : M A) : Prop :=
  forall w, R w (m w).2.

(** The collaborators as the manager relies on them: a supported cipher
    configuration, random sources that return what is asked for, and a JWT
    decoder that rejects the empty string. *)
Definition dependable (env : Env) : Prop :=
  supported (node_crypto env) (RefreshTokenCookie.crypto env) /\
  (forall draw n, length (randomBytes env draw n) = n) /\
  jwtDecode env "" = None.

(** jwt-decode reads the payload part of the token only, and refuses a
    part that is not base64: a token and its well-formed form are the same
    to it. *)
Definition decodes_well_formed (env : Env) : Prop :=
  forall token, jwtDecode env (toWellFormed token) = jwtDecode env token.

(** Neither token cookie is stored. *)
Definition logged_out (w : World) : Prop :=
  cookies w !! "access-token" = None /\ cookies w !! "refresh-token" = None.

(** A decimal digit. *)
Definition is_digit (c : ascii) : bool :=
  (48 <=? nat_of_ascii c)%nat && (nat_of_ascii c <=? 57)%nat.

Definition sample_api : ApiEnv :=
  {| API_URL := "https://api";
     api_fetch := fun _ => Some {| status := 200; body := None |} |}.

(** Every run of [m] is an [R]-step, and a normal return yields a [Q]. *)
Definition run_spec (R : World -> World -> Prop) {A : Type} (Q : A -> Prop)
    (m : M A) : Prop :=
  forall w, R w (m w).2 /\ forall a, (m w).1 = Ok a -> Q a.

(** Overrides that name an expiry only, as the type of the setters'
    second parameter requires. *)
Definition expiry_only (overrides : CookieSerializeOptions) : Prop :=
  sameSite overrides = None /\ httpOnly overrides = None /\
  secure overrides = None /\ path overrides = None.

(** [m] throws only errors that [allowed] admits. *)
Definition raises (allowed : Error -> bool) {A : Type} (m : M A) : Prop :=
  forall w e, (m w).1 = Throw e -> allowed e = true.

(** The errors of talking to the provider. *)
Definition request_error (e : Error) : bool :=
  match e with
  | ConfigUnavailable | FetchRejected | JsonRejected | InvalidURL => true
  | _ => false
  end.

(** The errors of storing a token. *)
Definition storing_error (e : Error) : bool :=
  match e with
  | InvalidTokenError | NullPayload | CipherError => true
  | _ => false
  end.

Definition decoding_error (e : Error) : bool :=
  match e with
  | InvalidTokenError => true
  | _ => false
  end.

Definition refresh_error (e : Error) : bool :=
  request_error e || storing_error e
  || match e with RefreshFailed _ _ => true | _ => false end.

Definition login_error (e : Error) : bool :=
  request_error e || storing_error e
  || match e with StateMismatch | TokenExchangeFailed _ _ => true | _ => false end.

Definition no_error (e : Error) : bool := false.

(** A session that can be used: a non-empty access token in its cookie and
    a refresh token that decrypts. *)
Definition usable_session (env : Env) (w : World) (access refresh : string) : Prop :=
  cookie_value <$> cookies w !! "access-token" = Some access /\ access <> "" /\
  refresh_token_stored env w refresh.

Definition no_expirations : Expirations :=
  {| exp_accessToken := None; exp_refreshToken := None |}.

(** A jar whose token cookies are sound: the access-token cookie holds a
    decodable token and expires with it; the refresh-token cookie decrypts
    to a decodable token and expires with it. *)
Definition sound_jar (env : Env) (w : World) : Prop :=
  (forall c, cookies w !! "access-token" = Some c ->
     exists jwt, jwtDecode env (cookie_value c) = Some jwt /\
       getExpiry jwt = Some (expires (cookie_options c))) /\
  (forall c, cookies w !! "refresh-token" = Some c ->
     exists rt jwt,
       CryptoSuite.decrypt (node_crypto env) (RefreshTokenCookie.crypto env) (cookie_value c)
         = Some rt /\
       jwtDecode env rt = Some jwt /\
       getExpiry jwt = Some (expires (cookie_options c))).

Definition sound_step (env : Env) (w w' : World) : Prop :=
  sound_jar env w -> sound_jar env w'.

(** The expiry attribute of a stored cookie. *)
Definition cookie_expiry (name : string) (w : World) : option Date :=
  c ← cookies w !! name; expires (cookie_options c).

(** A request to the provider: the discovery request, or a POST to the
    token endpoint that the cached configuration names. *)
Definition provider_request (env : Env) (w : World) (r : Request) : Prop :=
  r = discovery_request env \/
  exists config url body,
    cachedConfig w = Some config /\
    string_property "token_endpoint" config ≫= newURL env = Some url /\
    r = POST url body.

(** A run that keeps a cached configuration and sends only requests to
    the provider. *)
Definition provider_step (env : Env) (w w' : World) : Prop :=
  (forall config, cachedConfig w = Some config -> cachedConfig w' = Some config) /\
  exists new, sent w' = (sent w ++ new)%list /\ Forall (provider_request env w') new.

(** A run that leaves the auth-state cookie as it is. *)
Definition auth_state_step (w w' : World) : Prop :=
  cookies w' !! "auth-state" = cookies w !! "auth-state".

(** A Unicode scalar value. *)
Definition scalar (cp : N) : Prop :=
  (cp < 1114112)%N /\ is_high_surrogate cp = false /\ is_low_surrogate cp = false.

(** ** Tactics *)

(** Linear arithmetic with division and remainder on [N]. *)
Ltac nlia := zify; Z.to_euclidean_division_equations; lia.

(** Unfold the operations down to state passing, callers first. *)
Ltac unfold_program :=
  unfold OIDC.createAuthorizationCodeRequest, OIDC.createRefreshTokenRequest,
    OIDC.storeTokens, OIDC.deleteTokens, OIDC.getRealmConfig, OIDC.endpoint,
    OIDC.accessToken, OIDC.authState,
    AccessTokenCookie.set, AccessTokenCookie.delete, AccessTokenCookie.value,
    RefreshTokenCookie.set, RefreshTokenCookie.delete,
    AuthStateCookie.set, AuthStateCookie.value,
    Cookie.set, Cookie.delete, Cookie.value,
    fetchM, jsonM, console_log, or_throw, get_world, throw, modify,
    mbind, M_bind, mret, M_ret in *.

(** Run the program symbolically, splitting on every branch. *)
Ltac run_program :=
  unfold_program;
  repeat (cbn -[insert delete lookup String.append CryptoSuite.encrypt CryptoSuite.decrypt
                getExpiry expiration] in *;
          case_match; simplify_eq);
  cbn -[insert delete lookup String.append CryptoSuite.encrypt CryptoSuite.decrypt
        getExpiry expiration] in *.

(** * Properties *)

(** ** The model on known inputs *)

(** The encodings of RFC 4648, section 10, without padding. *)
Example base64url_vectors :
  map (fun s => base64url_encode (utf8_encode s)) [""; "f"; "fo"; "foo"; "foob"; "fooba"; "foobar"]
    = [""; "Zg"; "Zm8"; "Zm9v"; "Zm9vYg"; "Zm9vYmE"; "Zm9vYmFy"] /\
  map (fun s => utf8_decode (fun _ => "?") (base64url_decode s))
    ["Zg"; "Zm8"; "Zm9v"; "Zm9vYg=="; "Zm9v YmE"]
    = ["f"; "fo"; "foo"; "foob"; "fooba"].
Proof. by vm_compute. Qed.

Example string_split_vectors :
  string_split "." "ab..c" = ["ab"; ""; "c"] /\
  string_split "." "" = [""] /\
  string_split "--" "a---b" = ["a"; "-b"] /\
  string_split "" "abc" = ["a"; "b"; "c"] /\
  array_join "." ["ab"; ""; "c"] = "ab..c".
Proof. by vm_compute. Qed.

(** The scenario of the specification: the authorization URL and the CSRF
    cookie of [startLoginFlow]. *)
Example startLoginFlow_scenario :
  let env := sample_env "toy-aead" (Some {| status := 200; body := Some sample_config |}) None in
  (OIDC.startLoginFlow env empty_world).1 =
    Ok {| href := "https://idp/auth";
          searchParams := [("client_id", "demo"); ("response_type", "code");
                           ("redirect_uri", "https://app/login"); ("state", "12345")] |} /\
  cookie_value <$> cookies (OIDC.startLoginFlow env empty_world).2 !! "auth-state"
    = Some "12345".
Proof. by vm_compute. Qed.

(** The utf8 codec on an accented letter, a surrogate pair, a surrogate
    without its partner (encoded as U+FFFD) and malformed bytes; the
    base64url decoder reads U+0141 as it reads [A]; a header value is
    trimmed, and refused when a line feed remains. *)
Example utf8_vectors :
  utf8_encode (string_of_units [233%N]) = map byte [195; 169]%N /\
  utf8_encode (string_of_units [55357; 56832]%N) = map byte [240; 159; 152; 128]%N /\
  utf8_encode (string_of_units [55296%N]) = map byte [239; 191; 189]%N /\
  utf8_decode (fun _ => "?") (map byte [240; 159; 152; 128]%N)
    = string_of_units [55357; 56832]%N /\
  utf8_decode (fun _ => "?") (map byte [237; 160; 128]%N) = "?" /\
  toWellFormed (string_of_units [97; 55296; 98]%N) = string_of_units [97; 65533; 98]%N /\
  base64url_decode (string_of_units [321; 65]%N) = base64url_decode "AA" /\
  Headers_append [] "Authorization" "Bearer abc " = Some [("Authorization", "Bearer abc")] /\
  Headers_append [] "Authorization" (string_of_units [97; 10; 98]%N) = None /\
  Headers_append [] "Authorization" (string_of_units [97; 321]%N) = None.
Proof. by vm_compute. Qed.

(** ** The representation of JS strings *)

Lemma N_of_ascii_byte (n : N) : (n < 256)%N -> N_of_ascii (byte n) = n.
Proof. apply N_ascii_embedding. Qed.

Lemma byte_N_of_ascii (c : ascii) : byte (N_of_ascii c) = c.
Proof. apply ascii_N_embedding. Qed.

Lemma units_of_bytes_1 (a : ascii) (l : list ascii) :
  (N_of_ascii a < 192)%N ->
  units_of_bytes (a :: l) = N_of_ascii a :: units_of_bytes l.
Proof.
  intros H.
  assert ((192 <=? N_of_ascii a)%N = false) as H192 by (apply N.leb_gt; lia).
  assert ((224 <=? N_of_ascii a)%N = false) as H224 by (apply N.leb_gt; lia).
  destruct l as [|b [|c l]]; cbn [units_of_bytes]; by rewrite ?H192, ?H224.
Qed.

Lemma units_of_bytes_2 (a b : ascii) (l : list ascii) :
  (192 <= N_of_ascii a < 224)%N -> continuation b = true ->
  units_of_bytes (a :: b :: l)
  = ((N_of_ascii a - 192) * 64 + (N_of_ascii b - 128))%N :: units_of_bytes l.
Proof.
  intros H Hb. cbn [units_of_bytes]. rewrite Hb.
  assert ((192 <=? N_of_ascii a)%N = true) as -> by (apply N.leb_le; lia).
  assert ((N_of_ascii a <? 224)%N = true) as -> by (apply N.ltb_lt; lia).
  done.
Qed.

Lemma units_of_bytes_3 (a b c : ascii) (l : list ascii) :
  (224 <= N_of_ascii a < 240)%N -> continuation b = true -> continuation c = true ->
  units_of_bytes (a :: b :: c :: l)
  = ((N_of_ascii a - 224) * 4096 + (N_of_ascii b - 128) * 64 + (N_of_ascii c - 128))%N
    :: units_of_bytes l.
Proof.
  intros H Hb Hc. cbn [units_of_bytes]. rewrite Hb, Hc.
  assert ((N_of_ascii a <? 224)%N = false) as -> by (apply N.ltb_ge; lia).
  assert ((224 <=? N_of_ascii a)%N = true) as -> by (apply N.leb_le; lia).
  assert ((N_of_ascii a <? 240)%N = true) as -> by (apply N.ltb_lt; lia).
  by rewrite andb_false_r.
Qed.

Lemma continuation_byte (n : N) : (n < 64)%N -> continuation (byte (128 + n)) = true.
Proof.
  intros H. unfold continuation. rewrite N_of_ascii_byte by lia.
  apply andb_true_iff. split; [apply N.leb_le|apply N.ltb_lt]; lia.
Qed.

(** A sequence of code units is read back from its representation. *)
Lemma units_of_bytes_utf8_bytes (units : list N) :
  Forall (fun u => (u < 65536)%N) units ->
  units_of_bytes (flat_map utf8_bytes units) = units.
Proof.
  induction 1 as [|u units Hu _ IH]; [done|].
  cbn [flat_map]. unfold utf8_bytes at 1.
  destruct (N.ltb_spec u 128); [|destruct (N.ltb_spec u 2048); [|destruct (N.ltb_spec u 65536)]].
  - cbn [app]. rewrite units_of_bytes_1 by (rewrite N_of_ascii_byte; lia).
    rewrite N_of_ascii_byte by lia. by rewrite IH.
  - cbn [app]. rewrite units_of_bytes_2.
    + rewrite !N_of_ascii_byte by nlia. rewrite IH. f_equal. nlia.
    + rewrite !N_of_ascii_byte by nlia. nlia.
    + apply continuation_byte. nlia.
  - cbn [app]. rewrite units_of_bytes_3.
    + rewrite !N_of_ascii_byte by nlia. rewrite IH. f_equal. nlia.
    + rewrite !N_of_ascii_byte by nlia. nlia.
    + apply continuation_byte. nlia.
    + apply continuation_byte. nlia.
  - lia.
Qed.

Lemma code_units_string_of_units (units : list N) :
  Forall (fun u => (u < 65536)%N) units ->
  code_units (string_of_units units) = units.
Proof.
  intros H. unfold code_units, string_of_units.
  rewrite list_ascii_of_string_of_list_ascii. by apply units_of_bytes_utf8_bytes.
Qed.

(** Properties of lists by induction on their length. *)
Lemma list_length_ind {A : Type} (P : list A -> Prop) :
  (forall l, (forall l', (length l' < length l)%nat -> P l') -> P l) ->
  forall l, P l.
Proof.
  intros H l. remember (length l) as n eqn:Hn. revert l Hn.
  induction n as [n IH] using lt_wf_ind. intros l ->.
  apply H. intros l' Hl'. by apply (IH (length l')).
Qed.

Lemma units_of_bytes_bounded (l : list ascii) :
  Forall (fun u => (u < 65536)%N) (units_of_bytes l).
Proof.
  induction l as [l IH] using list_length_ind.
  destruct l as [|a l1]; [constructor|].
  pose proof (N_ascii_bounded a) as Ha.
  assert (Forall (fun u => (u < 65536)%N) (N_of_ascii a :: units_of_bytes l1)) as Hone.
  { constructor; [lia|]. apply IH. cbn. lia. }
  destruct l1 as [|b l2]; [by repeat constructor; lia|].
  pose proof (N_ascii_bounded b) as Hb.
  cbn [units_of_bytes].
  destruct (_ && continuation b) eqn:H2.
  { constructor; [|apply IH; cbn; lia].
    apply andb_true_iff in H2 as [[H21 H22]%andb_true_iff H23].
    apply N.leb_le in H21. apply N.ltb_lt in H22. unfold continuation in H23.
    apply andb_true_iff in H23 as [?%N.leb_le ?%N.ltb_lt]. nlia. }
  destruct l2 as [|c l3]; [exact Hone|].
  pose proof (N_ascii_bounded c) as Hc.
  destruct (_ && continuation c) eqn:H3; [|exact Hone].
  constructor; [|apply IH; cbn; lia].
  apply andb_true_iff in H3 as [[[H31 H32]%andb_true_iff H33]%andb_true_iff H34].
  apply N.leb_le in H31. apply N.ltb_lt in H32. unfold continuation in H33, H34.
  apply andb_true_iff in H33 as [?%N.leb_le ?%N.ltb_lt].
  apply andb_true_iff in H34 as [?%N.leb_le ?%N.ltb_lt]. nlia.
Qed.

Lemma code_units_bounded (s : string) : Forall (fun u => (u < 65536)%N) (code_units s).
Proof. apply units_of_bytes_bounded. Qed.

Lemma units_of_bytes_nonempty (l : list ascii) : l <> [] -> units_of_bytes l <> [].
Proof.
  destruct l as [|a [|b [|c l]]]; [done|done| |]; intros _; cbn [units_of_bytes].
  all: repeat match goal with |- context [if ?b then _ else _] => destruct b end; done.
Qed.

(** ** The utf8 codec *)

Lemma surrogate_range (u : N) :
  (is_high_surrogate u = true <-> (55296 <= u < 56320)%N) /\
  (is_low_surrogate u = true <-> (56320 <= u < 57344)%N).
Proof.
  unfold is_high_surrogate, is_low_surrogate.
  rewrite !andb_true_iff, !N.leb_le, !N.ltb_lt. tauto.
Qed.

Lemma not_surrogate (u : N) :
  is_high_surrogate u = false -> is_low_surrogate u = false ->
  (u < 55296 \/ 57344 <= u)%N.
Proof.
  intros H1 H2.
  destruct (N.ltb_spec u 55296); [by left|].
  destruct (N.leb_spec 57344 u); [by right|].
  destruct (N.ltb_spec u 56320).
  - assert (is_high_surrogate u = true) by (apply surrogate_range; lia). congruence.
  - assert (is_low_surrogate u = true) by (apply surrogate_range; lia). congruence.
Qed.

Lemma scalars_of_units_scalar (units : list N) :
  Forall (fun u => (u < 65536)%N) units ->
  Forall scalar (scalars_of_units units).
Proof.
  induction units as [units IH] using list_length_ind. intros Hunits.
  destruct units as [|u rest]; [constructor|].
  apply Forall_cons in Hunits as [Hu Hrest].
  assert (scalar 65533) as Hffd by (by split; [lia|]).
  cbn [scalars_of_units].
  destruct (is_high_surrogate u) eqn:Hh.
  - destruct rest as [|l rest']; [by repeat constructor|].
    destruct (is_low_surrogate l) eqn:Hl.
    + apply Forall_cons in Hrest as [_ Hrest'].
      constructor; [|apply IH; [cbn; lia|done]].
      apply surrogate_range in Hh, Hl.
      split; [lia|]. split.
      * apply not_true_is_false. intros ?%surrogate_range. lia.
      * apply not_true_is_false. intros ?%surrogate_range. lia.
    + constructor; [done|]. apply IH; [cbn; lia|done].
  - destruct (is_low_surrogate u) eqn:Hl.
    + constructor; [done|]. apply IH; [cbn; lia|done].
    + constructor; [by split; [lia|]|]. apply IH; [cbn; lia|done].
Qed.

Lemma units_of_scalar_bounded (cps : list N) :
  Forall scalar cps -> Forall (fun u => (u < 65536)%N) (flat_map units_of_scalar cps).
Proof.
  induction 1 as [|cp cps [Hcp _] _ IH]; [constructor|].
  cbn [flat_map]. apply Forall_app. split; [|done].
  unfold units_of_scalar. destruct (N.ltb_spec cp 65536).
  - by repeat constructor.
  - repeat constructor; nlia.
Qed.

(** The code points of well-formed units are read back from their units. *)
Lemma scalars_of_units_of_scalar (cps : list N) :
  Forall scalar cps -> scalars_of_units (flat_map units_of_scalar cps) = cps.
Proof.
  induction 1 as [|cp cps (Hcp & Hh & Hl) _ IH]; [done|].
  cbn [flat_map]. unfold units_of_scalar at 1. destruct (N.ltb_spec cp 65536).
  - cbn [app scalars_of_units]. by rewrite Hh, Hl, IH.
  - cbn [app scalars_of_units].
    assert (is_high_surrogate (55296 + (cp - 65536) / 1024) = true) as ->
      by (apply surrogate_range; nlia).
    assert (is_low_surrogate (56320 + (cp - 65536) mod 1024) = true) as ->
      by (apply surrogate_range; nlia).
    rewrite IH. f_equal. nlia.
Qed.

Lemma units_of_scalars_of_units (units : list N) :
  Forall (fun u => (u < 65536)%N) units -> paired units = true ->
  flat_map units_of_scalar (scalars_of_units units) = units.
Proof.
  induction units as [units IH] using list_length_ind. intros Hunits Hpaired.
  destruct units as [|u rest]; [done|].
  apply Forall_cons in Hunits as [Hu Hrest].
  cbn [scalars_of_units paired] in *.
  destruct (is_high_surrogate u) eqn:Hh.
  - destruct rest as [|l rest']; [done|].
    apply andb_true_iff in Hpaired as [Hl Hpaired]. rewrite Hl.
    apply Forall_cons in Hrest as [_ Hrest'].
    cbn [flat_map]. rewrite IH by (cbn; lia || done).
    apply surrogate_range in Hh, Hl.
    unfold units_of_scalar.
    assert ((65536 + (u - 55296) * 1024 + (l - 56320) <? 65536)%N = false) as ->
      by (apply N.ltb_ge; lia).
    cbn [app]. f_equal; [nlia|]. f_equal. nlia.
  - apply andb_true_iff in Hpaired as [Hl%negb_true_iff Hpaired]. rewrite Hl.
    cbn [flat_map]. rewrite IH by (cbn; lia || done).
    unfold units_of_scalar.
    by assert ((u <? 65536)%N = true) as -> by (by apply N.ltb_lt).
Qed.

Lemma scalars_of_utf8_1 (a : ascii) (l : list ascii) :
  (N_of_ascii a < 128)%N ->
  scalars_of_utf8 (a :: l) = cons (N_of_ascii a) <$> scalars_of_utf8 l.
Proof.
  intros H. cbn [scalars_of_utf8].
  by assert ((N_of_ascii a <? 128)%N = true) as -> by (by apply N.ltb_lt).
Qed.

Lemma scalars_of_utf8_bytes (cps : list N) :
  Forall scalar cps -> scalars_of_utf8 (flat_map utf8_bytes cps) = Some cps.
Proof.
  induction 1 as [|cp cps (Hcp & Hh & Hl) _ IH]; [done|].
  cbn [flat_map]. unfold utf8_bytes at 1.
  destruct (N.ltb_spec cp 128); [|destruct (N.ltb_spec cp 2048); [|destruct (N.ltb_spec cp 65536)]].
  - cbn [app]. rewrite scalars_of_utf8_1 by (rewrite N_of_ascii_byte; lia).
    rewrite IH, N_of_ascii_byte by lia. done.
  - cbn [app scalars_of_utf8].
    rewrite continuation_byte by nlia.
    rewrite !N_of_ascii_byte by nlia.
    assert ((192 + cp / 64 <? 128)%N = false) as -> by (apply N.ltb_ge; nlia).
    assert ((194 <=? 192 + cp / 64)%N = true) as -> by (apply N.leb_le; nlia).
    assert ((192 + cp / 64 <? 224)%N = true) as -> by (apply N.ltb_lt; nlia).
    cbn [andb]. rewrite IH. cbn. do 2 f_equal. nlia.
  - cbn [app scalars_of_utf8].
    rewrite !continuation_byte by nlia.
    rewrite !N_of_ascii_byte by nlia.
    assert ((224 + cp / 64 / 64 <? 128)%N = false) as -> by (apply N.ltb_ge; nlia).
    assert ((224 + cp / 64 / 64 <? 224)%N = false) as -> by (apply N.ltb_ge; nlia).
    assert ((224 <=? 224 + cp / 64 / 64)%N = true) as -> by (apply N.leb_le; nlia).
    assert ((224 + cp / 64 / 64 <? 240)%N = true) as -> by (apply N.ltb_lt; nlia).
    rewrite andb_false_r. cbn [andb].
    assert ((224 + cp / 64 / 64 - 224) * 4096 + (128 + (cp / 64) mod 64 - 128) * 64
            + (128 + cp mod 64 - 128) = cp)%N as -> by nlia.
    assert ((2048 <=? cp)%N = true) as -> by (by apply N.leb_le).
    rewrite Hh, Hl, IH. done.
  - cbn [app scalars_of_utf8].
    rewrite !continuation_byte by nlia.
    rewrite !N_of_ascii_byte by nlia.
    assert ((240 + cp / 64 / 64 / 64 <? 128)%N = false) as -> by (apply N.ltb_ge; nlia).
    assert ((240 + cp / 64 / 64 / 64 <? 224)%N = false) as -> by (apply N.ltb_ge; nlia).
    assert ((240 + cp / 64 / 64 / 64 <? 240)%N = false) as -> by (apply N.ltb_ge; nlia).
    assert ((240 <=? 240 + cp / 64 / 64 / 64)%N = true) as -> by (apply N.leb_le; nlia).
    assert ((240 + cp / 64 / 64 / 64 <? 245)%N = true) as -> by (apply N.ltb_lt; nlia).
    rewrite !andb_false_r. cbn [andb].
    assert ((240 + cp / 64 / 64 / 64 - 240) * 262144
            + (128 + (cp / 64 / 64) mod 64 - 128) * 4096
            + (128 + (cp / 64) mod 64 - 128) * 64
            + (128 + cp mod 64 - 128) = cp)%N as -> by nlia.
    assert ((65536 <=? cp)%N = true) as -> by (by apply N.leb_le).
    assert ((cp <? 1114112)%N = true) as -> by (by apply N.ltb_lt).
    rewrite IH. done.
Qed.

(** What is encoded as utf8 and decoded again is the well-formed form of
    the string, whatever the decoder makes of malformed input. *)
Lemma utf8_decode_encode (malformed : Buffer -> string) (s : string) :
  utf8_decode malformed (utf8_encode s) = toWellFormed s.
Proof.
  unfold utf8_decode, utf8_encode.
  by rewrite scalars_of_utf8_bytes by apply scalars_of_units_scalar, code_units_bounded.
Qed.

Lemma toWellFormed_well_formed (s : string) :
  represents s -> isWellFormed s = true -> toWellFormed s = s.
Proof.
  intros Hs Hwf. unfold toWellFormed.
  by rewrite units_of_scalars_of_units by (apply code_units_bounded || done).
Qed.

Lemma toWellFormed_idempotent (s : string) :
  toWellFormed (toWellFormed s) = toWellFormed s.
Proof.
  unfold toWellFormed at 1.
  assert (code_units (toWellFormed s) = flat_map units_of_scalar (scalars_of_units (code_units s)))
    as ->.
  { apply code_units_string_of_units, units_of_scalar_bounded,
      scalars_of_units_scalar, code_units_bounded. }
  by rewrite scalars_of_units_of_scalar by apply scalars_of_units_scalar, code_units_bounded.
Qed.

Lemma utf8_bytes_nonempty (cp : N) : utf8_bytes cp <> [].
Proof. unfold utf8_bytes. by repeat case_match. Qed.

Lemma flat_map_nonempty {A B : Type} (f : A -> list B) (l : list A) :
  (forall a, f a <> []) -> l <> [] -> flat_map f l <> [].
Proof.
  intros Hf. destruct l as [|a l]; [done|]. intros _. cbn.
  specialize (Hf a). by destruct (f a).
Qed.

Lemma scalars_of_units_nonempty (units : list N) :
  units <> [] -> scalars_of_units units <> [].
Proof.
  destruct units as [|u [|l rest]]; [done| |]; intros _; cbn [scalars_of_units].
  all: by repeat case_match.
Qed.

Lemma toWellFormed_nonempty (s : string) : s <> "" -> toWellFormed s <> "".
Proof.
  intros Hs. unfold toWellFormed, string_of_units.
  assert (flat_map utf8_bytes
            (flat_map units_of_scalar (scalars_of_units (code_units s))) <> []) as H.
  { apply flat_map_nonempty; [apply utf8_bytes_nonempty|].
    apply flat_map_nonempty; [intros a; unfold units_of_scalar; by case_match|].
    apply scalars_of_units_nonempty, units_of_bytes_nonempty.
    destruct s; [done|]. done. }
  destruct (flat_map utf8_bytes _); [done|]. done.
Qed.

(** ** The base64url codec *)

Lemma unbase64_char_of_sextet (s : sextet) : unbase64 (char_of_sextet s) = Some s.
Proof. by destruct s as [[] [] [] [] [] []]. Qed.

Lemma char_of_sextet_alphabet (s : sextet) : is_base64url_char (char_of_sextet s) = true.
Proof. by destruct s as [[] [] [] [] [] []]. Qed.

Lemma char_of_sextet_not_padding (s : sextet) : Ascii.eqb (char_of_sextet s) "=" = false.
Proof. by destruct s as [[] [] [] [] [] []]. Qed.

Lemma until_padding_chars (l : list sextet) :
  until_padding (map char_of_sextet l) = map char_of_sextet l.
Proof.
  induction l as [|s l IH]; [done|].
  cbn [map until_padding]. by rewrite char_of_sextet_not_padding, IH.
Qed.

Lemma legal_sextets_chars (l : list sextet) :
  legal_sextets (map char_of_sextet l) = l.
Proof.
  induction l as [|s l IH]; [done|].
  cbn [map legal_sextets]. by rewrite unbase64_char_of_sextet, IH.
Qed.

(** Induction three bytes at a time, the way the encoder consumes them. *)
Lemma list_ind3 {A : Type} (P : list A -> Prop) :
  P [] -> (forall a, P [a]) -> (forall a b, P [a; b]) ->
  (forall a b c l, P l -> P (a :: b :: c :: l)) ->
  forall l, P l.
Proof.
  intros H0 H1 H2 H3.
  fix IH 1. intros [|a [|b [|c l]]]; [exact H0|exact (H1 a)|exact (H2 a b)|].
  exact (H3 a b c l (IH l)).
Qed.

Lemma bytes_of_sextets_of_bytes (b : Buffer) :
  bytes_of_sextets (sextets_of_bytes b) = b.
Proof.
  induction b as [|x|x y|x y z rest IH] using list_ind3.
  - done.
  - by destruct x.
  - by destruct x, y.
  - destruct x, y, z. cbn [sextets_of_bytes bytes_of_sextets]. by rewrite IH.
Qed.

Lemma char_of_sextet_ascii (s : sextet) : (N_of_ascii (char_of_sextet s) < 128)%N.
Proof. by destruct s as [[] [] [] [] [] []]. Qed.

(** The text of an encoding is ASCII: the decoder reads its bytes. *)
Lemma low_bytes_chars (l : list sextet) :
  map (fun u => byte (u mod 256)) (units_of_bytes (map char_of_sextet l))
  = map char_of_sextet l.
Proof.
  induction l as [|s l IH]; [done|].
  pose proof (char_of_sextet_ascii s) as Hs.
  cbn [map]. rewrite units_of_bytes_1 by lia. cbn [map]. rewrite IH.
  by rewrite N.mod_small, byte_N_of_ascii by lia.
Qed.

Theorem base64url_decode_encode (b : Buffer) :
  base64url_decode (base64url_encode b) = b.
Proof.
  unfold base64url_decode, base64url_encode, code_units.
  rewrite list_ascii_of_string_of_list_ascii, low_bytes_chars,
    until_padding_chars, legal_sextets_chars.
  apply bytes_of_sextets_of_bytes.
Qed.

Lemma find_index_chars (c : ascii) (l : list sextet) :
  is_base64url_char c = false ->
  find_index c (string_of_list_ascii (map char_of_sextet l)) = None.
Proof.
  intros Hc. induction l as [|s l IH]; [done|].
  cbn [map string_of_list_ascii find_index]. rewrite IH.
  destruct (Ascii.eqb_spec c (char_of_sextet s)) as [->|]; [|done].
  by rewrite char_of_sextet_alphabet in Hc.
Qed.

(** A character outside the alphabet does not occur in an encoding. *)
Lemma find_index_base64url (c : ascii) (b : Buffer) :
  is_base64url_char c = false -> find_index c (base64url_encode b) = None.
Proof. apply find_index_chars. Qed.

(** ** Splitting what was joined *)

#[local] Arguments String.append !_ _ / : simpl nomatch.

Lemma split_first_unfold (sep s : string) :
  split_first sep s =
    if String.prefix sep s then (EmptyString, Some (string_drop (String.length sep) s))
    else match s with
         | EmptyString => (EmptyString, None)
         | String c s' => let (p, r) := split_first sep s' in (String c p, r)
         end.
Proof. by destruct s. Qed.

Lemma prefix_app (p s : string) : String.prefix p (p ++ s) = true.
Proof.
  induction p as [|c p IH]; [by destruct s|].
  cbn. by destruct (ascii_dec c c).
Qed.

Lemma string_drop_app (p s : string) : string_drop (String.length p) (p ++ s) = s.
Proof. induction p as [|c p IH]; [done|]. apply IH. Qed.

Lemma find_index_app_None (c : ascii) (p s : string) :
  find_index c p = None ->
  find_index c (p ++ s) = (fun n => String.length p + n)%nat <$> find_index c s.
Proof.
  induction p as [|d p IH]; cbn; intros H.
  - by destruct (find_index c s).
  - destruct (Ascii.eqb c d); [done|].
    destruct (find_index c p); [done|].
    rewrite IH by done. by destruct (find_index c s).
Qed.

Lemma find_index_prefix (c : ascii) (sep : string) :
  forall (s : string) (k : nat),
    find_index c sep = Some k -> String.prefix sep s = true -> find_index c s = Some k.
Proof.
  induction sep as [|d sep IH]; intros s k Hk Hp; [done|].
  destruct s as [|e s]; [done|]. cbn in Hk, Hp |- *.
  destruct (ascii_dec d e) as [->|]; [|done].
  destruct (Ascii.eqb c e); [done|].
  destruct (find_index c sep) as [j|] eqn:Hj; [|done].
  by rewrite (IH s j).
Qed.

(** A separator that holds a character [c] cannot start inside a text that
    is free of [c] and is followed by the separator. *)
Lemma prefix_inside (c d : ascii) (sep p s : string) (k : nat) :
  find_index c sep = Some k -> find_index c (String d p) = None ->
  String.prefix sep (String d p ++ sep ++ s) = false.
Proof.
  intros Hk Hp.
  destruct (String.prefix sep (String d p ++ sep ++ s)) eqn:Hpre; [|done].
  pose proof (find_index_prefix c sep _ k Hk Hpre) as H1.
  rewrite (find_index_app_None _ _ _ Hp) in H1.
  rewrite (find_index_prefix c sep (sep ++ s) k Hk (prefix_app _ _)) in H1.
  cbn in H1. injection H1. lia.
Qed.

Lemma split_first_app (c : ascii) (sep : string) (k : nat) :
  find_index c sep = Some k ->
  forall p s : string, find_index c p = None ->
    split_first sep (p ++ sep ++ s) = (p, Some s).
Proof.
  intros Hk p. induction p as [|d p IH]; intros s Hp.
  - rewrite split_first_unfold. cbn [String.append].
    by rewrite prefix_app, string_drop_app.
  - rewrite split_first_unfold, (prefix_inside c d sep p s k) by done.
    cbn [String.append]. rewrite IH; [done|].
    cbn in Hp. destruct (Ascii.eqb c d); [done|].
    by destruct (find_index c p).
Qed.

Lemma prefix_free (c : ascii) (sep s : string) (k : nat) :
  find_index c sep = Some k -> find_index c s = None -> String.prefix sep s = false.
Proof.
  intros Hk Hs. destruct (String.prefix sep s) eqn:Hp; [|done].
  by rewrite (find_index_prefix c sep s k Hk Hp) in Hs.
Qed.

Lemma split_first_free (c : ascii) (sep : string) (k : nat) :
  find_index c sep = Some k ->
  forall s : string, find_index c s = None -> split_first sep s = (s, None).
Proof.
  intros Hk s. induction s as [|d s IH]; intros Hs.
  - by rewrite split_first_unfold, (prefix_free c sep _ k).
  - rewrite split_first_unfold, (prefix_free c sep _ k) by done.
    rewrite IH; [done|]. cbn in Hs. destruct (Ascii.eqb c d); [done|].
    by destruct (find_index c s).
Qed.

Lemma separator_nonempty (c : ascii) (sep : string) (k : nat) :
  find_index c sep = Some k -> exists d sep', sep = String d sep'.
Proof. destruct sep; [done|eauto]. Qed.

Lemma length_append (p s : string) :
  String.length (p ++ s) = (String.length p + String.length s)%nat.
Proof. induction p; cbn; auto. Qed.

Lemma string_split_two (c : ascii) (sep p q : string) (k : nat) :
  find_index c sep = Some k -> find_index c p = None -> find_index c q = None ->
  string_split sep (p ++ sep ++ q) = [p; q].
Proof.
  intros Hk Hp Hq. destruct (separator_nonempty c sep k Hk) as (d & sep' & Hsep).
  unfold string_split. rewrite Hsep at 1.
  destruct (String.length (p ++ sep ++ q)) as [|n] eqn:Hlen.
  { rewrite !length_append, Hsep in Hlen. cbn in Hlen. lia. }
  cbn [split_pieces].
  rewrite (split_first_app c sep k Hk p q Hp).
  by rewrite (split_first_free c sep k Hk q Hq).
Qed.

Lemma string_split_three (c : ascii) (sep p q r : string) (k : nat) :
  find_index c sep = Some k ->
  find_index c p = None -> find_index c q = None -> find_index c r = None ->
  string_split sep (p ++ sep ++ q ++ sep ++ r) = [p; q; r].
Proof.
  intros Hk Hp Hq Hr. destruct (separator_nonempty c sep k Hk) as (d & sep' & Hsep).
  unfold string_split. rewrite Hsep at 1.
  destruct (String.length (p ++ sep ++ q ++ sep ++ r)) as [|[|n]] eqn:Hlen.
  1, 2: rewrite !length_append, Hsep in Hlen; cbn in Hlen; lia.
  cbn [split_pieces].
  rewrite (split_first_app c sep k Hk p _ Hp).
  rewrite (split_first_app c sep k Hk q _ Hq).
  by rewrite (split_first_free c sep k Hk r Hr).
Qed.

(** ** The codec of the refresh token *)

Lemma separator_safe_witness (sep : string) :
  separator_safe sep = true ->
  exists c k, find_index c sep = Some k /\ is_base64url_char c = false.
Proof.
  unfold separator_safe. induction sep as [|d sep IH]; cbn; [done|].
  destruct (is_base64url_char d) eqn:Hd; cbn.
  - intros (c & k & Hk & Hc)%IH. exists c.
    destruct (Ascii.eqb_spec c d) as [->|]; [congruence|].
    exists (S k). by rewrite Hk.
  - intros _. exists d, 0%nat. by rewrite Ascii.eqb_refl.
Qed.

Lemma base64url_encode_empty (b : Buffer) : base64url_encode b = "" -> b = [].
Proof. intros H. by rewrite <- (base64url_decode_encode b), H. Qed.

Lemma truthy_Some (s : string) : truthy (Some s) = true <-> s <> "".
Proof.
  unfold truthy. destruct (String.eqb_spec s ""); cbn; split; congruence.
Qed.

Lemma split_combined_tag (node : NodeCrypto) (suite : CryptoSuite.t)
    (iv ciphertext tag : Buffer) :
  outputEncoding (CryptoSuite.options suite) = "base64url" ->
  separator_safe (separator (CryptoSuite.options suite)) = true -> tag <> [] ->
  CryptoSuite.split node suite
    (CryptoSuite.combine node suite iv (base64url_encode ciphertext) (Some tag))
  = Some (iv, Some (base64url_encode ciphertext), Some tag).
Proof.
  intros Henc (c & k & Hk & Hc)%separator_safe_witness Htag.
  unfold CryptoSuite.split, CryptoSuite.combine. rewrite Henc.
  change (Buffer_toString node "base64url") with base64url_encode.
  change (Buffer_from node "base64url") with base64url_decode.
  cbn [app array_join].
  rewrite (string_split_three c _ _ _ _ k Hk) by (by apply find_index_base64url).
  cbn [lookup list_lookup fmap option_fmap option_map mbind option_bind].
  assert (truthy (Some (base64url_encode tag)) = true) as ->.
  { apply truthy_Some. by intros ?%base64url_encode_empty. }
  by rewrite !base64url_decode_encode.
Qed.

Lemma split_combined_plain (node : NodeCrypto) (suite : CryptoSuite.t)
    (iv ciphertext : Buffer) :
  outputEncoding (CryptoSuite.options suite) = "base64url" ->
  separator_safe (separator (CryptoSuite.options suite)) = true ->
  CryptoSuite.split node suite
    (CryptoSuite.combine node suite iv (base64url_encode ciphertext) None)
  = Some (iv, Some (base64url_encode ciphertext), None).
Proof.
  intros Henc (c & k & Hk & Hc)%separator_safe_witness.
  unfold CryptoSuite.split, CryptoSuite.combine. rewrite Henc.
  change (Buffer_toString node "base64url") with base64url_encode.
  change (Buffer_from node "base64url") with base64url_decode.
  cbn [app array_join].
  rewrite (string_split_two c _ _ _ k Hk) by (by apply find_index_base64url).
  cbn [lookup list_lookup fmap option_fmap option_map mbind option_bind truthy].
  by rewrite !base64url_decode_encode.
Qed.

(** What [decrypt] makes of what [encrypt] made of the bytes [data]. *)
Lemma decrypt_encrypted (node : NodeCrypto) (randomBytes : nat -> Buffer)
    (suite : CryptoSuite.t) (x : string) (data : Buffer) :
  supported node suite ->
  (forall n, length (randomBytes n) = n) ->
  update_input node (inputEncoding (CryptoSuite.options suite)) x = Some data ->
  let sep := separator (CryptoSuite.options suite) in
  let iv := randomBytes (ivLength (CryptoSuite.options suite)) in
  exists cipher combined,
    createCipheriv node (CryptoSuite.algorithm suite) (CryptoSuite.key suite) iv data
      = Some cipher /\
    CryptoSuite.encrypt node randomBytes suite x = Some combined /\
    combined =
      base64url_encode iv ++ sep ++ base64url_encode (cipher_output cipher)
      ++ match getAuthTag cipher with
         | Some tag => sep ++ base64url_encode tag
         | None => ""
         end /\
    CryptoSuite.decrypt node suite combined
      = Some (text_output node (inputEncoding (CryptoSuite.options suite)) data).
Proof.
  intros (Henc & Hsep & Hnode) Hrandom Hin sep iv.
  destruct (Hnode iv data (Hrandom _)) as (cipher & decipher & Hc & Hd & Htag & Hout).
  exists cipher. unfold CryptoSuite.encrypt. fold iv.
  rewrite Hin. cbn [mbind option_bind]. rewrite Hc. cbn [mbind option_bind].
  rewrite Henc. change (text_output node "base64url") with base64url_encode.
  destruct (getAuthTag cipher) as [tag|] eqn:Hget.
  - eexists. split; [done|]. split; [done|]. split.
    { unfold CryptoSuite.combine. rewrite Henc. done. }
    unfold CryptoSuite.decrypt.
    rewrite split_combined_tag; [|done|done|by intros ->]. cbn [mbind option_bind].
    fold iv. rewrite Hd. cbn [mbind option_bind]. rewrite Henc.
    change (update_input node "base64url" ?s) with (Some (base64url_decode s)).
    cbn [mbind option_bind].
    by rewrite base64url_decode_encode, Hout.
  - eexists. split; [done|]. split; [done|]. split.
    { unfold CryptoSuite.combine. rewrite Henc. cbn [array_join]. fold sep.
      change (Buffer_toString node "base64url") with base64url_encode.
      generalize (base64url_encode (cipher_output cipher)).
      intros s. f_equal. f_equal. induction s; cbn; congruence. }
    unfold CryptoSuite.decrypt.
    rewrite split_combined_plain by done. cbn [mbind option_bind].
    fold iv. rewrite Hd. cbn [mbind option_bind]. rewrite Henc.
    change (update_input node "base64url" ?s) with (Some (base64url_decode s)).
    cbn [mbind option_bind].
    by rewrite base64url_decode_encode, Hout.
Qed.

(** C2, amended: for every supported configuration and every plaintext
    that the input encoding reads, [encrypt] yields
    [base64url(iv) + sep + base64url(ciphertext)], followed by
    [sep + base64url(tag)] when the cipher produces a tag, and [decrypt] of
    that string yields the text of the bytes read from the plaintext.
    Under the utf8 input encoding every plaintext is read, and that text
    is the well-formed form of the plaintext: the plaintext itself when it
    is well formed. *)
Theorem decrypt_encrypt (node : NodeCrypto) (randomBytes : nat -> Buffer)
    (suite : CryptoSuite.t) (x : string) (data : Buffer) :
  supported node suite ->
  (forall n, length (randomBytes n) = n) ->
  update_input node (inputEncoding (CryptoSuite.options suite)) x = Some data ->
  let sep := separator (CryptoSuite.options suite) in
  let iv := randomBytes (ivLength (CryptoSuite.options suite)) in
  exists cipher combined,
    createCipheriv node (CryptoSuite.algorithm suite) (CryptoSuite.key suite) iv data
      = Some cipher /\
    CryptoSuite.encrypt node randomBytes suite x = Some combined /\
    combined =
      base64url_encode iv ++ sep ++ base64url_encode (cipher_output cipher)
      ++ match getAuthTag cipher with
         | Some tag => sep ++ base64url_encode tag
         | None => ""
         end /\
    CryptoSuite.decrypt node suite combined
      = Some (text_output node (inputEncoding (CryptoSuite.options suite)) data) /\
    (is_utf8 (inputEncoding (CryptoSuite.options suite)) = true ->
     data = utf8_encode x /\
     CryptoSuite.decrypt node suite combined = Some (toWellFormed x) /\
     (represents x -> isWellFormed x = true ->
      CryptoSuite.decrypt node suite combined = Some x)).
Proof.
  intros Hsup Hrandom Hin sep iv.
  destruct (decrypt_encrypted node randomBytes suite x data Hsup Hrandom Hin)
    as (cipher & combined & Hc & He & Hcombined & Hd).
  exists cipher, combined. split_and!; try done.
  intros Hutf8. unfold update_input, text_output in *. rewrite Hutf8 in *.
  injection Hin as <-. rewrite utf8_decode_encode in Hd.
  split_and!; try done.
  intros Hx Hwf. by rewrite Hd, toWellFormed_well_formed.
Qed.

(** The toy algorithms honour the contracts. *)

Lemma xorb_cancel (k a : bool) : xorb k (xorb k a) = a.
Proof. by destruct k, a. Qed.

Lemma xor_byte_involutive (k a : ascii) : xor_byte k (xor_byte k a) = a.
Proof. destruct k, a. cbn. by rewrite !xorb_cancel. Qed.

Lemma toy_apply_involutive (key iv data : Buffer) :
  toy_apply key iv (toy_apply key iv data) = data.
Proof.
  unfold toy_apply. induction data as [|a data IH]; [done|].
  cbn [map]. by rewrite xor_byte_involutive, IH.
Qed.

Lemma toy_aead_supported : supported toy_crypto (toy_suite "toy-aead").
Proof.
  split; [done|]. split; [done|]. intros iv data _. cbn -[toy_apply toy_mac].
  eexists _, _. split; [done|]. split; [done|]. split; [done|].
  unfold setAuthTag, getAuthTag, hasSetAuthTag, hasGetAuthTag. cbn -[toy_apply toy_mac].
  rewrite bool_decide_eq_true_2 by done. by rewrite toy_apply_involutive.
Qed.

Lemma toy_stream_supported : supported toy_crypto (toy_suite "toy-stream").
Proof.
  split; [done|]. split; [done|]. intros iv data _. cbn -[toy_apply toy_mac].
  eexists _, _. split; [done|]. split; [done|]. split; [done|].
  unfold setAuthTag, getAuthTag, hasSetAuthTag, hasGetAuthTag. cbn -[toy_apply toy_mac].
  by rewrite toy_apply_involutive.
Qed.

Lemma toy_aead_authenticated : authenticated toy_crypto (toy_suite "toy-aead").
Proof.
  intros iv decipher [= <-]. split; [done|]. split; [done|].
  intros tag ciphertext data. cbn -[toy_apply toy_mac].
  case_bool_decide as Htag; [|done].
  intros [= <-]. eexists _, _. split; [done|].
  unfold getAuthTag, hasGetAuthTag. cbn -[toy_apply toy_mac].
  rewrite toy_apply_involutive, Htag. done.
Qed.

(** C2, witness: the toy authenticated cipher, sixteen zero bytes as IV. *)
Lemma decrypt_encrypt_witness :
  supported toy_crypto (toy_suite "toy-aead") /\
  (forall n, length (repeat zero n) = n) /\
  exists cipher combined,
    createCipheriv toy_crypto "toy-aead" (utf8_encode "k") (repeat zero 16)
      (utf8_encode "refresh") = Some cipher /\
    CryptoSuite.encrypt toy_crypto (repeat zero) (toy_suite "toy-aead") "refresh"
      = Some combined /\
    combined =
      base64url_encode (repeat zero 16) ++ "." ++ base64url_encode (cipher_output cipher)
      ++ match getAuthTag cipher with
         | Some tag => "." ++ base64url_encode tag
         | None => ""
         end /\
    CryptoSuite.decrypt toy_crypto (toy_suite "toy-aead") combined
      = Some (text_output toy_crypto "utf8" (utf8_encode "refresh")) /\
    (is_utf8 "utf8" = true ->
     utf8_encode "refresh" = utf8_encode "refresh" /\
     CryptoSuite.decrypt toy_crypto (toy_suite "toy-aead") combined
       = Some (toWellFormed "refresh") /\
     (represents "refresh" -> isWellFormed "refresh" = true ->
      CryptoSuite.decrypt toy_crypto (toy_suite "toy-aead") combined = Some "refresh")).
Proof.
  split; [apply toy_aead_supported|]. split; [apply repeat_length|].
  exact (decrypt_encrypt toy_crypto (repeat zero) (toy_suite "toy-aead") "refresh"
           (utf8_encode "refresh") toy_aead_supported (@repeat_length _ zero) eq_refl).
Defined.

(** C2, as stated, fails: the string that holds the one code unit U+D800,
    a surrogate without its partner, is encrypted as U+FFFD and decrypts to
    U+FFFD. *)
Lemma decrypt_encrypt_lone_surrogate :
  let x := string_of_units [55296%N] in
  supported toy_crypto (toy_suite "toy-aead") /\
  represents x /\
  CryptoSuite.encrypt toy_crypto (repeat zero) (toy_suite "toy-aead") x
    = Some "AAAAAAAAAAAAAAAAAAAAAA.hNTW.7A" /\
  CryptoSuite.decrypt toy_crypto (toy_suite "toy-aead") "AAAAAAAAAAAAAAAAAAAAAA.hNTW.7A"
    = Some (string_of_units [65533%N]) /\
  string_of_units [65533%N] <> x.
Proof.
  split; [apply toy_aead_supported|]. by vm_compute.
Qed.

(** ** Authentication of the stored refresh token *)

Lemma decrypt_inversion (node : NodeCrypto) (suite : CryptoSuite.t)
    (combined plaintext : string) :
  CryptoSuite.decrypt node suite combined = Some plaintext ->
  exists iv ciphered authTag decipher ciphertext data,
    CryptoSuite.split node suite combined = Some (iv, Some ciphered, authTag) /\
    createDecipheriv node (CryptoSuite.algorithm suite) (CryptoSuite.key suite) iv
      = Some decipher /\
    update_input node (outputEncoding (CryptoSuite.options suite)) ciphered
      = Some ciphertext /\
    decipher_output decipher (setAuthTag decipher authTag) ciphertext = Some data /\
    plaintext = text_output node (inputEncoding (CryptoSuite.options suite)) data.
Proof.
  unfold CryptoSuite.decrypt. intros H.
  destruct (CryptoSuite.split node suite combined) as [[[iv ciphered] authTag]|]; [|done].
  cbn in H.
  destruct (createDecipheriv node _ _ iv) as [decipher|] eqn:Hd; [|done].
  destruct ciphered as [ciphered|]; [|done]. cbn in H.
  destruct (update_input node _ ciphered) as [ciphertext|] eqn:Hin; [|done]. cbn in H.
  destruct (decipher_output decipher _ _) as [data|] eqn:Hout; [|done].
  cbn in H. injection H as <-. by eexists _, _, _, _, _, _.
Qed.

Lemma split_tag_segment (node : NodeCrypto) (suite : CryptoSuite.t) (combined : string)
    (iv : Buffer) (ciphered : option string) (authTag : option Buffer) :
  CryptoSuite.split node suite combined = Some (iv, ciphered, authTag) ->
  authTag =
    if truthy (string_split (separator (CryptoSuite.options suite)) combined !! 2%nat)
    then Buffer_from node (outputEncoding (CryptoSuite.options suite)) <$>
           string_split (separator (CryptoSuite.options suite)) combined !! 2%nat
    else None.
Proof.
  unfold CryptoSuite.split.
  destruct (string_split _ combined !! 0%nat); [|done].
  cbn. by intros [= _ _ <-].
Qed.

(** C3, amended: in an authenticated mode [decrypt] fails on a combined
    string without a (non-empty) tag segment, and returns a plaintext only
    when the first three segments decode to an IV, a ciphertext and a tag
    such that the plaintext is the text of bytes on which the cipher, run
    under that IV, produces that ciphertext and a tag that starts with the
    decoded one.  An alteration is not detected when it leaves the decoded
    IV, the decoded ciphertext and the decoded tag as they were: the
    altered string decrypts as the original does. *)
Theorem decrypt_authenticated (node : NodeCrypto) (suite : CryptoSuite.t) :
  authenticated node suite ->
  (forall combined,
      truthy (string_split (separator (CryptoSuite.options suite)) combined !! 2%nat)
        = false ->
      CryptoSuite.decrypt node suite combined = None) /\
  (forall combined plaintext,
      CryptoSuite.decrypt node suite combined = Some plaintext ->
      exists iv ciphered tag ciphertext data cipher full,
        CryptoSuite.split node suite combined = Some (iv, Some ciphered, Some tag) /\
        update_input node (outputEncoding (CryptoSuite.options suite)) ciphered
          = Some ciphertext /\
        plaintext = text_output node (inputEncoding (CryptoSuite.options suite)) data /\
        createCipheriv node (CryptoSuite.algorithm suite) (CryptoSuite.key suite) iv data
          = Some cipher /\
        cipher_output cipher = ciphertext /\
        getAuthTag cipher = Some full /\
        tag <> [] /\ tag `prefix_of` full) /\
  (forall combined altered iv ciphered ciphered' tag,
      CryptoSuite.split node suite combined = Some (iv, Some ciphered, tag) ->
      CryptoSuite.split node suite altered = Some (iv, Some ciphered', tag) ->
      update_input node (outputEncoding (CryptoSuite.options suite)) ciphered'
        = update_input node (outputEncoding (CryptoSuite.options suite)) ciphered ->
      CryptoSuite.decrypt node suite altered = CryptoSuite.decrypt node suite combined).
Proof.
  intros Hauth.
  assert (forall combined plaintext,
      CryptoSuite.decrypt node suite combined = Some plaintext ->
      exists iv ciphered tag ciphertext data cipher full,
        CryptoSuite.split node suite combined = Some (iv, Some ciphered, Some tag) /\
        update_input node (outputEncoding (CryptoSuite.options suite)) ciphered
          = Some ciphertext /\
        plaintext = text_output node (inputEncoding (CryptoSuite.options suite)) data /\
        createCipheriv node (CryptoSuite.algorithm suite) (CryptoSuite.key suite) iv data
          = Some cipher /\
        cipher_output cipher = ciphertext /\
        getAuthTag cipher = Some full /\
        tag <> [] /\ tag `prefix_of` full) as Hsound.
  { intros combined plaintext
      (iv & ciphered & authTag & decipher & ciphertext & data
       & Hsplit & Hd & Hin & Hout & ->)%decrypt_inversion.
    destruct (Hauth iv decipher Hd) as (Hset & Hnone & Hsome).
    unfold setAuthTag in Hout. rewrite Hset in Hout.
    destruct authTag as [tag|]; [|by rewrite Hnone in Hout].
    destruct (Hsome tag _ data Hout) as (cipher & full & Hc & Hct & Htag & Hne & Hpre).
    by exists iv, ciphered, tag, ciphertext, data, cipher, full. }
  split_and!; [|done|].
  - intros combined Hno.
    destruct (CryptoSuite.decrypt node suite combined) as [plaintext|] eqn:Hdec; [|done].
    destruct (Hsound _ _ Hdec)
      as (iv & ciphered & tag & ciphertext & data & cipher & full & Hsplit & _).
    apply split_tag_segment in Hsplit. by rewrite Hno in Hsplit.
  - intros combined altered iv ciphered ciphered' tag Hsplit Hsplit' Hin.
    unfold CryptoSuite.decrypt. rewrite Hsplit, Hsplit'. cbn [mbind option_bind].
    destruct (createDecipheriv node _ _ iv); [|done]. cbn [mbind option_bind].
    by rewrite Hin.
Qed.

(** C3, as stated, fails: the last character of the IV segment carries two
    significant bits only, so [A] and [B] there decode to the same IV and
    the altered string still decrypts. *)
Lemma tampered_iv_accepted :
  authenticated toy_crypto (toy_suite "toy-aead") /\
  CryptoSuite.encrypt toy_crypto (repeat zero) (toy_suite "toy-aead") "token"
    = Some "AAAAAAAAAAAAAAAAAAAAAA.HwQADgU.eg" /\
  one_byte_apart "AAAAAAAAAAAAAAAAAAAAAA.HwQADgU.eg"
                 "AAAAAAAAAAAAAAAAAAAAAB.HwQADgU.eg" = true /\
  CryptoSuite.decrypt toy_crypto (toy_suite "toy-aead")
    "AAAAAAAAAAAAAAAAAAAAAB.HwQADgU.eg" = Some "token".
Proof.
  split; [apply toy_aead_authenticated|]. by vm_compute.
Qed.

(** C3, witness: under the toy authenticated cipher, a string without tag
    segment is refused, an accepted string carries a genuine triple, and a
    string altered in the unused bits of its IV segment decrypts as the
    original does. *)
Lemma decrypt_authenticated_witness :
  authenticated toy_crypto (toy_suite "toy-aead") /\
  CryptoSuite.decrypt toy_crypto (toy_suite "toy-aead") "AAAAAAAAAAAAAAAAAAAAAA.HwQABQU"
    = None /\
  (exists iv ciphered tag ciphertext data cipher full,
    CryptoSuite.split toy_crypto (toy_suite "toy-aead") "AAAAAAAAAAAAAAAAAAAAAB.HwQADgU.eh"
      = Some (iv, Some ciphered, Some tag) /\
    update_input toy_crypto "base64url" ciphered = Some ciphertext /\
    "token" = text_output toy_crypto "utf8" data /\
    createCipheriv toy_crypto "toy-aead" (utf8_encode "k") iv data = Some cipher /\
    cipher_output cipher = ciphertext /\
    getAuthTag cipher = Some full /\
    tag <> [] /\ tag `prefix_of` full) /\
  CryptoSuite.decrypt toy_crypto (toy_suite "toy-aead") "AAAAAAAAAAAAAAAAAAAAAB.HwQADgU.eg"
    = CryptoSuite.decrypt toy_crypto (toy_suite "toy-aead")
        "AAAAAAAAAAAAAAAAAAAAAA.HwQADgU.eg".
Proof.
  pose proof (decrypt_authenticated toy_crypto (toy_suite "toy-aead")
                toy_aead_authenticated) as (Hnone & Hsome & Hsame).
  split; [apply toy_aead_authenticated|]. split_and!.
  - by apply Hnone.
  - by apply (Hsome "AAAAAAAAAAAAAAAAAAAAAB.HwQADgU.eh" "token").
  - by apply (Hsame "AAAAAAAAAAAAAAAAAAAAAA.HwQADgU.eg" "AAAAAAAAAAAAAAAAAAAAAB.HwQADgU.eg"
                (repeat zero 16) "HwQADgU" "HwQADgU"
                (Some (base64url_decode "eg"))).
Defined.

(** ** The three guards *)

Lemma string_property_get (k : string) (v : JSON) (s : string) :
  string_property k v = Some s <-> get_property k v = Some (JString s).
Proof.
  unfold string_property. destruct (get_property k v) as [[]|]; split; congruence.
Qed.

Lemma get_property_object (k : string) (v x : JSON) :
  get_property k v = Some x -> is_object v = true.
Proof. by destruct v. Qed.

Lemma isExpiredSession_spec (response : Response) (data : JSON) :
  isExpiredSession response data = true <->
  status response = 400%Z /\
  string_property "error" data = Some "invalid_grant" /\
  string_property "error_description" data = Some "Session not active".
Proof.
  unfold isExpiredSession, has_property, property_equals. split.
  - intros H. repeat (apply andb_prop in H as [H ?]).
    split; [by apply Z.eqb_eq|].
    split; apply string_property_get.
    + destruct (get_property "error" data) as [[]|]; try done.
      f_equal. f_equal. by apply String.eqb_eq.
    + destruct (get_property "error_description" data) as [[]|]; try done.
      f_equal. f_equal. by apply String.eqb_eq.
  - intros (Hs & He%string_property_get & Hd%string_property_get).
    rewrite (get_property_object _ _ _ He), He, Hd, Hs. done.
Qed.

Lemma isTokens_spec (value : JSON) :
  isTokens value = true <->
  exists access refresh,
    string_property "access_token" value = Some access /\
    string_property "refresh_token" value = Some refresh.
Proof.
  unfold isTokens, has_property, property_is_string. split.
  - intros H. repeat (apply andb_prop in H as [H ?]).
    destruct (get_property "access_token" value) as [[]|] eqn:Ha; try done.
    destruct (get_property "refresh_token" value) as [[]|] eqn:Hr; try done.
    eexists _, _. split; by apply string_property_get.
  - intros (a & r & Ha%string_property_get & Hr%string_property_get).
    by rewrite (get_property_object _ _ _ Ha), Ha, Hr.
Qed.

Lemma isRealmConfig_spec (value : JSON) :
  isRealmConfig value = true <->
  exists a t e,
    string_property "authorization_endpoint" value = Some a /\
    string_property "token_endpoint" value = Some t /\
    string_property "end_session_endpoint" value = Some e.
Proof.
  unfold isRealmConfig, has_property, property_is_string. split.
  - intros H. repeat (apply andb_prop in H as [H ?]).
    destruct (get_property "authorization_endpoint" value) as [[]|] eqn:Ha; try done.
    destruct (get_property "token_endpoint" value) as [[]|] eqn:Ht; try done.
    destruct (get_property "end_session_endpoint" value) as [[]|] eqn:He; try done.
    eexists _, _, _. repeat split; by apply string_property_get.
  - intros (a & t & e & Ha%string_property_get & Ht%string_property_get
              & He%string_property_get).
    by rewrite (get_property_object _ _ _ Ha), Ha, Ht, He.
Qed.

(** ** Running the program *)

Lemma bind_run {A B : Type} (m : M A) (f : A -> M B) (w : World) :
  (m ≫= f) w =
    match m w with
    | (Ok a, w') => f a w'
    | (Throw e, w') => (Throw e, w')
    end.
Proof. reflexivity. Qed.

Lemma bind_ok {A B : Type} (m : M A) (f : A -> M B) (w w' : World) (a : A) :
  m w = (Ok a, w') -> (m ≫= f) w = f a w'.
Proof. intros H. by rewrite bind_run, H. Qed.

Lemma bind_throw {A B : Type} (m : M A) (f : A -> M B) (w w' : World) (e : Error) :
  m w = (Throw e, w') -> (m ≫= f) w = (Throw e, w').
Proof. intros H. by rewrite bind_run, H. Qed.

(** The stored refresh token, as the getter [#refreshToken] reads it. *)
Lemma decrypt_empty (env : Env) :
  CryptoSuite.decrypt (node_crypto env) (RefreshTokenCookie.crypto env) "" = None.
Proof.
  unfold CryptoSuite.decrypt, CryptoSuite.split. cbn.
  by destruct (createDecipheriv _ _ _ _).
Qed.

Lemma refreshToken_absent (env : Env) (w : World) :
  cookies w !! "refresh-token" = None ->
  OIDC.refreshToken env w = (Ok None, w).
Proof.
  intros H. unfold OIDC.refreshToken, RefreshTokenCookie.value.
  rewrite (bind_ok _ _ w w None); [done|].
  unfold Cookie.value. cbn. by rewrite H.
Qed.

Lemma refreshToken_stored (env : Env) (w : World) (c : CookieRecord) (rt : string) :
  cookies w !! "refresh-token" = Some c ->
  CryptoSuite.decrypt (node_crypto env) (RefreshTokenCookie.crypto env) (cookie_value c)
    = Some rt ->
  OIDC.refreshToken env w = (Ok (Some rt), w).
Proof.
  intros Hc Hd. unfold OIDC.refreshToken, RefreshTokenCookie.value.
  rewrite (bind_ok _ _ w w (Some (cookie_value c)));
    [|unfold Cookie.value; cbn; by rewrite Hc].
  destruct (truthy (Some (cookie_value c))) eqn:Ht.
  - cbn [mbind option_bind]. by rewrite Hd.
  - unfold truthy in Ht. destruct (String.eqb_spec (cookie_value c) ""); [|done].
    rewrite e, decrypt_empty in Hd. done.
Qed.

Lemma refreshToken_invalid (env : Env) (w : World) (c : CookieRecord) :
  cookies w !! "refresh-token" = Some c -> cookie_value c <> "" ->
  CryptoSuite.decrypt (node_crypto env) (RefreshTokenCookie.crypto env) (cookie_value c)
    = None ->
  OIDC.refreshToken env w = (Ok None, with_console ErrorInvalidCookie w).
Proof.
  intros Hc Hne Hd. unfold OIDC.refreshToken, RefreshTokenCookie.value.
  rewrite (bind_ok _ _ w w (Some (cookie_value c)));
    [|unfold Cookie.value; cbn; by rewrite Hc].
  rewrite (proj2 (truthy_Some _) Hne). cbn [mbind option_bind]. by rewrite Hd.
Qed.

Lemma refreshToken_empty (env : Env) (w : World) (c : CookieRecord) :
  cookies w !! "refresh-token" = Some c -> cookie_value c = "" ->
  OIDC.refreshToken env w = (Ok (Some ""), w).
Proof.
  intros Hc He. unfold OIDC.refreshToken, RefreshTokenCookie.value.
  rewrite (bind_ok _ _ w w (Some (cookie_value c)));
    [|unfold Cookie.value; cbn; by rewrite Hc].
  by rewrite He.
Qed.

(** Reading the refresh token never throws and leaves everything but the
    console as it was. *)
Lemma refreshToken_total (env : Env) (w : World) :
  exists v w', OIDC.refreshToken env w = (Ok v, w') /\
    cookies w' = cookies w /\ cachedConfig w' = cachedConfig w /\
    sent w' = sent w /\ draws w' = draws w.
Proof.
  destruct (cookies w !! "refresh-token") as [c|] eqn:Hc.
  - destruct (String.eqb_spec (cookie_value c) "") as [He|Hne].
    + eexists _, _. by rewrite (refreshToken_empty env w c).
    + destruct (CryptoSuite.decrypt (node_crypto env) (RefreshTokenCookie.crypto env)
                  (cookie_value c)) as [rt|] eqn:Hd.
      * eexists _, _. by rewrite (refreshToken_stored env w c rt).
      * eexists _, _. by rewrite (refreshToken_invalid env w c).
  - eexists _, _. by rewrite refreshToken_absent.
Qed.

(** ** [isLoggedIn] *)

(** C4, amended: [isLoggedIn] never throws; it is true exactly when the
    refresh-token cookie is present and its value decrypts to a non-empty
    token; an undecryptable (non-empty) cookie yields [false] and one
    "invalid cookie" line on the console. *)
Theorem isLoggedIn_spec (env : Env) (w : World) :
  (exists b w', OIDC.isLoggedIn env w = (Ok b, w') /\ cookies w' = cookies w) /\
  ((OIDC.isLoggedIn env w).1 = Ok true <->
   exists c rt,
     cookies w !! "refresh-token" = Some c /\
     CryptoSuite.decrypt (node_crypto env) (RefreshTokenCookie.crypto env)
       (cookie_value c) = Some rt /\
     rt <> "") /\
  (forall c,
     cookies w !! "refresh-token" = Some c -> cookie_value c <> "" ->
     CryptoSuite.decrypt (node_crypto env) (RefreshTokenCookie.crypto env)
       (cookie_value c) = None ->
     OIDC.isLoggedIn env w = (Ok false, with_console ErrorInvalidCookie w)).
Proof.
  unfold OIDC.isLoggedIn. split; [|split].
  - destruct (refreshToken_total env w) as (v & w' & Hv & Hc & _).
    eexists _, _. by rewrite (bind_ok _ _ _ _ _ Hv).
  - destruct (cookies w !! "refresh-token") as [c|] eqn:Hc.
    + destruct (String.eqb_spec (cookie_value c) "") as [He|Hne].
      * rewrite (bind_ok _ _ _ _ _ (refreshToken_empty env w c Hc He)). cbn.
        split; [done|]. intros (c' & rt & [= <-] & Hd & _).
        by rewrite He, decrypt_empty in Hd.
      * destruct (CryptoSuite.decrypt (node_crypto env) (RefreshTokenCookie.crypto env)
                    (cookie_value c)) as [rt|] eqn:Hd.
        -- rewrite (bind_ok _ _ _ _ _ (refreshToken_stored env w c rt Hc Hd)).
           cbn [mret M_ret fst]. split.
           ++ intros [= Ht]. exists c, rt. by apply truthy_Some in Ht.
           ++ intros (c' & rt' & [= <-] & Hd' & Hrt). rewrite Hd in Hd'.
              injection Hd' as ->. by rewrite (proj2 (truthy_Some _) Hrt).
        -- rewrite (bind_ok _ _ _ _ _ (refreshToken_invalid env w c Hc Hne Hd)). cbn.
           split; [done|]. intros (c' & rt & [= <-] & Hd' & _). congruence.
    + rewrite (bind_ok _ _ _ _ _ (refreshToken_absent env w Hc)). cbn.
      split; [done|]. by intros (c' & rt & ? & _).
  - intros c Hc Hne Hd.
    by rewrite (bind_ok _ _ _ _ _ (refreshToken_invalid env w c Hc Hne Hd)).
Qed.

(** C4, as stated, fails: this cookie is present and decrypts (to the empty
    string), yet [isLoggedIn] is false. *)
Lemma isLoggedIn_empty_token :
  let env := sample_env "toy-stream" None None in
  let w := with_cookies
             (insert "refresh-token" (plain_cookie "AAAAAAAAAAAAAAAAAAAAAA."))
             empty_world in
  cookies w !! "refresh-token" = Some (plain_cookie "AAAAAAAAAAAAAAAAAAAAAA.") /\
  CryptoSuite.decrypt (node_crypto env) (RefreshTokenCookie.crypto env)
    "AAAAAAAAAAAAAAAAAAAAAA." = Some "" /\
  OIDC.isLoggedIn env w = (Ok false, w).
Proof. by vm_compute. Qed.

(** C4, witness: a refresh-token cookie whose tag does not verify. *)
Lemma isLoggedIn_spec_witness :
  let env := sample_env "toy-aead" None None in
  let w := with_cookies
             (insert "refresh-token" (plain_cookie "AAAAAAAAAAAAAAAAAAAAAA.HwQADgU.ZZ"))
             empty_world in
  OIDC.isLoggedIn env w = (Ok false, with_console ErrorInvalidCookie w).
Proof.
  intros env w.
  apply (proj2 (proj2 (isLoggedIn_spec env w))
           (plain_cookie "AAAAAAAAAAAAAAAAAAAAAA.HwQADgU.ZZ")); by vm_compute.
Defined.

(** ** [logout] *)

Lemma logout_jar (env : Env) (w : World) :
  cookies (OIDC.logout env w).2
    = delete "refresh-token" (delete "access-token" (cookies w)).
Proof. unfold OIDC.logout. run_program; done. Qed.

(** C6: whatever [logout] returns or throws, the jar it leaves is the
    initial one without the access-token and refresh-token cookies. *)
Theorem logout_deletes_tokens (env : Env) (w : World) :
  cookies (OIDC.logout env w).2
    = delete "refresh-token" (delete "access-token" (cookies w)) /\
  cookies (OIDC.logout env w).2 !! "access-token" = None /\
  cookies (OIDC.logout env w).2 !! "refresh-token" = None.
Proof.
  rewrite logout_jar. split; [done|]. split.
  - by rewrite lookup_delete_ne, lookup_delete_eq.
  - by rewrite lookup_delete_eq.
Qed.

(** ** Realm configuration and token requests *)

Lemma getRealmConfig_cached (env : Env) (w : World) (config : JSON) :
  cachedConfig w = Some config -> OIDC.getRealmConfig env w = (Ok config, w).
Proof. intros H. unfold_program. cbn. by rewrite H. Qed.

(** Retrieving the configuration touches neither the jar, the console nor
    the random sources, and sends at most the discovery request. *)
Lemma getRealmConfig_frame (env : Env) (w : World) :
  let w' := (OIDC.getRealmConfig env w).2 in
  cookies w' = cookies w /\ console w' = console w /\ draws w' = draws w /\
  (sent w' = sent w \/ sent w' = (sent w ++ [discovery_request env])%list).
Proof. unfold discovery_request. run_program; auto. Qed.

Lemma createAuthorizationCodeRequest_frame (env : Env) (code : string) (w : World) :
  let w' := (OIDC.createAuthorizationCodeRequest env code w).2 in
  cookies w' = cookies w /\ console w' = console w /\ draws w' = draws w /\
  (sent w' = sent w \/ sent w' = (sent w ++ [discovery_request env])%list).
Proof. unfold discovery_request. run_program; auto. Qed.

Lemma createRefreshTokenRequest_frame (env : Env) (rt : string) (w : World) :
  let w' := (OIDC.createRefreshTokenRequest env rt w).2 in
  cookies w' = cookies w /\ console w' = console w /\ draws w' = draws w /\
  (sent w' = sent w \/ sent w' = (sent w ++ [discovery_request env])%list).
Proof. unfold discovery_request. run_program; auto. Qed.

Lemma createAuthorizationCodeRequest_shape (env : Env) (code : string)
    (w w1 : World) (request : Request) :
  OIDC.createAuthorizationCodeRequest env code w = (Ok request, w1) ->
  exists tokenUrl,
    request = POST tokenUrl
      [("client_id", CLIENT_ID env); ("client_secret", CLIENT_SECRET env);
       ("grant_type", "authorization_code"); ("code", code);
       ("redirect_uri", BASE_URL env ++ "/login")].
Proof. intros H. run_program; eauto. Qed.

Lemma createRefreshTokenRequest_shape (env : Env) (rt : string)
    (w w1 : World) (request : Request) :
  OIDC.createRefreshTokenRequest env rt w = (Ok request, w1) ->
  exists tokenUrl,
    request = POST tokenUrl
      [("client_id", CLIENT_ID env); ("client_secret", CLIENT_SECRET env);
       ("grant_type", "refresh_token"); ("refresh_token", rt)].
Proof. intros H. run_program; eauto. Qed.

Lemma storeTokens_frame (env : Env) (data : JSON) (w : World) :
  let w' := (OIDC.storeTokens env data w).2 in
  sent w' = sent w /\ cachedConfig w' = cachedConfig w /\ console w' = console w.
Proof. run_program; auto. Qed.

(** ** [completeLoginFlow] *)

(** C5, amended: [completeLoginFlow] throws the state-mismatch error, with
    nothing changed, whenever [state] is null or differs from the stored
    CSRF cookie value (an absent cookie included); when [state] equals the
    stored value, the empty string included, it does not throw that error
    and goes on to the code exchange: the error of the request construction
    if that fails, the authorization-code request sent otherwise. *)
Theorem completeLoginFlow_state (env : Env) (w : World)
    (state : option string) (code : string) :
  let stored := cookie_value <$> cookies w !! "auth-state" in
  (state = None \/ state <> stored ->
   OIDC.completeLoginFlow env state code w = (Throw StateMismatch, w)) /\
  (state <> None -> state = stored ->
   (OIDC.completeLoginFlow env state code w).1 <> Throw StateMismatch /\
   (forall e w1,
      OIDC.createAuthorizationCodeRequest env code w = (Throw e, w1) ->
      OIDC.completeLoginFlow env state code w = (Throw e, w1)) /\
   (forall request w1,
      OIDC.createAuthorizationCodeRequest env code w = (Ok request, w1) ->
      sent (OIDC.completeLoginFlow env state code w).2 = (sent w1 ++ [request])%list /\
      exists tokenUrl,
        request = POST tokenUrl
          [("client_id", CLIENT_ID env); ("client_secret", CLIENT_SECRET env);
           ("grant_type", "authorization_code"); ("code", code);
           ("redirect_uri", BASE_URL env ++ "/login")])).
Proof.
  intros stored. split.
  - intros H. unfold OIDC.completeLoginFlow. destruct state as [s|].
    + destruct H as [|H]; [done|].
      rewrite (bind_ok _ _ w w true); [done|].
      rewrite (bind_ok _ _ w w stored); [|done].
      cbn. by rewrite bool_decide_eq_false_2.
    + by rewrite (bind_ok _ _ w w true).
  - intros Hsome Heq. destruct state as [s|]; [|done].
    assert (OIDC.completeLoginFlow env (Some s) code w =
            (request ← OIDC.createAuthorizationCodeRequest env code;
             response ← fetchM env request;
             data ← jsonM response;
             if negb (ok response) || negb (isTokens data) then
               throw (TokenExchangeFailed (status response) data)
             else OIDC.storeTokens env data;; mret "/") w) as ->.
    { unfold OIDC.completeLoginFlow.
      rewrite (bind_ok _ _ w w false); [done|].
      rewrite (bind_ok _ _ w w stored); [|done].
      cbn. by rewrite bool_decide_eq_true_2. }
    split; [|split].
    + run_program; congruence.
    + intros e w1 H. by rewrite (bind_throw _ _ _ _ _ H).
    + intros request w1 H. split.
      * rewrite (bind_ok _ _ _ _ _ H). clear H. run_program; auto.
      * by apply createAuthorizationCodeRequest_shape in H.
Qed.

(** C5, as stated, fails: with an empty CSRF cookie stored, the empty state
    is accepted and the login completes. *)
Lemma completeLoginFlow_empty_state :
  let env := sample_provider "toy-aead" {| status := 200; body := Some sample_tokens |} in
  let w := with_cookies (insert "auth-state" (plain_cookie "")) empty_world in
  cookie_value <$> cookies w !! "auth-state" = Some "" /\
  (OIDC.completeLoginFlow env (Some "") "code" w).1 = Ok "/".
Proof. by vm_compute. Qed.

(** C5, witness: a differing state, a null state and the matching one. *)
Lemma completeLoginFlow_state_witness :
  let env := sample_provider "toy-aead" {| status := 200; body := Some sample_tokens |} in
  let w := with_cookies (insert "auth-state" (plain_cookie "12345")) empty_world in
  OIDC.completeLoginFlow env (Some "54321") "code" w = (Throw StateMismatch, w) /\
  OIDC.completeLoginFlow env None "code" w = (Throw StateMismatch, w) /\
  (OIDC.completeLoginFlow env (Some "12345") "code" w).1 <> Throw StateMismatch.
Proof.
  intros env w. split; [|split].
  - apply (proj1 (completeLoginFlow_state env w (Some "54321") "code")).
    right. by vm_compute.
  - apply (proj1 (completeLoginFlow_state env w None "code")). by left.
  - apply (proj2 (completeLoginFlow_state env w (Some "12345") "code")); by vm_compute.
Defined.

(** ** [refresh] *)

Lemma refreshToken_read_stored (env : Env) (w : World) (rt : string) :
  refresh_token_stored env w rt -> OIDC.refreshToken env w = (Ok (Some rt), w).
Proof. intros (c & Hc & Hd & _). by apply (refreshToken_stored env w c). Qed.

Lemma refreshToken_read_none (env : Env) (w : World) :
  no_refresh_token env w ->
  exists v w', OIDC.refreshToken env w = (Ok v, w') /\ truthy v = false /\
    cookies w' = cookies w /\ cachedConfig w' = cachedConfig w /\
    sent w' = sent w /\ draws w' = draws w.
Proof.
  intros Hno. destruct (cookies w !! "refresh-token") as [c|] eqn:Hc.
  - destruct (String.eqb_spec (cookie_value c) "") as [He|Hne].
    + eexists _, _. by rewrite (refreshToken_empty env w c).
    + destruct (CryptoSuite.decrypt (node_crypto env) (RefreshTokenCookie.crypto env)
                  (cookie_value c)) as [rt|] eqn:Hd.
      * eexists _, _. rewrite (refreshToken_stored env w c rt) by done.
        split; [done|]. by rewrite (Hno c rt Hc Hd).
      * eexists _, _. by rewrite (refreshToken_invalid env w c).
  - eexists _, _. by rewrite refreshToken_absent.
Qed.

Lemma refresh_without_token (env : Env) (w : World) :
  no_refresh_token env w ->
  exists w', OIDC.refresh env w = (Ok tt, w') /\
    cookies w' = cookies w /\ cachedConfig w' = cachedConfig w /\
    sent w' = sent w /\ draws w' = draws w.
Proof.
  intros (v & w' & Hv & Ht & H)%refreshToken_read_none.
  exists w'. unfold OIDC.refresh. rewrite (bind_ok _ _ _ _ _ Hv), Ht. by cbn.
Qed.

(** [refresh] up to the point where it has the response in hand. *)
Lemma refresh_answered (env : Env) (w w1 : World) (rt : string)
    (request : Request) (response : Response) (data : JSON) :
  refresh_token_stored env w rt ->
  OIDC.createRefreshTokenRequest env rt w = (Ok request, w1) ->
  fetch env (sent w1) request = Some response ->
  body response = Some data ->
  OIDC.refresh env w =
    (if isExpiredSession response data then OIDC.deleteTokens
     else if negb (ok response) || negb (isTokens data) then
       throw (RefreshFailed (status response) data)
     else OIDC.storeTokens env data) (answered request response data w1).
Proof.
  intros Hrt Hreq Hfetch Hbody.
  pose proof (refreshToken_read_stored env w rt Hrt) as Hread.
  destruct Hrt as (c & Hc & Hd & Hne).
  unfold OIDC.refresh.
  rewrite (bind_ok _ _ _ _ _ Hread), (proj2 (truthy_Some _) Hne). cbn [negb].
  rewrite (bind_ok _ _ _ _ _ Hread). cbn [default].
  rewrite (bind_ok _ _ _ _ _ Hreq).
  rewrite (bind_ok _ _ w1 (with_sent request w1) response);
    [|by unfold fetchM; rewrite Hfetch].
  rewrite (bind_ok _ _ (with_sent request w1) (with_sent request w1) data);
    [|by unfold jsonM; rewrite Hbody].
  reflexivity.
Qed.


Lemma refresh_requested (env : Env) (w w1 : World) (rt : string) (request : Request) :
  refresh_token_stored env w rt ->
  OIDC.createRefreshTokenRequest env rt w = (Ok request, w1) ->
  OIDC.refresh env w =
    (response ← fetchM env request;
     data ← jsonM response;
     console_log (LogResponse response);;
     console_log (LogData data);;
     if isExpiredSession response data then OIDC.deleteTokens
     else if negb (ok response) || negb (isTokens data) then
       throw (RefreshFailed (status response) data)
     else OIDC.storeTokens env data) w1.
Proof.
  intros Hrt Hreq.
  pose proof (refreshToken_read_stored env w rt Hrt) as Hread.
  destruct Hrt as (c & Hc & Hd & Hne).
  unfold OIDC.refresh.
  rewrite (bind_ok _ _ _ _ _ Hread), (proj2 (truthy_Some _) Hne). cbn [negb].
  rewrite (bind_ok _ _ _ _ _ Hread). cbn [default].
  by rewrite (bind_ok _ _ _ _ _ Hreq).
Qed.

(** [storeTokens], write by write. *)
Lemma storeTokens_outcomes (env : Env) (data : JSON) (w : World)
    (access refresh : string) :
  string_property "access_token" data = Some access ->
  string_property "refresh_token" data = Some refresh ->
  (jwtDecode env access = None ->
   exists w', OIDC.storeTokens env data w = (Throw InvalidTokenError, w') /\
     cookies w' = cookies w) /\
  (forall jat, jwtDecode env access = Some jat -> getExpiry jat = None ->
   exists w', OIDC.storeTokens env data w = (Throw NullPayload, w') /\
     cookies w' = cookies w) /\
  (forall jat eat, jwtDecode env access = Some jat -> getExpiry jat = Some eat ->
   (jwtDecode env refresh = None ->
    exists w', OIDC.storeTokens env data w = (Throw InvalidTokenError, w') /\
      cookies w' = <["access-token" := access_record access eat]> (cookies w)) /\
   (forall jrt, jwtDecode env refresh = Some jrt ->
    (CryptoSuite.encrypt (node_crypto env) (randomBytes env (draws w))
       (RefreshTokenCookie.crypto env) refresh = None ->
     exists w', OIDC.storeTokens env data w = (Throw CipherError, w') /\
       cookies w' = <["access-token" := access_record access eat]> (cookies w)) /\
    (forall encrypted,
       CryptoSuite.encrypt (node_crypto env) (randomBytes env (draws w))
         (RefreshTokenCookie.crypto env) refresh = Some encrypted ->
       (getExpiry jrt = None ->
        exists w', OIDC.storeTokens env data w = (Throw NullPayload, w') /\
          cookies w' = <["access-token" := access_record access eat]> (cookies w)) /\
       (forall ert, getExpiry jrt = Some ert ->
        exists w', OIDC.storeTokens env data w = (Ok tt, w') /\
          cookies w' =
            <["refresh-token" := refresh_record encrypted ert]>
              (<["access-token" := access_record access eat]> (cookies w)))))).
Proof.
  intros Ha Hr. unfold_program. rewrite Ha, Hr.
  split_and!.
  - intros ->. by eexists.
  - intros jat -> Hat. cbn -[getExpiry]. rewrite Hat. by eexists.
  - intros jat eat -> Hat. cbn -[getExpiry insert CryptoSuite.encrypt]. rewrite Hat.
    cbn -[getExpiry insert CryptoSuite.encrypt].
    split_and!.
    + intros ->. by eexists.
    + intros jrt ->. cbn -[getExpiry insert CryptoSuite.encrypt]. split_and!.
      * intros ->. by eexists.
      * intros encrypted ->. cbn -[getExpiry insert CryptoSuite.encrypt]. split_and!.
        -- intros ->. by eexists.
        -- intros ert ->. by eexists.
Qed.

Lemma storeTokens_decodable (env : Env) (data : JSON) (w : World)
    (access refresh encrypted : string) (jat jrt : JwtPayload)
    (eat ert : option Date) :
  string_property "access_token" data = Some access ->
  string_property "refresh_token" data = Some refresh ->
  jwtDecode env access = Some jat -> getExpiry jat = Some eat ->
  jwtDecode env refresh = Some jrt -> getExpiry jrt = Some ert ->
  CryptoSuite.encrypt (node_crypto env) (randomBytes env (draws w))
    (RefreshTokenCookie.crypto env) refresh = Some encrypted ->
  exists w',
    OIDC.storeTokens env data w = (Ok tt, w') /\
    cookies w' =
      <["refresh-token" := refresh_record encrypted ert]>
        (<["access-token" := access_record access eat]> (cookies w)).
Proof.
  intros Ha Hr Hja Hea Hjr Her He.
  destruct (storeTokens_outcomes env data w access refresh Ha Hr) as (_ & _ & H).
  destruct (H jat eat Hja Hea) as (_ & H2). destruct (H2 jrt Hjr) as (_ & H3).
  by apply (H3 encrypted He).
Qed.

(** [refresh] when the request cannot be built. *)
Lemma refresh_unbuilt (env : Env) (w w1 : World) (rt : string) (e : Error) :
  refresh_token_stored env w rt ->
  OIDC.createRefreshTokenRequest env rt w = (Throw e, w1) ->
  OIDC.refresh env w = (Throw e, w1) /\
  cookies w1 = cookies w /\
  refresh_grants (sent w1) = refresh_grants (sent w).
Proof.
  intros Hrt Hreq.
  pose proof (refreshToken_read_stored env w rt Hrt) as Hread.
  destruct Hrt as (c & Hc & Hd & Hne).
  split.
  { unfold OIDC.refresh.
    rewrite (bind_ok _ _ _ _ _ Hread), (proj2 (truthy_Some _) Hne). cbn [negb].
    rewrite (bind_ok _ _ _ _ _ Hread). cbn [default].
    by rewrite (bind_throw _ _ _ _ _ Hreq). }
  pose proof (createRefreshTokenRequest_frame env rt w) as H.
  rewrite Hreq in H. cbn in H. destruct H as (-> & _ & _ & [-> | ->]); [done|].
  split; [done|]. unfold refresh_grants. by rewrite List.filter_app, length_app.
Qed.


Lemma sample_refresh_cookie_stored (discovery token : option Response) :
  refresh_token_stored (sample_env "toy-aead" discovery token) refreshable_world sample_jwt'.
Proof. exists (plain_cookie sample_refresh_cookie). by vm_compute. Qed.



(** ** [getAccessToken] *)

Lemma accessToken_read (w : World) :
  OIDC.accessToken w = (Ok (cookie_value <$> cookies w !! "access-token"), w).
Proof. reflexivity. Qed.

(** Once the request is built, [refresh] sends it and nothing else. *)
Lemma refresh_sent (env : Env) (w w1 : World) (rt : string) (request : Request) :
  refresh_token_stored env w rt ->
  OIDC.createRefreshTokenRequest env rt w = (Ok request, w1) ->
  sent (OIDC.refresh env w).2 = (sent w1 ++ [request])%list.
Proof.
  intros Hrt Hreq. rewrite (refresh_requested env w w1 rt request Hrt Hreq).
  clear Hrt Hreq. run_program; auto.
Qed.

Lemma refresh_grants_app (l1 l2 : list Request) :
  refresh_grants (l1 ++ l2) = (refresh_grants l1 + refresh_grants l2)%nat.
Proof. unfold refresh_grants. by rewrite List.filter_app, length_app. Qed.

(** C7, amended: a present, non-empty access-token cookie is returned as it
    is, with nothing sent or changed.  Without an access token and without
    a stored refresh token the result is absent and nothing is sent.
    Without an access token but with a stored refresh token, once the
    refresh request could be built (the configuration is cached, or one
    discovery request retrieved it), exactly that one refresh-grant request
    is sent, and a normal return yields the access-token cookie as
    [refresh] left it; when the request cannot be built (the configuration
    cannot be retrieved, or names no token endpoint), no refresh-grant
    request is sent and the error is thrown on. *)
Theorem getAccessToken_spec (env : Env) (w : World) :
  (forall c,
     cookies w !! "access-token" = Some c -> cookie_value c <> "" ->
     OIDC.getAccessToken env w = (Ok (Some (cookie_value c)), w)) /\
  (cookies w !! "access-token" = None -> no_refresh_token env w ->
   exists w', OIDC.getAccessToken env w = (Ok None, w') /\
     sent w' = sent w /\ cookies w' = cookies w) /\
  (truthy (cookie_value <$> cookies w !! "access-token") = false ->
   forall rt request w1,
     refresh_token_stored env w rt ->
     OIDC.createRefreshTokenRequest env rt w = (Ok request, w1) ->
     is_refresh_grant request = true /\
     (sent w1 = sent w \/ sent w1 = (sent w ++ [discovery_request env])%list) /\
     sent (OIDC.getAccessToken env w).2 = (sent w1 ++ [request])%list /\
     refresh_grants (sent (OIDC.getAccessToken env w).2) = S (refresh_grants (sent w)) /\
     (forall v,
        (OIDC.getAccessToken env w).1 = Ok v ->
        v = cookie_value <$> cookies (OIDC.getAccessToken env w).2 !! "access-token")) /\
  (truthy (cookie_value <$> cookies w !! "access-token") = false ->
   forall rt e w1,
     refresh_token_stored env w rt ->
     OIDC.createRefreshTokenRequest env rt w = (Throw e, w1) ->
     OIDC.getAccessToken env w = (Throw e, w1) /\
     (sent w1 = sent w \/ sent w1 = (sent w ++ [discovery_request env])%list) /\
     refresh_grants (sent w1) = refresh_grants (sent w)).
Proof.
  split_and!.
  - intros c Hc Hne. unfold OIDC.getAccessToken.
    rewrite (bind_ok _ _ _ _ _ (accessToken_read w)), Hc. cbn [fmap option_fmap option_map].
    by rewrite (proj2 (truthy_Some _) Hne).
  - intros Hc (w' & Hr & Hjar & _ & Hsent & _)%refresh_without_token.
    exists w'. unfold OIDC.getAccessToken.
    rewrite (bind_ok _ _ _ _ _ (accessToken_read w)), Hc. cbn [fmap option_fmap option_map truthy].
    rewrite (bind_ok _ _ _ _ _ Hr), accessToken_read, Hjar, Hc. done.
  - intros Hfalsy rt request w1 Hrt Hreq.
    assert (is_refresh_grant request = true) as Hgrant.
    { by destruct (createRefreshTokenRequest_shape env rt w w1 request Hreq) as [url ->]. }
    assert (sent w1 = sent w \/ sent w1 = (sent w ++ [discovery_request env])%list) as Hcfg.
    { pose proof (createRefreshTokenRequest_frame env rt w) as H.
      rewrite Hreq in H. apply H. }
    pose proof (refresh_sent env w w1 rt request Hrt Hreq) as Hsent.
    assert (OIDC.getAccessToken env w = (OIDC.refresh env;; OIDC.accessToken) w) as ->.
    { unfold OIDC.getAccessToken.
      by rewrite (bind_ok _ _ _ _ _ (accessToken_read w)), Hfalsy. }
    rewrite bind_run. destruct (OIDC.refresh env w) as [[[]|e] w'] eqn:Hrun;
      cbn [fst snd] in *; rewrite ?accessToken_read; cbn [fst snd].
    all: split; [done|]; split; [done|]; split; [done|]; split.
    all: try (rewrite Hsent, refresh_grants_app; unfold refresh_grants at 2; cbn [List.filter];
              rewrite Hgrant; cbn [length];
              destruct Hcfg as [-> | ->]; rewrite ?refresh_grants_app; cbn; lia).
    + by intros v [= <-].
    + done.
  - intros Hfalsy rt e w1 Hrt Hreq.
    destruct (refresh_unbuilt env w w1 rt e Hrt Hreq) as (Hrun & _ & Hgrants).
    split_and!; [| |done].
    2: { pose proof (createRefreshTokenRequest_frame env rt w) as H.
         rewrite Hreq in H. apply H. }
    unfold OIDC.getAccessToken.
    rewrite (bind_ok _ _ _ _ _ (accessToken_read w)), Hfalsy.
    by rewrite (bind_throw _ _ _ _ _ Hrun).
Qed.

(** C7, as stated, fails: a refresh token is stored and no access token,
    but the discovery document is unusable; [getAccessToken] throws without
    sending any refresh-grant request. *)
Lemma getAccessToken_without_config :
  let discovery := {| status := 503; body := Some (JObject [("error", JString "unavailable")]) |} in
  let env := sample_env "toy-aead" (Some discovery) None in
  cookies refreshable_world !! "access-token" = None /\
  refresh_token_stored env refreshable_world sample_jwt' /\
  (OIDC.getAccessToken env refreshable_world).1 = Throw ConfigUnavailable /\
  sent (OIDC.getAccessToken env refreshable_world).2 = [discovery_request env] /\
  refresh_grants (sent (OIDC.getAccessToken env refreshable_world).2) = 0%nat.
Proof.
  split; [done|]. split; [apply sample_refresh_cookie_stored|]. by vm_compute.
Qed.

(** C7, witness: the access token is refreshed with one refresh-grant
    request; under an unusable discovery document none is sent. *)
Lemma getAccessToken_spec_witness :
  (let env := sample_provider "toy-aead" {| status := 200; body := Some sample_tokens |} in
   refresh_grants (sent (OIDC.getAccessToken env refreshable_world).2)
     = S (refresh_grants (sent refreshable_world))) /\
  (let discovery :=
     {| status := 503; body := Some (JObject [("error", JString "unavailable")]) |} in
   let env := sample_env "toy-aead" (Some discovery) None in
   OIDC.getAccessToken env refreshable_world
     = (Throw ConfigUnavailable, with_sent (discovery_request env) refreshable_world) /\
   refresh_grants (sent (with_sent (discovery_request env) refreshable_world))
     = refresh_grants (sent refreshable_world)).
Proof.
  split; cbv zeta.
  - eapply (proj1 (proj2 (proj2 (getAccessToken_spec _ refreshable_world)))
              eq_refl sample_jwt'); first [apply sample_refresh_cookie_stored | by vm_compute].
  - pose proof (proj2 (proj2 (proj2 (getAccessToken_spec
                  (sample_env "toy-aead"
                     (Some {| status := 503;
                              body := Some (JObject [("error", JString "unavailable")]) |})
                     None)
                  refreshable_world))) eq_refl sample_jwt' ConfigUnavailable
                  _ (sample_refresh_cookie_stored _ _) eq_refl) as (H1 & _ & H2).
    by split.
Defined.

(** ** Realm configuration: validation and memoisation *)

Lemma getRealmConfig_fetched (env : Env) (w : World) (response : Response) (data : JSON) :
  cachedConfig w = None ->
  fetch env (sent w) (discovery_request env) = Some response ->
  body response = Some data ->
  OIDC.getRealmConfig env w =
    if isRealmConfig data
    then (Ok data, with_cachedConfig (Some data) (with_sent (discovery_request env) w))
    else (Throw ConfigUnavailable, with_sent (discovery_request env) w).
Proof.
  unfold discovery_request. intros Hc Hf Hb. unfold_program. cbn.
  rewrite Hc, Hf, Hb. by destruct (isRealmConfig data).
Qed.

(** A configuration that was retrieved is cached: retrieving it again
    fetches nothing. *)
Lemma getRealmConfig_memoised (env : Env) (w w' : World) (config : JSON) :
  OIDC.getRealmConfig env w = (Ok config, w') ->
  cachedConfig w' = Some config /\ OIDC.getRealmConfig env w' = (Ok config, w').
Proof.
  intros H. assert (cachedConfig w' = Some config) as Hc.
  { run_program; done. }
  split; [done|]. by apply getRealmConfig_cached.
Qed.

(** C8, at the failing input: a discovery document with the three endpoints
    and no [issuer] passes [isRealmConfig] and is memoised. *)
Lemma getRealmConfig_without_issuer :
  let data := JObject [("authorization_endpoint", JString "https://idp/auth");
                       ("token_endpoint", JString "https://idp/token");
                       ("end_session_endpoint", JString "https://idp/logout")] in
  let env := sample_env "toy-aead" (Some {| status := 200; body := Some data |}) None in
  get_property "issuer" data = None /\
  isRealmConfig data = true /\
  OIDC.getRealmConfig env empty_world =
    (Ok data, with_cachedConfig (Some data) (with_sent (discovery_request env) empty_world)).
Proof. by vm_compute. Qed.

(** ** The token pair *)

Lemma storeTokens_pair (env : Env) (data : JSON) (w w' : World) :
  OIDC.storeTokens env data w = (Ok tt, w') ->
  is_Some (cookies w' !! "access-token") /\ is_Some (cookies w' !! "refresh-token").
Proof.
  intros H. run_program. split.
  - rewrite lookup_insert_ne by done. rewrite lookup_insert_eq. eauto.
  - rewrite lookup_insert_eq. eauto.
Qed.

Lemma deleteTokens_pair (w : World) :
  exists w', OIDC.deleteTokens w = (Ok tt, w') /\
    cookies w' !! "access-token" = None /\ cookies w' !! "refresh-token" = None.
Proof.
  eexists. split; [reflexivity|]. cbn -[delete lookup]. split.
  - by rewrite lookup_delete_ne, lookup_delete_eq.
  - by rewrite lookup_delete_eq.
Qed.

(** One step of a run that is known to return normally. *)
Tactic Notation "step" hyp(H) "as" ident(x) ident(w) ident(E) :=
  rewrite bind_run in H;
  match type of H with
  | context [match ?m ?w0 with _ => _ end] =>
      destruct (m w0) as [[x|?] w] eqn:E; [|discriminate H]
  end.

Lemma refresh_pair (env : Env) (w w' : World) :
  token_pair w -> OIDC.refresh env w = (Ok tt, w') -> token_pair w'.
Proof.
  intros Hinv H. unfold OIDC.refresh in H.
  destruct (refreshToken_total env w) as (v & w0 & Hv & Hjar & _).
  rewrite (bind_ok _ _ _ _ _ Hv) in H.
  destruct (truthy v); cbn [negb] in H;
    [|injection H as <-; unfold token_pair; by rewrite Hjar].
  destruct (refreshToken_total env w0) as (v1 & w1 & Hv1 & Hjar1 & _).
  rewrite (bind_ok _ _ _ _ _ Hv1) in H.
  step H as request w2 Hreq. step H as response w3 Hfetch. step H as data w4 Hbody.
  rewrite (bind_ok _ _ _ (with_console (LogResponse response) w4) tt) in H by done.
  rewrite (bind_ok _ _ _
             (with_console (LogData data) (with_console (LogResponse response) w4)) tt)
    in H by done.
  destruct (isExpiredSession _ _).
  - destruct (deleteTokens_pair
                (with_console (LogData data) (with_console (LogResponse response) w4)))
      as (w5 & Hdel & Hat & _).
    rewrite Hdel in H. injection H as <-. unfold token_pair. rewrite Hat. by intros [? ?].
  - destruct (negb _ || negb _); [done|].
    apply storeTokens_pair in H as [_ H]. by intros _.
Qed.

Lemma startLoginFlow_jar (env : Env) (w : World) :
  exists record,
    cookies (OIDC.startLoginFlow env w).2 = <["auth-state" := record]> (cookies w).
Proof. unfold OIDC.startLoginFlow. run_program; eauto. Qed.

Lemma completeLoginFlow_stores (env : Env) (w w' : World) (state : option string)
    (code path : string) :
  OIDC.completeLoginFlow env state code w = (Ok path, w') ->
  exists request w1 response data,
    fetch env (sent w1) request = Some response /\
    body response = Some data /\
    OIDC.storeTokens env data (with_sent request w1) = (Ok tt, w').
Proof.
  unfold OIDC.completeLoginFlow. destruct state as [s|];
    [|by rewrite (bind_ok _ _ w w true)].
  rewrite (bind_ok _ _ w w
             (negb (bool_decide (Some s = cookie_value <$> cookies w !! "auth-state"))));
    [|done].
  destruct (negb _); [done|].
  intros H. step H as request w1 Hreq. unfold fetchM at 1 in H. rewrite bind_run in H.
  destruct (fetch env (sent w1) request) as [response|] eqn:Hfetch; [|done].
  unfold jsonM, or_throw in H. rewrite bind_run in H.
  destruct (body response) as [data|] eqn:Hbody; [|done]. cbn [mret M_ret] in H.
  destruct (negb (ok response) || negb (isTokens data)); [done|].
  step H as u w2 Hstore. destruct u. injection H as _ <-.
  by exists request, w1, response, data.
Qed.

(** Every operation that returns normally keeps the token pair together;
    [startLoginFlow] and [logout] do so however they end. *)
Lemma operations_keep_token_pair (env : Env) (w : World) :
  token_pair w ->
  token_pair (OIDC.startLoginFlow env w).2 /\
  token_pair (OIDC.logout env w).2 /\
  (forall state code path w',
     OIDC.completeLoginFlow env state code w = (Ok path, w') -> token_pair w') /\
  (forall w', OIDC.refresh env w = (Ok tt, w') -> token_pair w') /\
  (forall v w', OIDC.getAccessToken env w = (Ok v, w') -> token_pair w').
Proof.
  intros Hinv. split; [|split; [|split; [|split]]].
  - unfold token_pair. destruct (startLoginFlow_jar env w) as [record ->].
    by rewrite !lookup_insert_ne.
  - unfold token_pair. rewrite logout_jar.
    rewrite lookup_delete_ne, lookup_delete_eq by done. by intros [? ?].
  - intros state code path w'
      (request & w1 & response & data & _ & _ & [_ H]%storeTokens_pair)%completeLoginFlow_stores.
    by intros _.
  - intros w'. by apply refresh_pair.
  - intros v w' H. unfold OIDC.getAccessToken in H.
    rewrite (bind_ok _ _ _ _ _ (accessToken_read w)) in H.
    destruct (truthy _); [by injection H as _ <-|].
    step H as u w1 Hrefresh. destruct u. rewrite accessToken_read in H.
    injection H as _ <-. by apply (refresh_pair env w).
Qed.

(** C9, at the failing input: the provider answers the code exchange with a
    JWT access token and an opaque refresh token; [completeLoginFlow] throws
    after it has stored the access token, and leaves the access-token cookie
    without a refresh-token cookie. *)
Lemma completeLoginFlow_opaque_refresh_token :
  let data := JObject [("access_token", JString sample_jwt);
                       ("refresh_token", JString "opaque-refresh-token")] in
  let env := sample_provider "toy-aead" {| status := 200; body := Some data |} in
  let w := with_cookies (insert "auth-state" (plain_cookie "12345")) empty_world in
  cookies w !! "access-token" = None /\
  cookies w !! "refresh-token" = None /\
  (OIDC.completeLoginFlow env (Some "12345") "code" w).1 = Throw InvalidTokenError /\
  cookie_value <$> cookies (OIDC.completeLoginFlow env (Some "12345") "code" w).2
                     !! "access-token" = Some sample_jwt /\
  cookies (OIDC.completeLoginFlow env (Some "12345") "code" w).2 !! "refresh-token" = None.
Proof. by vm_compute. Qed.

(** ** Tokens are decoded as JWTs *)

Lemma storeTokens_ok (env : Env) (data : JSON) (w w' : World) :
  OIDC.storeTokens env data w = (Ok tt, w') ->
  exists access refresh,
    string_property "access_token" data = Some access /\
    string_property "refresh_token" data = Some refresh /\
    is_Some (jwtDecode env access) /\ is_Some (jwtDecode env refresh).
Proof. intros H. run_program. eauto 10. Qed.

Lemma getExpirations_access (env : Env) (w : World) (c : CookieRecord) :
  cookies w !! "access-token" = Some c -> cookie_value c <> "" ->
  jwtDecode env (cookie_value c) = None ->
  OIDC.getExpirations env w = (Throw InvalidTokenError, w).
Proof.
  intros Hc Hne Hj. unfold OIDC.getExpirations.
  rewrite (bind_ok _ _ _ _ _ (accessToken_read w)), Hc.
  cbn [fmap option_fmap option_map]. apply bind_throw.
  unfold OIDC.decode_if_present. rewrite (proj2 (truthy_Some _) Hne).
  apply bind_throw. cbn [mbind option_bind]. by rewrite Hj.
Qed.

Lemma getExpirations_refresh (env : Env) (w : World) (rt : string) :
  refresh_token_stored env w rt -> jwtDecode env rt = None ->
  (OIDC.getExpirations env w).1 = Throw InvalidTokenError.
Proof.
  intros Hrt Hj. pose proof (refreshToken_read_stored env w rt Hrt) as Hread.
  destruct Hrt as (c & Hc & Hd & Hne).
  unfold OIDC.getExpirations.
  rewrite (bind_ok _ _ _ _ _ (accessToken_read w)).
  rewrite bind_run.
  destruct (OIDC.decode_if_present env (cookie_value <$> cookies w !! "access-token") w)
    as [[jwt|e] w0] eqn:Hdec.
  - assert (w0 = w) as ->.
    { unfold OIDC.decode_if_present in Hdec. run_program; done. }
    rewrite (bind_ok _ _ _ _ _ Hread).
    rewrite (bind_throw _ _ w w InvalidTokenError); [done|].
    unfold OIDC.decode_if_present. rewrite (proj2 (truthy_Some _) Hne).
    apply bind_throw. cbn [mbind option_bind]. by rewrite Hj.
  - unfold OIDC.decode_if_present in Hdec. run_program; done.
Qed.

Lemma completeLoginFlow_ok (env : Env) (w w' : World) (state : option string)
    (code path : string) :
  OIDC.completeLoginFlow env state code w = (Ok path, w') ->
  exists trace request response data access refresh,
    fetch env trace request = Some response /\
    body response = Some data /\
    string_property "access_token" data = Some access /\
    string_property "refresh_token" data = Some refresh /\
    is_Some (jwtDecode env access) /\ is_Some (jwtDecode env refresh).
Proof.
  intros (request & w1 & response & data & Hfetch & Hbody & Hstore)%completeLoginFlow_stores.
  destruct (storeTokens_ok env data _ _ Hstore) as (a & r & Ha & Hr & Hja & Hjr).
  by exists (sent w1), request, response, data, a, r.
Qed.

(** C10, amended: the two setters throw for a token that does not decode
    as a JWT and store nothing; [completeLoginFlow] returns normally only
    for a token response whose two tokens decode, and so does [refresh]
    when it stores a response; [getExpirations] throws when the stored
    access token is non-empty and does not decode, or when the stored
    refresh token does not decode. *)
Theorem tokens_decoded_as_jwt (env : Env) (w : World) :
  (forall token overrides,
     jwtDecode env token = None ->
     AccessTokenCookie.set env token overrides w = (Throw InvalidTokenError, w) /\
     RefreshTokenCookie.set env token overrides w = (Throw InvalidTokenError, w)) /\
  (forall state code path w',
     OIDC.completeLoginFlow env state code w = (Ok path, w') ->
     exists trace request response data access refresh,
       fetch env trace request = Some response /\
       body response = Some data /\
       string_property "access_token" data = Some access /\
       string_property "refresh_token" data = Some refresh /\
       is_Some (jwtDecode env access) /\ is_Some (jwtDecode env refresh)) /\
  (forall rt request w1 response data w',
     refresh_token_stored env w rt ->
     OIDC.createRefreshTokenRequest env rt w = (Ok request, w1) ->
     fetch env (sent w1) request = Some response ->
     body response = Some data ->
     isExpiredSession response data = false ->
     OIDC.refresh env w = (Ok tt, w') ->
     exists access refresh,
       string_property "access_token" data = Some access /\
       string_property "refresh_token" data = Some refresh /\
       is_Some (jwtDecode env access) /\ is_Some (jwtDecode env refresh)) /\
  (forall c,
     cookies w !! "access-token" = Some c -> cookie_value c <> "" ->
     jwtDecode env (cookie_value c) = None ->
     OIDC.getExpirations env w = (Throw InvalidTokenError, w)) /\
  (forall rt,
     refresh_token_stored env w rt -> jwtDecode env rt = None ->
     (OIDC.getExpirations env w).1 = Throw InvalidTokenError).
Proof.
  split; [|split; [|split; [|split]]].
  - intros token overrides Hj. split.
    + unfold AccessTokenCookie.set. apply bind_throw. by rewrite Hj.
    + unfold RefreshTokenCookie.set. apply bind_throw. by rewrite Hj.
  - intros state code path w'. apply completeLoginFlow_ok.
  - intros rt request w1 response data w' Hrt Hreq Hfetch Hbody Hexp.
    rewrite (refresh_answered env w w1 rt request response data Hrt Hreq Hfetch Hbody), Hexp.
    destruct (negb (ok response) || negb (isTokens data)); [done|].
    apply storeTokens_ok.
  - apply getExpirations_access.
  - apply getExpirations_refresh.
Qed.

(** C10, as stated, fails: an empty access-token cookie is stored, the
    empty string does not decode as a JWT, and [getExpirations] returns. *)
Lemma getExpirations_empty_cookie :
  let env := sample_env "toy-aead" None None in
  let w := with_cookies (insert "access-token" (plain_cookie "")) empty_world in
  cookie_value <$> cookies w !! "access-token" = Some "" /\
  jwtDecode env "" = None /\
  OIDC.getExpirations env w =
    (Ok {| exp_accessToken := None; exp_refreshToken := None |}, w).
Proof. by vm_compute. Qed.

(** C10, witness: opaque tokens at the setters and in the jar. *)
Lemma tokens_decoded_as_jwt_witness :
  let env := sample_env "toy-aead" None None in
  let w := with_cookies (insert "access-token" (plain_cookie "opaque-access-token"))
             empty_world in
  AccessTokenCookie.set env "opaque-access-token" no_options w
    = (Throw InvalidTokenError, w) /\
  RefreshTokenCookie.set env "opaque-refresh-token" no_options w
    = (Throw InvalidTokenError, w) /\
  OIDC.getExpirations env w = (Throw InvalidTokenError, w).
Proof.
  intros env w. split; [|split].
  - by apply (proj1 (tokens_decoded_as_jwt env w) "opaque-access-token" no_options).
  - by apply (proj1 (tokens_decoded_as_jwt env w) "opaque-refresh-token" no_options).
  - apply (proj1 (proj2 (proj2 (proj2 (tokens_decoded_as_jwt env w))))
             (plain_cookie "opaque-access-token")); by vm_compute.
Defined.

(** * Further properties *)

(** ** Segments of a combined string *)

Lemma string_drop_length (n : nat) (s : string) :
  String.length (string_drop n s) = (String.length s - n)%nat.
Proof.
  revert s. induction n as [|n IH]; intros [|c s]; cbn; try done.
Qed.

Lemma prefix_length (p s : string) :
  String.prefix p s = true -> (String.length p <= String.length s)%nat.
Proof.
  revert s. induction p as [|c p IH]; intros [|d s]; cbn; try done; [lia|].
  destruct (ascii_dec c d); [|done]. intros H%IH. lia.
Qed.

(** What follows a separator is shorter than the text by at least the
    separator. *)
Lemma split_first_length (sep s p r : string) :
  split_first sep s = (p, Some r) ->
  (String.length r + String.length sep <= String.length s)%nat.
Proof.
  revert p. induction s as [|c s IH]; intros p; rewrite split_first_unfold.
  - destruct (String.prefix sep "") eqn:Hp; [|done].
    intros [= _ <-]. apply prefix_length in Hp. rewrite string_drop_length. lia.
  - destruct (String.prefix sep (String c s)) eqn:Hp.
    + intros [= _ <-]. apply prefix_length in Hp. rewrite string_drop_length. lia.
    + destruct (split_first sep s) as [p' [r'|]] eqn:Hs; [|done].
      intros [= _ <-]. specialize (IH p' eq_refl). cbn. lia.
Qed.

(** With fuel beyond the length of the text, the pieces do not depend on
    the fuel. *)
Lemma split_pieces_fuel (d : ascii) (sep' : string) (n m : nat) :
  forall s : string,
    (String.length s < n)%nat -> (String.length s < m)%nat ->
    split_pieces n (String d sep') s = split_pieces m (String d sep') s.
Proof.
  revert m. induction n as [|n IH]; intros m s Hn Hm; [lia|].
  destruct m as [|m]; [lia|]. cbn [split_pieces].
  destruct (split_first (String d sep') s) as [p [r|]] eqn:Hs; [|done].
  apply split_first_length in Hs. cbn in Hs.
  f_equal. apply IH; lia.
Qed.

Lemma string_split_cons (c : ascii) (sep p rest : string) (k : nat) :
  find_index c sep = Some k -> find_index c p = None ->
  string_split sep (p ++ sep ++ rest) = p :: string_split sep rest.
Proof.
  intros Hk Hp. destruct (separator_nonempty c sep k Hk) as (d & sep' & ->).
  unfold string_split.
  remember (split_pieces (S (String.length rest)) (String d sep') rest) as pieces.
  cbn [split_pieces]. rewrite (split_first_app c _ k Hk p rest Hp).
  subst pieces. f_equal. apply split_pieces_fuel; [|lia].
  rewrite !length_append. cbn. lia.
Qed.

Lemma string_split_free (c : ascii) (sep s : string) (k : nat) :
  find_index c sep = Some k -> find_index c s = None -> string_split sep s = [s].
Proof.
  intros Hk Hs. destruct (separator_nonempty c sep k Hk) as (d & sep' & ->).
  unfold string_split. cbn [split_pieces].
  by rewrite (split_first_free c _ k Hk s Hs).
Qed.

(** [encrypt] then [decrypt], for a supported configuration that reads
    its input as utf8. *)
Lemma encrypt_then_decrypt (node : NodeCrypto) (randomBytes : nat -> Buffer)
    (suite : CryptoSuite.t) (x : string) :
  supported node suite -> is_utf8 (inputEncoding (CryptoSuite.options suite)) = true ->
  (forall n, length (randomBytes n) = n) ->
  exists combined,
    CryptoSuite.encrypt node randomBytes suite x = Some combined /\
    combined <> "" /\
    CryptoSuite.decrypt node suite combined = Some (toWellFormed x).
Proof.
  intros Hsup Hutf8 Hrandom.
  assert (update_input node (inputEncoding (CryptoSuite.options suite)) x
          = Some (utf8_encode x)) as Hin.
  { unfold update_input. by rewrite Hutf8. }
  destruct (decrypt_encrypted node randomBytes suite x _ Hsup Hrandom Hin)
    as (cipher & combined & _ & Henc & Hcombined & Hdec).
  exists combined. split; [done|]. split.
  - destruct Hsup as (_ & Hsep & _).
    destruct (separator_safe_witness _ Hsep) as (c & k & Hk & _).
    destruct (separator_nonempty c _ k Hk) as (d & sep' & Hs).
    rewrite Hcombined, Hs. by destruct (base64url_encode _).
  - rewrite Hdec. unfold text_output. by rewrite Hutf8, utf8_decode_encode.
Qed.

Lemma default_suite_utf8 (env : Env) :
  is_utf8 (inputEncoding (CryptoSuite.options (RefreshTokenCookie.crypto env))) = true.
Proof. reflexivity. Qed.

(** X1: under the base64url output encoding and a safe separator,
    [#split] undoes [#combine]: it returns the IV, the ciphertext text and
    the tag; an absent tag stays absent, and an empty tag is not recovered
    (its segment is empty, hence falsy). *)
Theorem split_combine (node : NodeCrypto) (suite : CryptoSuite.t)
    (iv ciphertext : Buffer) (authTag : option Buffer) :
  outputEncoding (CryptoSuite.options suite) = "base64url" ->
  separator_safe (separator (CryptoSuite.options suite)) = true ->
  CryptoSuite.split node suite
    (CryptoSuite.combine node suite iv (base64url_encode ciphertext) authTag)
  = Some (iv, Some (base64url_encode ciphertext),
          if bool_decide (authTag = Some []) then None else authTag).
Proof.
  intros Henc Hsep. destruct authTag as [[|b tag]|].
  - destruct (separator_safe_witness _ Hsep) as (c & k & Hk & Hc).
    unfold CryptoSuite.split, CryptoSuite.combine. rewrite Henc.
    change (Buffer_toString node "base64url") with base64url_encode.
    change (Buffer_from node "base64url") with base64url_decode.
    cbn [app array_join].
    rewrite (string_split_three c _ _ _ _ k Hk) by (by apply find_index_base64url).
    cbn [lookup list_lookup fmap option_fmap option_map mbind option_bind].
    by rewrite base64url_decode_encode.
  - by rewrite split_combined_tag.
  - by rewrite split_combined_plain.
Qed.

(** X1, witness: an empty tag is dropped. *)
Lemma split_combine_witness :
  separator_safe "." = true /\
  CryptoSuite.split toy_crypto (toy_suite "toy-aead")
    (CryptoSuite.combine toy_crypto (toy_suite "toy-aead") (repeat zero 16)
       (base64url_encode (utf8_encode "ct")) (Some []))
  = Some (repeat zero 16, Some (base64url_encode (utf8_encode "ct")), None).
Proof.
  split; [done|].
  exact (split_combine toy_crypto (toy_suite "toy-aead") (repeat zero 16) (utf8_encode "ct")
           (Some []) eq_refl eq_refl).
Defined.

(** Under another output encoding the segments need not be free of the
    separator: with the sample codec, which writes a buffer out byte by
    byte, an IV that holds the separator is not recovered. *)
Example split_combine_other_encoding :
  let suite := CryptoSuite.new "toy-aead" [] None (Some "latin1") None None in
  separator_safe (separator (CryptoSuite.options suite)) = true /\
  CryptoSuite.split toy_crypto suite
    (CryptoSuite.combine toy_crypto suite ["."%char] (base64url_encode []) None)
  = Some ([], Some "", None).
Proof. by vm_compute. Qed.

Lemma split_segments (node : NodeCrypto) (suite : CryptoSuite.t) (c : ascii) (k : nat)
    (p0 p1 p2 : string) (rest : list string) :
  string_split (separator (CryptoSuite.options suite))
    (p0 ++ separator (CryptoSuite.options suite) ++ p1
     ++ separator (CryptoSuite.options suite) ++ p2) = [p0; p1; p2] ->
  forall combined,
    string_split (separator (CryptoSuite.options suite)) combined = p0 :: p1 :: p2 :: rest ->
    CryptoSuite.split node suite combined =
    CryptoSuite.split node suite
      (p0 ++ separator (CryptoSuite.options suite) ++ p1
       ++ separator (CryptoSuite.options suite) ++ p2).
Proof.
  intros H3 combined H. unfold CryptoSuite.split. by rewrite H3, H.
Qed.

(** X2: [decrypt] reads the first three segments only: whatever follows a
    further separator after the tag segment is ignored. *)
Theorem decrypt_ignores_trailing_segments (node : NodeCrypto) (suite : CryptoSuite.t)
    (c : ascii) (k : nat) (iv ciphered tag trailing : string) :
  let sep := separator (CryptoSuite.options suite) in
  find_index c sep = Some k ->
  find_index c iv = None -> find_index c ciphered = None -> find_index c tag = None ->
  CryptoSuite.decrypt node suite (iv ++ sep ++ ciphered ++ sep ++ tag ++ sep ++ trailing)
  = CryptoSuite.decrypt node suite (iv ++ sep ++ ciphered ++ sep ++ tag).
Proof.
  intros sep Hk Hiv Hct Htag. unfold CryptoSuite.decrypt.
  rewrite (split_segments node suite c k iv ciphered tag (string_split sep trailing));
    [done| |].
  - by apply (string_split_three c _ _ _ _ k).
  - fold sep. by rewrite !(string_split_cons c sep _ _ k).
Qed.

(** X2, witness: a cookie value with two more segments. *)
Lemma decrypt_ignores_trailing_segments_witness :
  CryptoSuite.decrypt toy_crypto (toy_suite "toy-aead")
    ("AAAAAAAAAAAAAAAAAAAAAA" ++ "." ++ "HwQADgU" ++ "." ++ "eg" ++ "." ++ "anything.else")
  = CryptoSuite.decrypt toy_crypto (toy_suite "toy-aead")
      ("AAAAAAAAAAAAAAAAAAAAAA" ++ "." ++ "HwQADgU" ++ "." ++ "eg").
Proof.
  exact (decrypt_ignores_trailing_segments toy_crypto (toy_suite "toy-aead") "." 0
           "AAAAAAAAAAAAAAAAAAAAAA" "HwQADgU" "eg" "anything.else"
           eq_refl eq_refl eq_refl eq_refl).
Defined.

(** X3: a string in which the separator cannot occur (it lacks one of the
    separator's characters) never decrypts, whatever the cipher: there is
    no ciphertext segment to hand to the decipher. *)
Theorem decrypt_without_separator (node : NodeCrypto) (suite : CryptoSuite.t)
    (c : ascii) (k : nat) (data : string) :
  find_index c (separator (CryptoSuite.options suite)) = Some k ->
  find_index c data = None ->
  CryptoSuite.decrypt node suite data = None.
Proof.
  intros Hk Hdata. unfold CryptoSuite.decrypt, CryptoSuite.split.
  rewrite (string_split_free c _ data k Hk Hdata). cbn.
  by destruct (createDecipheriv _ _ _ _).
Qed.

(** X3, witness: a lone IV segment. *)
Lemma decrypt_without_separator_witness :
  CryptoSuite.decrypt toy_crypto (toy_suite "toy-stream") "AAAAAAAAAAAAAAAAAAAAAA" = None.
Proof.
  exact (decrypt_without_separator toy_crypto (toy_suite "toy-stream") "." 0
           "AAAAAAAAAAAAAAAAAAAAAA" eq_refl eq_refl).
Defined.

(** ** Reasoning about runs *)

Section Runs.
Context (R : World -> World -> Prop) `{!PreOrder R}.

Lemma run_spec_steps {A : Type} (Q : A -> Prop) (m : M A) :
  run_spec R Q m -> steps R m.
Proof. intros H w. apply H. Qed.

Lemma steps_run_spec {A : Type} (m : M A) :
  steps R m -> run_spec R (fun _ => True) m.
Proof. intros H w. split; [apply H|done]. Qed.

Lemma run_spec_ret {A : Type} (Q : A -> Prop) (a : A) :
  Q a -> run_spec R Q (mret a).
Proof. intros H w. split; [done|]. by intros ? [= <-]. Qed.

Lemma run_spec_throw {A : Type} (Q : A -> Prop) (e : Error) :
  run_spec R Q (throw e).
Proof. intros w. split; [done|]. by intros ?. Qed.

Lemma run_spec_bind {A B : Type} (P : A -> Prop) (Q : B -> Prop)
    (m : M A) (f : A -> M B) :
  run_spec R P m -> (forall a, P a -> run_spec R Q (f a)) ->
  run_spec R Q (m ≫= f).
Proof.
  intros Hm Hf w. rewrite bind_run. destruct (Hm w) as [Hstep Hval].
  destruct (m w) as [[a|e] w1]; cbn [fst snd] in *.
  - destruct (Hf a (Hval a eq_refl) w1) as [Hstep' Hval'].
    split; [by etransitivity|done].
  - split; [done|]. by intros ?.
Qed.

Lemma run_spec_weaken {A : Type} (P Q : A -> Prop) (m : M A) :
  run_spec R P m -> (forall a, P a -> Q a) -> run_spec R Q m.
Proof. intros Hm HPQ w. destruct (Hm w) as [? Hval]. split; [done|]. eauto. Qed.

Lemma steps_ret {A : Type} (a : A) : steps R (mret a).
Proof. by intros w. Qed.

Lemma steps_throw {A : Type} (e : Error) : steps R (throw (A := A) e).
Proof. by intros w. Qed.

Lemma steps_bind {A B : Type} (m : M A) (f : A -> M B) :
  steps R m -> (forall a, steps R (f a)) -> steps R (m ≫= f).
Proof.
  intros Hm Hf. apply (run_spec_steps (fun _ => True)).
  apply (run_spec_bind (fun _ => True)); [by apply steps_run_spec|].
  intros a _. by apply steps_run_spec.
Qed.

Lemma steps_bind_spec {A B : Type} (P : A -> Prop) (m : M A) (f : A -> M B) :
  run_spec R P m -> (forall a, P a -> steps R (f a)) -> steps R (m ≫= f).
Proof.
  intros Hm Hf. apply (run_spec_steps (fun _ => True)).
  apply (run_spec_bind P); [done|]. intros a Ha. by apply steps_run_spec, Hf.
Qed.

Lemma steps_fmap {A B : Type} (g : A -> B) (m : M A) :
  steps R m -> steps R (g <$> m).
Proof.
  intros Hm w. specialize (Hm w). unfold fmap, M_fmap.
  by destruct (m w) as [[a|e] w1].
Qed.

Lemma steps_or_throw {A : Type} (e : Error) (o : option A) : steps R (or_throw e o).
Proof. intros w. by destruct o. Qed.

Lemma steps_get_world : steps R get_world.
Proof. by intros w. Qed.

Lemma steps_modify (f : World -> World) :
  (forall w, R w (f w)) -> steps R (modify f).
Proof. intros H w. apply H. Qed.

End Runs.

Create HintDb steps.

(** Unfold a composed run into its steps. *)
Ltac steps_go :=
  repeat first
    [ apply steps_ret; solve [typeclasses eauto]
    | apply steps_throw; solve [typeclasses eauto]
    | apply steps_or_throw; solve [typeclasses eauto]
    | apply steps_get_world; solve [typeclasses eauto]
    | solve [eauto with steps]
    | apply steps_fmap
    | eapply steps_bind_spec; [typeclasses eauto|solve [eauto with steps]|intros ? ?]
    | apply steps_bind; [typeclasses eauto| |intros ?]
    | match goal with
      | |- steps _ (if ?b then _ else _) => destruct b
      | |- steps _ (match ?x with _ => _ end) => destruct x
      end ].

(** ** What a run may do to the jar *)

#[local] Instance jar_step_preorder : PreOrder jar_step.
Proof.
  split.
  - intros w name r H. by left.
  - intros w1 w2 w3 H12 H23 name r H.
    destruct (H23 name r H) as [H2|]; [|by right]. by apply H12.
Qed.

Lemma jar_step_same (w w' : World) : cookies w' = cookies w -> jar_step w w'.
Proof. intros H name r. rewrite H. by left. Qed.

Lemma jar_step_delete (name : string) (w : World) :
  jar_step w (with_cookies (delete name) w).
Proof.
  intros n r. cbn -[delete]. destruct (decide (name = n)) as [->|Hne].
  - by rewrite lookup_delete_eq.
  - rewrite lookup_delete_ne by done. by left.
Qed.

Lemma jar_step_insert (name : string) (record : CookieRecord) (w : World) :
  base_attributes record -> jar_step w (with_cookies (insert name record) w).
Proof.
  intros Hr n r. cbn -[insert]. destruct (decide (name = n)) as [->|Hne].
  - rewrite lookup_insert_eq. intros [= <-]. by right.
  - rewrite lookup_insert_ne by done. by left.
Qed.

Lemma slot_attributes (name value : string) (overrides : CookieSerializeOptions) :
  expiry_only overrides ->
  base_attributes
    {| cookie_value := value;
       cookie_options :=
         spread (Cookie.options (BaseCookie.new name no_options)) overrides |}.
Proof. intros (H1 & H2 & H3 & H4). unfold base_attributes. cbn. by rewrite H1, H2, H3, H4. Qed.

Lemma expiry_only_expiry_options (expires : option Date)
    (overrides : CookieSerializeOptions) :
  expiry_only overrides -> expiry_only (expiry_options expires overrides).
Proof. intros (H1 & H2 & H3 & H4). unfold expiry_only. cbn. by rewrite H1, H2, H3, H4. Qed.

Lemma expiry_only_no_options : expiry_only no_options.
Proof. done. Qed.

Lemma jar_step_slot_set (name value : string) (overrides : CookieSerializeOptions) :
  expiry_only overrides ->
  steps jar_step (Cookie.set (BaseCookie.new name no_options) value overrides).
Proof. intros H w. apply jar_step_insert. by apply slot_attributes. Qed.

Lemma jar_step_slot_delete (slot : Cookie.t) : steps jar_step (Cookie.delete slot).
Proof. intros w. apply jar_step_delete. Qed.

Lemma jar_step_slot_value (slot : Cookie.t) : steps jar_step (Cookie.value slot).
Proof. by intros w. Qed.

Lemma jar_step_console (e : LogEntry) : steps jar_step (console_log e).
Proof. intros w. by apply jar_step_same. Qed.

Lemma jar_step_draw : steps jar_step (modify with_draw).
Proof. intros w. by apply jar_step_same. Qed.

Lemma jar_step_config (c : option JSON) : steps jar_step (modify (with_cachedConfig c)).
Proof. intros w. by apply jar_step_same. Qed.

Lemma jar_step_fetch (env : Env) (r : Request) : steps jar_step (fetchM env r).
Proof. intros w. unfold fetchM. destruct (fetch env _ _); by apply jar_step_same. Qed.

Lemma jar_step_json (r : Response) : steps jar_step (jsonM r).
Proof. apply steps_or_throw. apply _. Qed.

#[local] Hint Resolve jar_step_slot_delete jar_step_slot_value jar_step_console
  jar_step_draw jar_step_config jar_step_fetch jar_step_json
  expiry_only_no_options expiry_only_expiry_options : steps.

Lemma jar_step_access_set (env : Env) (token : string) (overrides : CookieSerializeOptions) :
  expiry_only overrides -> steps jar_step (AccessTokenCookie.set env token overrides).
Proof.
  intros H. unfold AccessTokenCookie.set. steps_go.
  apply jar_step_slot_set. by apply expiry_only_expiry_options.
Qed.

Lemma jar_step_refresh_set (env : Env) (token : string) (overrides : CookieSerializeOptions) :
  expiry_only overrides -> steps jar_step (RefreshTokenCookie.set env token overrides).
Proof.
  intros H. unfold RefreshTokenCookie.set. steps_go.
  apply jar_step_slot_set. by apply expiry_only_expiry_options.
Qed.

Lemma jar_step_refresh_value (env : Env) : steps jar_step (RefreshTokenCookie.value env).
Proof. unfold RefreshTokenCookie.value. steps_go. Qed.

Lemma jar_step_state_set (state : string) : steps jar_step (AuthStateCookie.set state).
Proof. apply jar_step_slot_set. done. Qed.

#[local] Hint Resolve jar_step_access_set jar_step_refresh_set jar_step_refresh_value
  jar_step_state_set : steps.

Lemma jar_step_getRealmConfig (env : Env) : steps jar_step (OIDC.getRealmConfig env).
Proof. unfold OIDC.getRealmConfig. steps_go. Qed.

Lemma jar_step_endpoint (env : Env) (field : string) (config : JSON) :
  steps jar_step (OIDC.endpoint env field config).
Proof. unfold OIDC.endpoint. steps_go. Qed.

#[local] Hint Resolve jar_step_getRealmConfig jar_step_endpoint : steps.

Lemma jar_step_deleteTokens : steps jar_step OIDC.deleteTokens.
Proof.
  unfold OIDC.deleteTokens, AccessTokenCookie.delete, RefreshTokenCookie.delete. steps_go.
Qed.

Lemma jar_step_storeTokens (env : Env) (data : JSON) :
  steps jar_step (OIDC.storeTokens env data).
Proof. unfold OIDC.storeTokens. steps_go. Qed.

Lemma jar_step_requests (env : Env) (text : string) :
  steps jar_step (OIDC.createAuthorizationCodeRequest env text) /\
  steps jar_step (OIDC.createRefreshTokenRequest env text).
Proof.
  unfold OIDC.createAuthorizationCodeRequest, OIDC.createRefreshTokenRequest.
  split; steps_go.
Qed.

Lemma jar_step_authorization_request (env : Env) (code : string) :
  steps jar_step (OIDC.createAuthorizationCodeRequest env code).
Proof. apply jar_step_requests. Qed.

Lemma jar_step_refresh_request (env : Env) (rt : string) :
  steps jar_step (OIDC.createRefreshTokenRequest env rt).
Proof. apply jar_step_requests. Qed.

#[local] Hint Resolve jar_step_deleteTokens jar_step_storeTokens
  jar_step_authorization_request jar_step_refresh_request : steps.

Lemma jar_step_refresh (env : Env) : steps jar_step (OIDC.refresh env).
Proof. unfold OIDC.refresh, OIDC.refreshToken. steps_go. Qed.

Lemma jar_step_startLoginFlow (env : Env) : steps jar_step (OIDC.startLoginFlow env).
Proof. unfold OIDC.startLoginFlow. steps_go. Qed.

Lemma jar_step_completeLoginFlow (env : Env) (state : option string) (code : string) :
  steps jar_step (OIDC.completeLoginFlow env state code).
Proof.
  unfold OIDC.completeLoginFlow, OIDC.authState, AuthStateCookie.value. steps_go.
Qed.

#[local] Hint Resolve jar_step_refresh jar_step_startLoginFlow
  jar_step_completeLoginFlow : steps.

(** X4: whatever the operations of the manager do and however they end,
    every cookie they leave in the jar either was there before, unchanged,
    or is HttpOnly, Secure, SameSite=Lax with Path=/. *)
Theorem operations_write_base_attributes (env : Env) :
  steps jar_step (OIDC.startLoginFlow env) /\
  (forall state code, steps jar_step (OIDC.completeLoginFlow env state code)) /\
  (forall params, steps jar_step (OIDC.handleLoginFlow env params)) /\
  steps jar_step (OIDC.refresh env) /\
  steps jar_step (OIDC.getAccessToken env) /\
  steps jar_step (OIDC.getExpirations env) /\
  steps jar_step (OIDC.isLoggedIn env) /\
  steps jar_step (OIDC.logout env).
Proof.
  split_and!.
  - apply jar_step_startLoginFlow.
  - apply jar_step_completeLoginFlow.
  - intros params. unfold OIDC.handleLoginFlow. steps_go.
  - apply jar_step_refresh.
  - unfold OIDC.getAccessToken, OIDC.accessToken, AccessTokenCookie.value. steps_go.
  - unfold OIDC.getExpirations, OIDC.decode_if_present, OIDC.accessToken,
      OIDC.refreshToken, AccessTokenCookie.value. steps_go.
  - unfold OIDC.isLoggedIn, OIDC.refreshToken. steps_go.
  - unfold OIDC.logout. steps_go.
Qed.

(** X4, witness: the access-token cookie that a refresh stores. *)
Lemma operations_write_base_attributes_witness :
  let env := sample_provider "toy-aead" {| status := 200; body := Some sample_tokens |} in
  let record := access_record sample_jwt (Some (Date_of_seconds (JNumber 1700000000))) in
  cookies refreshable_world !! "access-token" = Some record \/ base_attributes record.
Proof.
  intros env record.
  destruct (operations_write_base_attributes env) as (_ & _ & _ & Hrefresh & _).
  apply (Hrefresh refreshable_world "access-token" record). by vm_compute.
Defined.

(** ** A cached configuration is kept and not fetched again *)

#[local] Instance config_step_preorder (config : JSON) : PreOrder (config_step config).
Proof.
  split.
  - by intros w H.
  - intros w1 w2 w3 H12 H23 H. destruct (H12 H) as [H2 <-]. by apply H23.
Qed.

Lemma config_step_same (config : JSON) (w w' : World) :
  cachedConfig w' = cachedConfig w -> sent w' = sent w -> config_step config w w'.
Proof. intros Hc Hs H. by rewrite Hc, Hs. Qed.

Lemma discovery_fetches_app (l1 l2 : list Request) :
  discovery_fetches (l1 ++ l2) = (discovery_fetches l1 + discovery_fetches l2)%nat.
Proof. unfold discovery_fetches. by rewrite List.filter_app, length_app. Qed.

Lemma config_step_cookies (config : JSON) (f : gmap string CookieRecord -> gmap string CookieRecord) :
  steps (config_step config) (modify (with_cookies f)).
Proof. intros w. by apply config_step_same. Qed.

Lemma config_step_slot_set (config : JSON) (slot : Cookie.t) (value : string)
    (overrides : CookieSerializeOptions) :
  steps (config_step config) (Cookie.set slot value overrides).
Proof. apply config_step_cookies. Qed.

Lemma config_step_slot_delete (config : JSON) (slot : Cookie.t) :
  steps (config_step config) (Cookie.delete slot).
Proof. apply config_step_cookies. Qed.

Lemma config_step_slot_value (config : JSON) (slot : Cookie.t) :
  steps (config_step config) (Cookie.value slot).
Proof. by intros w. Qed.

Lemma config_step_console (config : JSON) (e : LogEntry) :
  steps (config_step config) (console_log e).
Proof. intros w. by apply config_step_same. Qed.

Lemma config_step_draw (config : JSON) : steps (config_step config) (modify with_draw).
Proof. intros w. by apply config_step_same. Qed.

Lemma config_step_fetch (config : JSON) (env : Env) (r : Request) :
  is_discovery r = false -> steps (config_step config) (fetchM env r).
Proof.
  intros Hr w H. unfold fetchM.
  assert (discovery_fetches (sent w ++ [r]) = discovery_fetches (sent w)) as Hs.
  { rewrite discovery_fetches_app. unfold discovery_fetches at 2. cbn. rewrite Hr. cbn. lia. }
  by destruct (fetch env _ _).
Qed.

Lemma config_step_json (config : JSON) (r : Response) : steps (config_step config) (jsonM r).
Proof. apply steps_or_throw. apply _. Qed.

Lemma config_step_getRealmConfig (config : JSON) (env : Env) :
  steps (config_step config) (OIDC.getRealmConfig env).
Proof. intros w H. by rewrite (getRealmConfig_cached env w config H). Qed.

Lemma config_step_endpoint (config : JSON) (env : Env) (field : string) (c : JSON) :
  steps (config_step config) (OIDC.endpoint env field c).
Proof. unfold OIDC.endpoint. apply steps_or_throw. apply _. Qed.

#[local] Hint Resolve config_step_slot_set config_step_slot_delete config_step_slot_value
  config_step_console config_step_draw config_step_fetch config_step_json
  config_step_getRealmConfig config_step_endpoint : steps.

Lemma config_step_requests (config : JSON) (env : Env) (text : string) :
  run_spec (config_step config) (fun r => is_discovery r = false)
    (OIDC.createAuthorizationCodeRequest env text) /\
  run_spec (config_step config) (fun r => is_discovery r = false)
    (OIDC.createRefreshTokenRequest env text).
Proof.
  unfold OIDC.createAuthorizationCodeRequest, OIDC.createRefreshTokenRequest.
  split.
  all: apply (run_spec_bind _ (fun _ => True)).
  1,3: apply steps_run_spec, config_step_getRealmConfig.
  all: intros c _; apply (run_spec_bind _ (fun _ => True)).
  1,3: apply steps_run_spec, config_step_endpoint.
  all: intros url _; apply run_spec_ret; first [typeclasses eauto | reflexivity].
Qed.

Lemma config_step_authorization_request (config : JSON) (env : Env) (code : string) :
  run_spec (config_step config) (fun r => is_discovery r = false)
    (OIDC.createAuthorizationCodeRequest env code).
Proof. apply config_step_requests. Qed.

Lemma config_step_refresh_request (config : JSON) (env : Env) (rt : string) :
  run_spec (config_step config) (fun r => is_discovery r = false)
    (OIDC.createRefreshTokenRequest env rt).
Proof. apply config_step_requests. Qed.

#[local] Hint Resolve config_step_authorization_request config_step_refresh_request : steps.

Lemma config_step_refresh_value (config : JSON) (env : Env) :
  steps (config_step config) (RefreshTokenCookie.value env).
Proof. unfold RefreshTokenCookie.value. steps_go. Qed.

Lemma config_step_deleteTokens (config : JSON) : steps (config_step config) OIDC.deleteTokens.
Proof.
  unfold OIDC.deleteTokens, AccessTokenCookie.delete, RefreshTokenCookie.delete. steps_go.
Qed.

Lemma config_step_storeTokens (config : JSON) (env : Env) (data : JSON) :
  steps (config_step config) (OIDC.storeTokens env data).
Proof.
  unfold OIDC.storeTokens, AccessTokenCookie.set, RefreshTokenCookie.set. steps_go.
Qed.

#[local] Hint Resolve config_step_refresh_value config_step_deleteTokens
  config_step_storeTokens : steps.

Lemma config_step_refresh (config : JSON) (env : Env) :
  steps (config_step config) (OIDC.refresh env).
Proof. unfold OIDC.refresh, OIDC.refreshToken. steps_go. Qed.

Lemma config_step_startLoginFlow (config : JSON) (env : Env) :
  steps (config_step config) (OIDC.startLoginFlow env).
Proof. unfold OIDC.startLoginFlow, AuthStateCookie.set. steps_go. Qed.

Lemma config_step_completeLoginFlow (config : JSON) (env : Env)
    (state : option string) (code : string) :
  steps (config_step config) (OIDC.completeLoginFlow env state code).
Proof.
  unfold OIDC.completeLoginFlow, OIDC.authState, AuthStateCookie.value. steps_go.
Qed.

#[local] Hint Resolve config_step_refresh config_step_startLoginFlow
  config_step_completeLoginFlow : steps.

(** X5: once a realm configuration is cached, every operation of the
    manager keeps it cached and sends no discovery request, however the
    operation ends. *)
Theorem cached_config_is_kept (env : Env) (config : JSON) :
  steps (config_step config) (OIDC.startLoginFlow env) /\
  (forall state code, steps (config_step config) (OIDC.completeLoginFlow env state code)) /\
  (forall params, steps (config_step config) (OIDC.handleLoginFlow env params)) /\
  steps (config_step config) (OIDC.refresh env) /\
  steps (config_step config) (OIDC.getAccessToken env) /\
  steps (config_step config) (OIDC.getExpirations env) /\
  steps (config_step config) (OIDC.isLoggedIn env) /\
  steps (config_step config) (OIDC.logout env).
Proof.
  split_and!.
  - apply config_step_startLoginFlow.
  - apply config_step_completeLoginFlow.
  - intros params. unfold OIDC.handleLoginFlow. steps_go.
  - apply config_step_refresh.
  - unfold OIDC.getAccessToken, OIDC.accessToken, AccessTokenCookie.value. steps_go.
  - unfold OIDC.getExpirations, OIDC.decode_if_present, OIDC.accessToken,
      OIDC.refreshToken, AccessTokenCookie.value. steps_go.
  - unfold OIDC.isLoggedIn, OIDC.refreshToken. steps_go.
  - unfold OIDC.logout. steps_go.
Qed.

(** X5, witness: a refresh under a cached configuration. *)
Lemma cached_config_is_kept_witness :
  let env := sample_provider "toy-aead" {| status := 200; body := Some sample_tokens |} in
  let w := with_cachedConfig (Some sample_config) refreshable_world in
  cachedConfig (OIDC.refresh env w).2 = Some sample_config /\
  discovery_fetches (sent (OIDC.refresh env w).2) = discovery_fetches (sent w).
Proof.
  intros env w.
  destruct (cached_config_is_kept env sample_config) as (_ & _ & _ & Hrefresh & _).
  by apply (Hrefresh w).
Defined.

(** ** The refresh-token slot *)

Lemma truthy_nonempty (s : string) : s <> "" -> truthy (Some s) = true.
Proof. intros H. cbn. by destruct (String.eqb_spec s ""). Qed.

(** X6: under a supported cipher configuration, storing a token that
    decodes to a payload other than [null] in the refresh-token slot
    succeeds, takes one random draw, and the slot then reads back the
    well-formed form of that token: the token itself when it is well
    formed.  A token whose payload is [null] is refused after the draw,
    and nothing is stored. *)
Theorem refresh_cookie_round_trip (env : Env) (w : World) (token : string)
    (overrides : CookieSerializeOptions) (jwt : JwtPayload) :
  supported (node_crypto env) (RefreshTokenCookie.crypto env) ->
  (forall draw n, length (randomBytes env draw n) = n) ->
  jwtDecode env token = Some jwt ->
  (jwt <> JNull ->
   exists w',
     RefreshTokenCookie.set env token overrides w = (Ok tt, w') /\
     draws w' = S (draws w) /\
     RefreshTokenCookie.value env w' = (Ok (Some (toWellFormed token)), w') /\
     (represents token -> isWellFormed token = true ->
      RefreshTokenCookie.value env w' = (Ok (Some token), w'))) /\
  (jwt = JNull ->
   RefreshTokenCookie.set env token overrides w = (Throw NullPayload, with_draw w)).
Proof.
  intros Hnode Hrandom Hjwt.
  destruct (encrypt_then_decrypt (node_crypto env) (randomBytes env (draws w))
              (RefreshTokenCookie.crypto env) token Hnode (default_suite_utf8 env)
              (Hrandom (draws w)))
    as (combined & Henc & Hne & Hdec).
  split.
  - intros Hnull.
    destruct (getExpiry jwt) as [expires|] eqn:Hexp; [|by destruct jwt].
    assert (RefreshTokenCookie.value env
              (with_cookies
                 (insert "refresh-token"
                    {| cookie_value := combined;
                       cookie_options :=
                         spread (Cookie.options RefreshTokenCookie.new)
                           (expiry_options expires overrides) |})
                 (with_draw w))
            = (Ok (Some (toWellFormed token)),
               with_cookies
                 (insert "refresh-token"
                    {| cookie_value := combined;
                       cookie_options :=
                         spread (Cookie.options RefreshTokenCookie.new)
                           (expiry_options expires overrides) |})
                 (with_draw w))) as Hvalue.
    { unfold RefreshTokenCookie.value, RefreshTokenCookie.new, BaseCookie.new.
      unfold_program. cbn -[insert lookup CryptoSuite.decrypt truthy].
      rewrite lookup_insert_eq. cbn -[CryptoSuite.decrypt truthy].
      rewrite (truthy_nonempty _ Hne), Hdec. reflexivity. }
    eexists. split_and!.
    + unfold RefreshTokenCookie.set. rewrite Hjwt. unfold_program.
      cbn -[insert CryptoSuite.encrypt getExpiry].
      rewrite Henc, Hexp. reflexivity.
    + reflexivity.
    + exact Hvalue.
    + intros Hrep Hwf. rewrite (toWellFormed_well_formed token Hrep Hwf) in Hvalue.
      exact Hvalue.
  - intros ->. unfold RefreshTokenCookie.set. rewrite Hjwt. unfold_program.
    cbn -[insert CryptoSuite.encrypt]. by rewrite Henc.
Qed.

(** X6, witness: a token stored in an empty jar, and a token whose payload
    is [null]. *)
Lemma refresh_cookie_round_trip_witness :
  (exists w',
     RefreshTokenCookie.set (sample_env "toy-aead" None None) sample_jwt' no_options empty_world
       = (Ok tt, w') /\
     draws w' = S (draws empty_world) /\
     RefreshTokenCookie.value (sample_env "toy-aead" None None) w'
       = (Ok (Some (toWellFormed sample_jwt')), w') /\
     (represents sample_jwt' -> isWellFormed sample_jwt' = true ->
      RefreshTokenCookie.value (sample_env "toy-aead" None None) w'
        = (Ok (Some sample_jwt'), w'))) /\
  RefreshTokenCookie.set (sample_env "toy-aead" None None) null_jwt no_options empty_world
    = (Throw NullPayload, with_draw empty_world).
Proof.
  split.
  - apply (proj1 (refresh_cookie_round_trip (sample_env "toy-aead" None None) empty_world
                    sample_jwt' no_options (JObject [("exp", JNumber 1800000000)])
                    toy_aead_supported (fun _ n => repeat_length zero n) eq_refl)).
    done.
  - apply (proj2 (refresh_cookie_round_trip (sample_env "toy-aead" None None) empty_world
                    null_jwt no_options JNull
                    toy_aead_supported (fun _ n => repeat_length zero n) eq_refl)).
    done.
Defined.

(** ** The state parameter *)

Lemma string_of_uint_digits (d : Decimal.uint) :
  forallb is_digit (list_ascii_of_string (NilEmpty.string_of_uint d)) = true.
Proof. induction d; cbn; by try rewrite IHd. Qed.

Lemma string_of_uint_length (d : Decimal.uint) :
  String.length (NilEmpty.string_of_uint d) = Decimal.nb_digits d.
Proof. induction d; cbn; by try rewrite IHd. Qed.

Lemma of_uint_acc_lower (l : Decimal.uint) (acc : positive) :
  (N.pos acc * 10 ^ N.of_nat (Decimal.nb_digits l) <= N.pos (Pos.of_uint_acc l acc))%N.
Proof.
  revert acc. induction l; intros acc; cbn [Decimal.nb_digits Pos.of_uint_acc].
  1: { cbn. lia. }
  all: rewrite Nat2N.inj_succ, N.pow_succ_r';
    etransitivity; [|apply IHl];
    set (p := (10 ^ N.of_nat (Decimal.nb_digits l))%N); nia.
Qed.

Lemma to_uint_normal (n : N) : Decimal.unorm (N.to_uint n) = N.to_uint n.
Proof.
  rewrite <- (DecimalN.Unsigned.of_to n) at 2.
  by rewrite DecimalN.Unsigned.to_of.
Qed.

Lemma to_uint_digits (n : N) :
  (n < 100000000)%N -> (Decimal.nb_digits (N.to_uint n) <= 8)%nat.
Proof.
  intros Hn. pose proof (DecimalN.Unsigned.of_to n) as Hof.
  pose proof (to_uint_normal n) as Hnorm.
  destruct (N.to_uint n) as [|u|l|l|l|l|l|l|l|l|l] eqn:Hd.
  1: { cbn. lia. }
  1: { rewrite DecimalFacts.unorm_D0 in Hnorm.
       pose proof (DecimalFacts.nb_digits_unorm u) as Hu. rewrite Hnorm in Hu.
       destruct u; [cbn; lia|..]; (cbn in Hu; specialize (Hu ltac:(done)); lia). }
  all: cbn [N.of_uint Pos.of_uint] in Hof;
    match type of Hof with
    | N.pos (Pos.of_uint_acc ?l ?k) = _ =>
        pose proof (of_uint_acc_lower l k) as Hl;
        assert (10 ^ N.of_nat (Decimal.nb_digits l) < 10 ^ 8)%N as Hlt by lia
    end;
    apply N.pow_lt_mono_r_iff in Hlt; [|lia]; cbn [Decimal.nb_digits]; lia.
Qed.

Lemma generateRandomState_nonempty (env : Env) (draw : nat) :
  generateRandomState env draw <> "".
Proof.
  unfold generateRandomState.
  pose proof (to_uint_normal (mathRandom env draw)) as Hnorm.
  by destruct (N.to_uint (mathRandom env draw)).
Qed.

Lemma string_of_uint_nonnil (d : Decimal.uint) :
  d <> Decimal.Nil -> NilZero.string_of_uint d = NilEmpty.string_of_uint d.
Proof. by destruct d. Qed.

(** X7: the state parameter is a non-empty decimal numeral of at most
    eight digits. *)
Theorem generateRandomState_numeral (env : Env) (draw : nat) :
  (mathRandom env draw < 100000000)%N ->
  generateRandomState env draw <> "" /\
  forallb is_digit (list_ascii_of_string (generateRandomState env draw)) = true /\
  (String.length (generateRandomState env draw) <= 8)%nat.
Proof.
  intros Hn. split; [apply generateRandomState_nonempty|].
  unfold generateRandomState.
  assert (N.to_uint (mathRandom env draw) <> Decimal.Nil) as Hnil.
  { rewrite <- to_uint_normal. apply DecimalFacts.unorm_nonnil. }
  rewrite (string_of_uint_nonnil _ Hnil). split.
  - apply string_of_uint_digits.
  - rewrite string_of_uint_length. by apply to_uint_digits.
Qed.

(** X7, witness: the first draw of the sample environment. *)
Lemma generateRandomState_numeral_witness :
  generateRandomState (sample_env "toy-aead" None None) 0 <> "" /\
  forallb is_digit
    (list_ascii_of_string (generateRandomState (sample_env "toy-aead" None None) 0)) = true /\
  (String.length (generateRandomState (sample_env "toy-aead" None None) 0) <= 8)%nat.
Proof.
  apply (generateRandomState_numeral (sample_env "toy-aead" None None) 0). by vm_compute.
Defined.

(** ** Search parameters *)

Lemma params_get_remove_ne (k k' : string) (ps : list (string * string)) :
  k <> k' -> params_get k' (params_remove k ps) = params_get k' ps.
Proof.
  intros Hne. induction ps as [|[k0 v0] ps IH]; [done|]. cbn.
  destruct (String.eqb_spec k k0) as [<-|Hk]; cbn.
  - destruct (String.eqb_spec k' k) as [->|_]; [done|apply IH].
  - by rewrite IH.
Qed.

Lemma params_get_set (k v : string) (ps : list (string * string)) :
  params_get k (params_set k v ps) = Some v.
Proof.
  induction ps as [|[k0 v0] ps IH]; cbn.
  - by rewrite String.eqb_refl.
  - destruct (String.eqb_spec k k0) as [<-|Hk]; cbn.
    + by rewrite String.eqb_refl.
    + by destruct (String.eqb_spec k k0).
Qed.

Lemma params_get_set_ne (k k' v : string) (ps : list (string * string)) :
  k <> k' -> params_get k' (params_set k v ps) = params_get k' ps.
Proof.
  intros Hne. induction ps as [|[k0 v0] ps IH]; cbn.
  - by destruct (String.eqb_spec k' k) as [->|_].
  - destruct (String.eqb_spec k k0) as [<-|Hk]; cbn.
    + destruct (String.eqb_spec k' k) as [->|_]; [done|].
      by apply params_get_remove_ne.
    + by rewrite IH.
Qed.

(** ** The login flow *)

Lemma startLoginFlow_run (env : Env) (w : World) :
  OIDC.startLoginFlow env w =
    (config ← OIDC.getRealmConfig env;
     authUrl ← OIDC.endpoint env "authorization_endpoint" config;
     mret (url_set "state" (generateRandomState env (draws w))
             (url_set "redirect_uri" (BASE_URL env ++ "/login")
                (url_set "response_type" "code"
                   (url_set "client_id" (CLIENT_ID env) authUrl)))))
      (with_cookies
         (insert "auth-state"
            {| cookie_value := generateRandomState env (draws w);
               cookie_options := spread (Cookie.options AuthStateCookie.new) no_options |})
         (with_draw w)).
Proof. reflexivity. Qed.

(** The cookie is written before the configuration is asked for. *)
Lemma startLoginFlow_frame (env : Env) (w : World) :
  let state := generateRandomState env (draws w) in
  let w' := (OIDC.startLoginFlow env w).2 in
  cookie_value <$> cookies w' !! "auth-state" = Some state /\
  (forall name, name <> "auth-state" -> cookies w' !! name = cookies w !! name) /\
  draws w' = S (draws w).
Proof.
  intros state w'. subst w'. rewrite startLoginFlow_run. fold state.
  set (w0 := with_cookies _ (with_draw w)).
  assert (cookies w0 = <["auth-state" :=
            {| cookie_value := state;
               cookie_options := spread (Cookie.options AuthStateCookie.new) no_options |}]>
            (cookies w) /\ draws w0 = S (draws w)) as [Hjar Hdraws] by done.
  clearbody w0. rewrite bind_run.
  pose proof (getRealmConfig_frame env w0) as (Hc & _ & Hd & _).
  destruct (OIDC.getRealmConfig env w0) as [[config|e] w1]; cbn [snd] in Hc, Hd.
  2: { cbn [snd]. rewrite Hc, Hd, Hjar. split; [by rewrite lookup_insert_eq|].
       split; [|done]. intros name Hname. by rewrite lookup_insert_ne. }
  rewrite bind_run. unfold OIDC.endpoint.
  destruct (string_property "authorization_endpoint" config ≫= newURL env) as [authUrl|];
    cbn [or_throw mret M_ret throw snd].
  all: rewrite Hc, Hd, Hjar; split; [by rewrite lookup_insert_eq|].
  all: split; [intros name Hname; by rewrite lookup_insert_ne|done].
Qed.

Lemma startLoginFlow_returns (env : Env) (w w1 : World) (url : URL) :
  OIDC.startLoginFlow env w = (Ok url, w1) ->
  exists authUrl,
    url = url_set "state" (generateRandomState env (draws w))
            (url_set "redirect_uri" (BASE_URL env ++ "/login")
               (url_set "response_type" "code"
                  (url_set "client_id" (CLIENT_ID env) authUrl))).
Proof.
  rewrite startLoginFlow_run. intros H.
  step H as config w2 Hconfig. step H as authUrl w3 Hurl.
  injection H as <- _. by exists authUrl.
Qed.

(** X8: [startLoginFlow] stores its state in the auth-state cookie before
    it asks for the configuration, so the cookie is written however the
    call ends; no other cookie changes and one random draw is taken.  When
    it returns, the authorization URL carries that same state, the client
    id, the response type [code] and the redirect address. *)
Theorem startLoginFlow_state (env : Env) (w : World) :
  let state := generateRandomState env (draws w) in
  let w' := (OIDC.startLoginFlow env w).2 in
  cookie_value <$> cookies w' !! "auth-state" = Some state /\
  (forall name, name <> "auth-state" -> cookies w' !! name = cookies w !! name) /\
  draws w' = S (draws w) /\
  forall url,
    (OIDC.startLoginFlow env w).1 = Ok url ->
    params_get "state" (searchParams url) = Some state /\
    params_get "redirect_uri" (searchParams url) = Some (BASE_URL env ++ "/login") /\
    params_get "response_type" (searchParams url) = Some "code" /\
    params_get "client_id" (searchParams url) = Some (CLIENT_ID env).
Proof.
  intros state w'. destruct (startLoginFlow_frame env w) as (Hcookie & Hothers & Hdraws).
  split_and!; [done..|]. intros url Hrun.
  destruct (OIDC.startLoginFlow env w) as [r w1] eqn:Hstart. cbn [fst] in Hrun. subst r.
  destruct (startLoginFlow_returns env w w1 url Hstart) as [authUrl ->].
  fold state. cbn [url_set searchParams].
  rewrite params_get_set.
  rewrite (params_get_set_ne "state" "redirect_uri"), params_get_set by done.
  rewrite (params_get_set_ne "state" "response_type"),
    (params_get_set_ne "redirect_uri" "response_type"), params_get_set by done.
  rewrite (params_get_set_ne "state" "client_id"),
    (params_get_set_ne "redirect_uri" "client_id"),
    (params_get_set_ne "response_type" "client_id"), params_get_set by done.
  done.
Qed.

(** X8, witness: the authorization URL of the sample provider. *)
Lemma startLoginFlow_state_witness :
  let env := sample_provider "toy-aead" {| status := 200; body := Some sample_tokens |} in
  let url := {| href := "https://idp/auth";
                searchParams := [("client_id", "demo"); ("response_type", "code");
                                 ("redirect_uri", "https://app/login");
                                 ("state", "12345")] |} in
  params_get "state" (searchParams url) = Some (generateRandomState env 0) /\
  params_get "redirect_uri" (searchParams url) = Some (BASE_URL env ++ "/login") /\
  params_get "response_type" (searchParams url) = Some "code" /\
  params_get "client_id" (searchParams url) = Some (CLIENT_ID env).
Proof.
  intros env url.
  destruct (startLoginFlow_state env empty_world) as (_ & _ & _ & Hurl).
  apply (Hurl url). by vm_compute.
Defined.

Lemma completeLoginFlow_rejects (env : Env) (w : World) (state : option string)
    (code : string) :
  state = None \/ state <> (cookie_value <$> cookies w !! "auth-state") ->
  OIDC.completeLoginFlow env state code w = (Throw StateMismatch, w).
Proof.
  intros H. unfold OIDC.completeLoginFlow. destruct state as [s|].
  - destruct H as [|H]; [done|].
    rewrite (bind_ok _ _ w w true); [done|].
    rewrite (bind_ok _ _ w w (cookie_value <$> cookies w !! "auth-state")); [|done].
    cbn. by rewrite bool_decide_eq_false_2.
  - by rewrite (bind_ok _ _ w w true).
Qed.

Lemma completeLoginFlow_accepts (env : Env) (w : World) (s code : string) :
  cookie_value <$> cookies w !! "auth-state" = Some s ->
  OIDC.completeLoginFlow env (Some s) code w =
    (request ← OIDC.createAuthorizationCodeRequest env code;
     response ← fetchM env request;
     data ← jsonM response;
     if negb (ok response) || negb (isTokens data) then
       throw (TokenExchangeFailed (status response) data)
     else OIDC.storeTokens env data;; mret "/") w.
Proof.
  intros Hs. unfold OIDC.completeLoginFlow.
  rewrite (bind_ok _ _ w w false); [done|].
  rewrite (bind_ok _ _ w w (cookie_value <$> cookies w !! "auth-state")); [|done].
  cbn. by rewrite bool_decide_eq_true_2.
Qed.

Lemma exchange_no_mismatch (env : Env) (code : string) (w : World) :
  ((request ← OIDC.createAuthorizationCodeRequest env code;
    response ← fetchM env request;
    data ← jsonM response;
    if negb (ok response) || negb (isTokens data) then
      throw (TokenExchangeFailed (status response) data)
    else OIDC.storeTokens env data;; mret "/") w).1 <> Throw StateMismatch.
Proof. run_program; congruence. Qed.

(** X9: the callback is accepted with exactly the state that
    [startLoginFlow] put into the authorization URL: with any other state,
    or none, [completeLoginFlow] throws the state mismatch and changes
    nothing; with that state it does not throw it.  The state is never
    empty, so an empty [state] parameter is always refused. *)
Theorem login_state_round_trip (env : Env) (w w1 : World) (url : URL)
    (state : option string) (code : string) :
  OIDC.startLoginFlow env w = (Ok url, w1) ->
  (state <> params_get "state" (searchParams url) ->
   OIDC.completeLoginFlow env state code w1 = (Throw StateMismatch, w1)) /\
  (state = params_get "state" (searchParams url) ->
   (OIDC.completeLoginFlow env state code w1).1 <> Throw StateMismatch) /\
  OIDC.completeLoginFlow env (Some "") code w1 = (Throw StateMismatch, w1).
Proof.
  intros Hstart.
  pose proof (startLoginFlow_frame env w) as (Hcookie & _).
  rewrite Hstart in Hcookie. cbn [snd] in Hcookie.
  destruct (startLoginFlow_returns env w w1 url Hstart) as [authUrl ->].
  cbn [url_set searchParams]. rewrite params_get_set. split; [|split].
  - intros Hne. apply completeLoginFlow_rejects. right. by rewrite Hcookie.
  - intros ->. rewrite (completeLoginFlow_accepts env w1 _ code Hcookie).
    apply exchange_no_mismatch.
  - apply completeLoginFlow_rejects. right. rewrite Hcookie. intros [= H].
    by apply (generateRandomState_nonempty env (draws w)).
Qed.

(** X9, witness: the state of the first draw, and the empty state. *)
Lemma login_state_round_trip_witness :
  let env := sample_provider "toy-aead" {| status := 200; body := Some sample_tokens |} in
  let w1 := (OIDC.startLoginFlow env empty_world).2 in
  (OIDC.completeLoginFlow env (Some "12345") "code" w1).1 <> Throw StateMismatch /\
  OIDC.completeLoginFlow env (Some "") "code" w1 = (Throw StateMismatch, w1).
Proof.
  intros env w1.
  pose (url := {| href := "https://idp/auth";
                  searchParams := [("client_id", "demo"); ("response_type", "code");
                                   ("redirect_uri", "https://app/login");
                                   ("state", "12345")] |}).
  assert (OIDC.startLoginFlow env empty_world = (Ok url, w1)) as Hstart by by vm_compute.
  pose proof (login_state_round_trip env empty_world w1 url (Some "12345") "code" Hstart)
    as (_ & Hyes & Hno).
  split; [by apply Hyes|exact Hno].
Defined.

(** X10: [handleLoginFlow] dispatches on the [code] parameter alone: with a
    non-empty code and no [state] parameter it throws the state mismatch
    and changes nothing, whatever cookie is stored; without a code, or with
    an empty one, it starts a new login flow, whatever [state] says. *)
Theorem handleLoginFlow_dispatch (env : Env) (w : World) (params : list (string * string)) :
  (truthy (params_get "code" params) = true -> params_get "state" params = None ->
   OIDC.handleLoginFlow env params w = (Throw StateMismatch, w)) /\
  (truthy (params_get "code" params) = false ->
   OIDC.handleLoginFlow env params w = (inl <$> OIDC.startLoginFlow env) w /\
   cookie_value <$> cookies (OIDC.handleLoginFlow env params w).2 !! "auth-state"
     = Some (generateRandomState env (draws w))) /\
  (forall path w',
     OIDC.handleLoginFlow env params w = (Ok (inr path), w') ->
     path = "/" /\ truthy (params_get "code" params) = true /\
     params_get "state" params = cookie_value <$> cookies w !! "auth-state").
Proof.
  unfold OIDC.handleLoginFlow. split; [|split].
  - intros -> ->. unfold fmap, M_fmap.
    by rewrite (completeLoginFlow_rejects env w None _ (or_introl eq_refl)).
  - intros ->. split; [done|].
    pose proof (startLoginFlow_frame env w) as (Hcookie & _).
    unfold fmap at 2, M_fmap. by destruct (OIDC.startLoginFlow env w) as [[url|e] w1].
  - intros path w'. destruct (truthy (params_get "code" params)).
    2: { unfold fmap, M_fmap. by destruct (OIDC.startLoginFlow env w) as [[url|e] w1]. }
    unfold fmap, M_fmap.
    destruct (OIDC.completeLoginFlow env (params_get "state" params)
                (default "" (params_get "code" params)) w) as [[p|e] w1] eqn:Hrun; [|done].
    intros [= -> ->].
    destruct (decide (params_get "state" params = None
                      \/ params_get "state" params
                         <> (cookie_value <$> cookies w !! "auth-state"))) as [Hbad|Hgood].
    { by rewrite (completeLoginFlow_rejects env w _ _ Hbad) in Hrun. }
    assert (params_get "state" params = cookie_value <$> cookies w !! "auth-state") as Heq.
    { destruct (decide (params_get "state" params
                        = (cookie_value <$> cookies w !! "auth-state"))); [done|].
      destruct Hgood. by right. }
    split; [|done].
    destruct (params_get "state" params) as [s|] eqn:Hs; [|destruct Hgood; by left].
    rewrite (completeLoginFlow_accepts env w s _ (eq_sym Heq)) in Hrun.
    step Hrun as request w2 Hreq. step Hrun as response w3 Hfetch.
    step Hrun as data w4 Hbody.
    destruct (negb (ok response) || negb (isTokens data)); [done|].
    step Hrun as u w5 Hstore. by injection Hrun as <- _.
Qed.

(** X10, witness: a code without a state. *)
Lemma handleLoginFlow_dispatch_witness :
  let env := sample_provider "toy-aead" {| status := 200; body := Some sample_tokens |} in
  let w := with_cookies (insert "auth-state" (plain_cookie "12345")) empty_world in
  OIDC.handleLoginFlow env [("code", "abc")] w = (Throw StateMismatch, w).
Proof.
  intros env w.
  destruct (handleLoginFlow_dispatch env w [("code", "abc")]) as (Hcode & _).
  by apply Hcode.
Defined.

(** ** The errors of the operations *)

Section Raises.
Context (allowed : Error -> bool).

Lemma raises_ret {A : Type} (a : A) : raises allowed (mret a).
Proof. by intros w e. Qed.

Lemma raises_throw {A : Type} (e : Error) :
  allowed e = true -> raises allowed (throw (A := A) e).
Proof. by intros H w e' [= <-]. Qed.

Lemma raises_bind {A B : Type} (m : M A) (f : A -> M B) :
  raises allowed m -> (forall a, raises allowed (f a)) -> raises allowed (m ≫= f).
Proof.
  intros Hm Hf w e. rewrite bind_run. specialize (Hm w).
  destruct (m w) as [[a|e'] w1]; cbn [fst] in *.
  - apply Hf.
  - intros [= <-]. by apply Hm.
Qed.

Lemma raises_fmap {A B : Type} (g : A -> B) (m : M A) :
  raises allowed m -> raises allowed (g <$> m).
Proof.
  intros Hm w e. specialize (Hm w). unfold fmap, M_fmap.
  destruct (m w) as [[a|e'] w1]; cbn [fst] in *; [done|].
  intros [= <-]. by apply Hm.
Qed.

Lemma raises_or_throw {A : Type} (e : Error) (o : option A) :
  allowed e = true -> raises allowed (or_throw e o).
Proof. intros H. destruct o; [apply raises_ret|by apply raises_throw]. Qed.

Lemma raises_get_world : raises allowed get_world.
Proof. by intros w e. Qed.

Lemma raises_modify (f : World -> World) : raises allowed (modify f).
Proof. by intros w e. Qed.

Lemma raises_fetch (env : Env) (r : Request) :
  allowed FetchRejected = true -> raises allowed (fetchM env r).
Proof. intros H w e. unfold fetchM. destruct (fetch env _ _); [done|]. by intros [= <-]. Qed.

End Raises.

Lemma raises_weaken (allowed allowed' : Error -> bool) {A : Type} (m : M A) :
  (forall e, allowed e = true -> allowed' e = true) ->
  raises allowed m -> raises allowed' m.
Proof. intros H Hm w e He. by apply H, (Hm w). Qed.

Create HintDb raises.

#[local] Hint Resolve raises_ret raises_get_world raises_modify : raises.
#[local] Hint Extern 1 (raises _ (throw _)) => apply raises_throw; reflexivity : raises.
#[local] Hint Extern 1 (raises _ (or_throw _ _)) => apply raises_or_throw; reflexivity : raises.
#[local] Hint Extern 1 (raises _ (fetchM _ _)) => apply raises_fetch; reflexivity : raises.
#[local] Hint Extern 1 (raises _ (jsonM _)) => apply raises_or_throw; reflexivity : raises.
#[local] Hint Extern 1 (raises _ (console_log _)) => apply raises_modify : raises.
#[local] Hint Extern 1 (raises _ (Cookie.set _ _ _)) => apply raises_modify : raises.
#[local] Hint Extern 1 (raises _ (Cookie.delete _)) => apply raises_modify : raises.
#[local] Hint Extern 1 (raises _ (Cookie.value _)) => (by intros ? ?) : raises.

Ltac raises_go :=
  repeat first
    [ solve [eauto with raises]
    | apply raises_fmap
    | apply raises_bind; [|intros ?]
    | match goal with
      | |- raises _ (if ?b then _ else _) => destruct b
      | |- raises _ (match ?x with _ => _ end) => destruct x
      end ].

Lemma raises_refreshToken (allowed : Error -> bool) (env : Env) :
  raises allowed (OIDC.refreshToken env).
Proof. unfold OIDC.refreshToken, RefreshTokenCookie.value. raises_go. Qed.

Lemma raises_getRealmConfig (allowed : Error -> bool) (env : Env) :
  (forall e, request_error e = true -> allowed e = true) ->
  raises allowed (OIDC.getRealmConfig env).
Proof.
  intros H. apply (raises_weaken request_error); [done|].
  unfold OIDC.getRealmConfig. raises_go.
Qed.

Lemma raises_endpoint (allowed : Error -> bool) (env : Env) (field : string) (config : JSON) :
  (forall e, request_error e = true -> allowed e = true) ->
  raises allowed (OIDC.endpoint env field config).
Proof.
  intros H. apply (raises_weaken request_error); [done|].
  unfold OIDC.endpoint. raises_go.
Qed.

Lemma raises_storeTokens (allowed : Error -> bool) (env : Env) (data : JSON) :
  (forall e, storing_error e = true -> allowed e = true) ->
  raises allowed (OIDC.storeTokens env data).
Proof.
  intros H. apply (raises_weaken storing_error); [done|].
  unfold OIDC.storeTokens, AccessTokenCookie.set, RefreshTokenCookie.set. raises_go.
Qed.

Lemma request_error_refresh (e : Error) : request_error e = true -> refresh_error e = true.
Proof. unfold refresh_error. by intros ->. Qed.

Lemma request_error_login (e : Error) : request_error e = true -> login_error e = true.
Proof. unfold login_error. by intros ->. Qed.

Lemma storing_error_refresh (e : Error) : storing_error e = true -> refresh_error e = true.
Proof. unfold refresh_error. intros ->. by rewrite orb_true_r. Qed.

Lemma storing_error_login (e : Error) : storing_error e = true -> login_error e = true.
Proof. unfold login_error. intros ->. by rewrite orb_true_r. Qed.

#[local] Hint Resolve raises_refreshToken : raises.
#[local] Hint Extern 2 (raises _ (OIDC.getRealmConfig _)) =>
  apply raises_getRealmConfig;
  first [done | apply request_error_refresh | apply request_error_login] : raises.
#[local] Hint Extern 2 (raises _ (OIDC.endpoint _ _ _)) =>
  apply raises_endpoint;
  first [done | apply request_error_refresh | apply request_error_login] : raises.
#[local] Hint Extern 2 (raises _ (OIDC.storeTokens _ _)) =>
  apply raises_storeTokens;
  first [done | apply storing_error_refresh | apply storing_error_login] : raises.

Lemma raises_refresh (env : Env) : raises refresh_error (OIDC.refresh env).
Proof.
  unfold OIDC.refresh, OIDC.createRefreshTokenRequest, OIDC.deleteTokens,
    AccessTokenCookie.delete, RefreshTokenCookie.delete.
  raises_go.
Qed.

Lemma raises_startLoginFlow (allowed : Error -> bool) (env : Env) :
  (forall e, request_error e = true -> allowed e = true) ->
  raises allowed (OIDC.startLoginFlow env).
Proof.
  intros H. apply (raises_weaken request_error); [done|].
  unfold OIDC.startLoginFlow, AuthStateCookie.set. raises_go.
Qed.

Lemma raises_completeLoginFlow (env : Env) (state : option string) (code : string) :
  raises login_error (OIDC.completeLoginFlow env state code).
Proof.
  unfold OIDC.completeLoginFlow, OIDC.createAuthorizationCodeRequest, OIDC.authState,
    AuthStateCookie.value.
  raises_go.
Qed.

(** X11: the errors each operation can end with.  [isLoggedIn] never
    throws; [getExpirations] throws only the decoder's error (it reads
    [exp] through an optional chain, so a [null] payload is no error to
    it); [logout] and [startLoginFlow] only the errors of talking to the
    provider; [refresh] and [getAccessToken] those, the errors of storing
    a token (the decoder's, the one of a [null] payload, the cipher's) and
    the refresh failure, never the state mismatch or the token-exchange
    failure; [completeLoginFlow] and [handleLoginFlow] never the refresh
    failure. *)
Theorem operations_errors (env : Env) :
  raises no_error (OIDC.isLoggedIn env) /\
  raises decoding_error (OIDC.getExpirations env) /\
  raises request_error (OIDC.logout env) /\
  raises request_error (OIDC.startLoginFlow env) /\
  raises refresh_error (OIDC.refresh env) /\
  raises refresh_error (OIDC.getAccessToken env) /\
  (forall state code, raises login_error (OIDC.completeLoginFlow env state code)) /\
  (forall params, raises login_error (OIDC.handleLoginFlow env params)).
Proof.
  split_and!.
  - unfold OIDC.isLoggedIn. raises_go.
  - unfold OIDC.getExpirations, OIDC.decode_if_present, OIDC.accessToken,
      AccessTokenCookie.value.
    raises_go.
  - unfold OIDC.logout, OIDC.deleteTokens, AccessTokenCookie.delete,
      RefreshTokenCookie.delete.
    raises_go.
  - by apply raises_startLoginFlow.
  - apply raises_refresh.
  - unfold OIDC.getAccessToken, OIDC.accessToken, AccessTokenCookie.value.
    pose proof (raises_refresh env). raises_go.
  - apply raises_completeLoginFlow.
  - intros params. unfold OIDC.handleLoginFlow.
    pose proof (raises_completeLoginFlow env).
    pose proof (raises_startLoginFlow login_error env request_error_login).
    raises_go.
Qed.

(** X11, witness: a refresh that the provider answers with 500. *)
Lemma operations_errors_witness :
  let data := JObject [("error", JString "server_error")] in
  refresh_error (RefreshFailed 500 data) = true.
Proof.
  intros data.
  destruct (operations_errors (sample_provider "toy-aead" {| status := 500; body := Some data |}))
    as (_ & _ & _ & _ & Hrefresh & _).
  apply (Hrefresh refreshable_world). by vm_compute.
Defined.

(** ** Sessions *)

Lemma storeTokens_session (env : Env) (data : JSON) (w w' : World) :
  dependable env -> OIDC.storeTokens env data w = (Ok tt, w') ->
  exists access refresh,
    string_property "access_token" data = Some access /\
    string_property "refresh_token" data = Some refresh /\
    usable_session env w' access (toWellFormed refresh).
Proof.
  intros (Hnode & Hrandom & Hempty) Hstore.
  destruct (storeTokens_ok env data w w' Hstore)
    as (access & refresh & Ha & Hr & [jat Hjat] & [jrt Hjrt]).
  destruct (encrypt_then_decrypt (node_crypto env) (randomBytes env (draws w))
              (RefreshTokenCookie.crypto env) refresh Hnode (default_suite_utf8 env)
              (Hrandom (draws w)))
    as (encrypted & Henc & _ & Hdec).
  destruct (storeTokens_outcomes env data w access refresh Ha Hr) as (_ & Hnull & Hrest).
  destruct (getExpiry jat) as [eat|] eqn:Heat.
  2: { destruct (Hnull jat Hjat Heat) as (w'' & Hrun & _). congruence. }
  destruct (Hrest jat eat Hjat Heat) as (_ & Hrest').
  destruct (Hrest' jrt Hjrt) as (_ & Hrest'').
  destruct (Hrest'' encrypted Henc) as (Hnull' & Hboth).
  destruct (getExpiry jrt) as [ert|] eqn:Hert.
  2: { destruct (Hnull' eq_refl) as (w'' & Hrun & _). congruence. }
  destruct (Hboth ert eq_refl) as (w'' & Hrun & Hjar).
  rewrite Hstore in Hrun. injection Hrun as <-.
  exists access, refresh. split_and!; try done.
  unfold usable_session, refresh_token_stored. split_and!.
  - rewrite Hjar, lookup_insert_ne, lookup_insert_eq by done. done.
  - intros ->. by rewrite Hempty in Hjat.
  - exists (refresh_record encrypted ert). rewrite Hjar, lookup_insert_eq.
    split_and!; try done. apply toWellFormed_nonempty.
    intros ->. by rewrite Hempty in Hjrt.
Qed.

Lemma usable_session_reads (env : Env) (w : World) (access refresh : string) :
  usable_session env w access refresh ->
  OIDC.isLoggedIn env w = (Ok true, w) /\
  OIDC.getAccessToken env w = (Ok (Some access), w).
Proof.
  intros (Ha & Hne & Hrt). split.
  - unfold OIDC.isLoggedIn.
    rewrite (bind_ok _ _ _ _ _ (refreshToken_read_stored env w refresh Hrt)).
    destruct Hrt as (c & _ & _ & Hrne). cbn [mret M_ret].
    by rewrite (proj2 (truthy_Some _) Hrne).
  - unfold OIDC.getAccessToken.
    rewrite (bind_ok _ _ _ _ _ (accessToken_read w)), Ha.
    by rewrite (proj2 (truthy_Some _) Hne).
Qed.

Lemma logged_out_reads (env : Env) (w : World) :
  logged_out w ->
  OIDC.isLoggedIn env w = (Ok false, w) /\
  OIDC.getAccessToken env w = (Ok None, w) /\
  OIDC.getExpirations env w = (Ok no_expirations, w).
Proof.
  intros [Ha Hr]. pose proof (refreshToken_absent env w Hr) as Hread. split_and!.
  - unfold OIDC.isLoggedIn. by rewrite (bind_ok _ _ _ _ _ Hread).
  - unfold OIDC.getAccessToken, OIDC.refresh.
    rewrite (bind_ok _ _ _ _ _ (accessToken_read w)), Ha. cbn [fmap option_fmap option_map truthy].
    rewrite (bind_ok _ _ w w tt); [|by rewrite (bind_ok _ _ _ _ _ Hread)].
    by rewrite accessToken_read, Ha.
  - unfold OIDC.getExpirations.
    rewrite (bind_ok _ _ _ _ _ (accessToken_read w)), Ha.
    rewrite (bind_ok _ _ w w None); [|done].
    rewrite (bind_ok _ _ _ _ _ Hread).
    by rewrite (bind_ok _ _ w w None).
Qed.

Lemma completeLoginFlow_path (env : Env) (w w' : World) (state : option string)
    (code path : string) :
  OIDC.completeLoginFlow env state code w = (Ok path, w') -> path = "/".
Proof.
  intros Hrun.
  destruct (decide (state = None
                    \/ state <> (cookie_value <$> cookies w !! "auth-state"))) as [Hbad|Hgood].
  { by rewrite (completeLoginFlow_rejects env w _ _ Hbad) in Hrun. }
  destruct state as [s|]; [|destruct Hgood; by left].
  assert (cookie_value <$> cookies w !! "auth-state" = Some s) as Heq.
  { destruct (decide (Some s = (cookie_value <$> cookies w !! "auth-state"))); [done|].
    destruct Hgood. by right. }
  rewrite (completeLoginFlow_accepts env w s _ Heq) in Hrun.
  step Hrun as request w2 Hreq. step Hrun as response w3 Hfetch.
  step Hrun as data w4 Hbody.
  destruct (negb (ok response) || negb (isTokens data)); [done|].
  step Hrun as u w5 Hstore. by injection Hrun as <- _.
Qed.

(** X12: after a login that completed, the session is usable: the result
    is the path [/], the visitor is logged in, [getAccessToken] returns the
    access token of the provider's answer without sending anything, and
    the refresh-token cookie decrypts to the well-formed form of the
    refresh token of that answer: to that token itself when it is well
    formed. *)
Theorem completeLoginFlow_session (env : Env) (w w' : World) (state : option string)
    (code path : string) :
  dependable env ->
  OIDC.completeLoginFlow env state code w = (Ok path, w') ->
  path = "/" /\
  exists trace request response data access refresh,
    fetch env trace request = Some response /\
    body response = Some data /\
    string_property "access_token" data = Some access /\
    string_property "refresh_token" data = Some refresh /\
    refresh_token_stored env w' (toWellFormed refresh) /\
    (represents refresh -> isWellFormed refresh = true ->
     refresh_token_stored env w' refresh) /\
    OIDC.isLoggedIn env w' = (Ok true, w') /\
    OIDC.getAccessToken env w' = (Ok (Some access), w').
Proof.
  intros Henv Hrun. split; [by apply (completeLoginFlow_path env w w' state code)|].
  destruct (completeLoginFlow_stores env w w' state code path Hrun)
    as (request & w1 & response & data & Hfetch & Hbody & Hstore).
  destruct (storeTokens_session env data _ _ Henv Hstore)
    as (access & refresh & Ha & Hr & Hsession).
  destruct (usable_session_reads env w' access _ Hsession) as [Hin Hat].
  exists (sent w1), request, response, data, access, refresh.
  split_and!; try done; [apply Hsession|].
  intros Hrep Hwf. destruct Hsession as (_ & _ & Hstored).
  by rewrite (toWellFormed_well_formed refresh Hrep Hwf) in Hstored.
Qed.

Lemma sample_dependable (token : Response) : dependable (sample_provider "toy-aead" token).
Proof.
  split; [apply toy_aead_supported|]. split; [|by vm_compute].
  intros draw n. apply repeat_length.
Qed.

(** X12, witness: a login at the sample provider. *)
Lemma completeLoginFlow_session_witness :
  let env := sample_provider "toy-aead" {| status := 200; body := Some sample_tokens |} in
  let w := with_cookies (insert "auth-state" (plain_cookie "12345")) empty_world in
  let w' := (OIDC.completeLoginFlow env (Some "12345") "code" w).2 in
  "/" = "/" /\
  exists trace request response data access refresh,
    fetch env trace request = Some response /\
    body response = Some data /\
    string_property "access_token" data = Some access /\
    string_property "refresh_token" data = Some refresh /\
    refresh_token_stored env w' (toWellFormed refresh) /\
    (represents refresh -> isWellFormed refresh = true ->
     refresh_token_stored env w' refresh) /\
    OIDC.isLoggedIn env w' = (Ok true, w') /\
    OIDC.getAccessToken env w' = (Ok (Some access), w').
Proof.
  intros env w w'.
  apply (completeLoginFlow_session env w w' (Some "12345") "code" "/").
  - apply sample_dependable.
  - by vm_compute.
Defined.

Lemma deleteTokens_logged_out (w : World) :
  exists w', OIDC.deleteTokens w = (Ok tt, w') /\ logged_out w'.
Proof.
  destruct (deleteTokens_pair w) as (w' & Hrun & Ha & Hr). by exists w'.
Qed.

Lemma refresh_leaves_session (env : Env) (w w' : World) (rt : string) :
  dependable env -> refresh_token_stored env w rt ->
  OIDC.refresh env w = (Ok tt, w') ->
  logged_out w' \/ exists access refresh, usable_session env w' access refresh.
Proof.
  intros Henv Hrt Hrun.
  pose proof (refreshToken_read_stored env w rt Hrt) as Hread.
  destruct Hrt as (c & Hc & Hd & Hne).
  unfold OIDC.refresh in Hrun.
  rewrite (bind_ok _ _ _ _ _ Hread), (proj2 (truthy_Some _) Hne) in Hrun. cbn [negb] in Hrun.
  rewrite (bind_ok _ _ _ _ _ Hread) in Hrun.
  step Hrun as request w1 Hreq. step Hrun as response w2 Hfetch. step Hrun as data w3 Hbody.
  rewrite (bind_ok _ _ _ (with_console (LogResponse response) w3) tt) in Hrun by done.
  rewrite (bind_ok _ _ _
             (with_console (LogData data) (with_console (LogResponse response) w3)) tt)
    in Hrun by done.
  destruct (isExpiredSession _ _).
  - left.
    destruct (deleteTokens_logged_out
                (with_console (LogData data) (with_console (LogResponse response) w3)))
      as (w4 & Hdel & Hout).
    rewrite Hdel in Hrun. by injection Hrun as <-.
  - right. destruct (negb _ || negb _); [done|].
    destruct (storeTokens_session env data _ _ Henv Hrun)
      as (access & refresh & _ & _ & Hsession).
    by exists access, (toWellFormed refresh).
Qed.

(** X13: a refresh that returns normally leaves the session either gone or
    usable: with a refresh token stored beforehand, afterwards both token
    cookies are deleted, or the visitor is logged in and [getAccessToken]
    returns a non-empty access token without sending anything. *)
Theorem refresh_session (env : Env) (w w' : World) (rt : string) :
  dependable env -> refresh_token_stored env w rt ->
  OIDC.refresh env w = (Ok tt, w') ->
  logged_out w' \/
  exists access refresh,
    usable_session env w' access refresh /\
    OIDC.isLoggedIn env w' = (Ok true, w') /\
    OIDC.getAccessToken env w' = (Ok (Some access), w').
Proof.
  intros Henv Hrt Hrun.
  destruct (refresh_leaves_session env w w' rt Henv Hrt Hrun)
    as [Hout|(access & refresh & Hsession)]; [by left|right].
  exists access, refresh. split; [done|].
  by apply (usable_session_reads env w' access refresh).
Qed.

(** X13, witness: a refresh at the sample provider. *)
Lemma refresh_session_witness :
  let env := sample_provider "toy-aead" {| status := 200; body := Some sample_tokens |} in
  let w' := (OIDC.refresh env refreshable_world).2 in
  logged_out w' \/
  exists access refresh,
    usable_session env w' access refresh /\
    OIDC.isLoggedIn env w' = (Ok true, w') /\
    OIDC.getAccessToken env w' = (Ok (Some access), w').
Proof.
  intros env w'.
  apply (refresh_session env refreshable_world w' sample_jwt').
  - apply sample_dependable.
  - apply sample_refresh_cookie_stored.
  - by vm_compute.
Defined.

(** What the refresh-token slot reads depends on the jar alone. *)
Lemma refreshToken_jar (env : Env) (w1 w2 : World) :
  cookies w1 = cookies w2 ->
  (OIDC.refreshToken env w1).1 = (OIDC.refreshToken env w2).1.
Proof.
  intros H. unfold OIDC.refreshToken, RefreshTokenCookie.value.
  unfold_program. cbn -[lookup CryptoSuite.decrypt truthy]. rewrite H.
  destruct (truthy _); [|done].
  by destruct (option_bind _ _ _ _).
Qed.

Lemma isLoggedIn_jar (env : Env) (w : World) (v : option string) (w0 : World) :
  OIDC.refreshToken env w = (Ok v, w0) ->
  (OIDC.isLoggedIn env w0).1 = Ok (truthy v).
Proof.
  intros Hv. destruct (refreshToken_total env w) as (v' & w0' & Hv' & Hjar & _).
  rewrite Hv in Hv'. injection Hv' as <- <-.
  pose proof (refreshToken_jar env w0 w Hjar) as Hsame. rewrite Hv in Hsame.
  unfold OIDC.isLoggedIn. rewrite bind_run.
  destruct (OIDC.refreshToken env w0) as [[v1|e] w1]; cbn [fst] in Hsame; [|done].
  by injection Hsame as ->.
Qed.

(** X14: under a dependable environment, [getAccessToken] hands out a
    non-empty token or leaves the visitor logged out: when it returns
    normally with an absent or empty token, [isLoggedIn] answers false
    afterwards. *)
Theorem getAccessToken_or_logged_out (env : Env) (w w' : World) (v : option string) :
  dependable env ->
  OIDC.getAccessToken env w = (Ok v, w') ->
  truthy v = true \/ (OIDC.isLoggedIn env w').1 = Ok false.
Proof.
  intros Henv Hrun. unfold OIDC.getAccessToken in Hrun.
  rewrite (bind_ok _ _ _ _ _ (accessToken_read w)) in Hrun.
  destruct (truthy (cookie_value <$> cookies w !! "access-token")) eqn:Hcurrent.
  { injection Hrun as <- <-. by left. }
  step Hrun as u w1 Hrefresh. destruct u. rewrite accessToken_read in Hrun.
  injection Hrun as <- <-.
  destruct (refreshToken_total env w) as (rt & w0 & Hread & Hjar & _).
  destruct (truthy rt) eqn:Hrt.
  - assert (refresh_token_stored env w (default "" rt)) as Hstored.
    { destruct (cookies w !! "refresh-token") as [c|] eqn:Hc.
      2: { rewrite (refreshToken_absent env w Hc) in Hread. by injection Hread as <- _. }
      destruct (String.eqb_spec (cookie_value c) "") as [He|Hne].
      { rewrite (refreshToken_empty env w c Hc He) in Hread. by injection Hread as <- _. }
      destruct (CryptoSuite.decrypt (node_crypto env) (RefreshTokenCookie.crypto env)
                  (cookie_value c)) as [token|] eqn:Hd.
      2: { rewrite (refreshToken_invalid env w c Hc Hne Hd) in Hread.
           by injection Hread as <- _. }
      rewrite (refreshToken_stored env w c token Hc Hd) in Hread. injection Hread as <- _.
      exists c. split_and!; [done..|]. by apply truthy_Some. }
    destruct (refresh_leaves_session env w w1 _ Henv Hstored Hrefresh)
      as [Hout|(access & refresh & Ha & Hne & _)].
    + right. by rewrite (proj1 (logged_out_reads env w1 Hout)).
    + left. rewrite Ha. by apply truthy_Some.
  - right. unfold OIDC.refresh in Hrefresh.
    rewrite (bind_ok _ _ _ _ _ Hread), Hrt in Hrefresh. injection Hrefresh as <-.
    rewrite (isLoggedIn_jar env w rt w0 Hread). by rewrite Hrt.
Qed.

(** X14, witness: an expired session. *)
Lemma getAccessToken_or_logged_out_witness :
  let env := sample_provider "toy-aead"
               {| status := 400;
                  body := Some (JObject [("error", JString "invalid_grant");
                                         ("error_description", JString "Session not active")]) |} in
  let w' := (OIDC.getAccessToken env refreshable_world).2 in
  truthy None = true \/ (OIDC.isLoggedIn env w').1 = Ok false.
Proof.
  intros env w'.
  apply (getAccessToken_or_logged_out env refreshable_world w' None).
  - apply sample_dependable.
  - by vm_compute.
Defined.

(** X15: [logout] ends the session however it ends: in the state it
    leaves, [isLoggedIn] answers false, [getAccessToken] returns absent and
    [getExpirations] returns no expiry, each without sending a request or
    changing anything. *)
Theorem logout_ends_session (env : Env) (w : World) :
  let w' := (OIDC.logout env w).2 in
  OIDC.isLoggedIn env w' = (Ok false, w') /\
  OIDC.getAccessToken env w' = (Ok None, w') /\
  OIDC.getExpirations env w' = (Ok no_expirations, w').
Proof.
  intros w'. apply logged_out_reads. subst w'. unfold logged_out. rewrite logout_jar.
  split.
  - by rewrite lookup_delete_ne, lookup_delete_eq.
  - by rewrite lookup_delete_eq.
Qed.

(** ** Sound jars *)

#[local] Instance sound_step_preorder (env : Env) : PreOrder (sound_step env).
Proof. split; [by intros w H|]. intros w1 w2 w3 H12 H23 H. by apply H23, H12. Qed.

Lemma sound_step_same (env : Env) (w w' : World) :
  cookies w' = cookies w -> sound_step env w w'.
Proof. intros H. unfold sound_step, sound_jar. by rewrite H. Qed.

Lemma sound_step_delete (env : Env) (slot : Cookie.t) :
  steps (sound_step env) (Cookie.delete slot).
Proof.
  intros w [Ha Hr]. split; intros c; cbn -[delete lookup];
    intros [_ Hc]%lookup_delete_Some; eauto.
Qed.

Lemma sound_step_slot_value (env : Env) (slot : Cookie.t) :
  steps (sound_step env) (Cookie.value slot).
Proof. by intros w. Qed.

Lemma sound_step_console (env : Env) (e : LogEntry) : steps (sound_step env) (console_log e).
Proof. intros w. by apply sound_step_same. Qed.

Lemma sound_step_draw (env : Env) : steps (sound_step env) (modify with_draw).
Proof. intros w. by apply sound_step_same. Qed.

Lemma sound_step_config (env : Env) (c : option JSON) :
  steps (sound_step env) (modify (with_cachedConfig c)).
Proof. intros w. by apply sound_step_same. Qed.

Lemma sound_step_fetch (env : Env) (r : Request) : steps (sound_step env) (fetchM env r).
Proof. intros w. unfold fetchM. destruct (fetch env _ _); by apply sound_step_same. Qed.

Lemma sound_step_json (env : Env) (r : Response) : steps (sound_step env) (jsonM r).
Proof. apply steps_or_throw. apply _. Qed.

Lemma sound_step_state_set (env : Env) (state : string) :
  steps (sound_step env) (AuthStateCookie.set state).
Proof.
  intros w [Ha Hr]. split; intros c; cbn -[insert lookup];
    rewrite lookup_insert_ne by done; eauto.
Qed.

Lemma sound_step_access_set (env : Env) (token : string) :
  steps (sound_step env) (AccessTokenCookie.set env token no_options).
Proof.
  intros w [Ha Hr]. unfold AccessTokenCookie.set.
  destruct (jwtDecode env token) as [jwt|] eqn:Hjwt; [|done].
  unfold_program. cbn -[insert lookup getExpiry].
  destruct (getExpiry jwt) as [expires|] eqn:Hexp; [|done].
  split; intros c; cbn -[insert lookup getExpiry].
  - rewrite lookup_insert_eq. intros [= <-]. exists jwt. split; [done|].
    rewrite Hexp. cbn. by destruct expires.
  - rewrite lookup_insert_ne by done. eauto.
Qed.

Lemma sound_step_refresh_set (env : Env) (token : string) :
  dependable env -> decodes_well_formed env ->
  steps (sound_step env) (RefreshTokenCookie.set env token no_options).
Proof.
  intros (Hnode & Hrandom & _) Hdecoder w [Ha Hr]. unfold RefreshTokenCookie.set.
  destruct (jwtDecode env token) as [jwt|] eqn:Hjwt; [|done].
  destruct (encrypt_then_decrypt (node_crypto env) (randomBytes env (draws w))
              (RefreshTokenCookie.crypto env) token Hnode (default_suite_utf8 env)
              (Hrandom (draws w)))
    as (encrypted & Henc & _ & Hdec).
  unfold_program. cbn -[insert lookup CryptoSuite.encrypt getExpiry]. rewrite Henc.
  destruct (getExpiry jwt) as [expires|] eqn:Hexp; [|done].
  split; intros c; cbn -[insert lookup CryptoSuite.decrypt].
  - rewrite lookup_insert_ne by done. eauto.
  - rewrite lookup_insert_eq. intros [= <-]. exists (toWellFormed token), jwt.
    split; [done|]. split; [by rewrite Hdecoder|]. rewrite Hexp. cbn. by destruct expires.
Qed.

#[local] Hint Resolve sound_step_delete sound_step_slot_value sound_step_console
  sound_step_draw sound_step_config sound_step_fetch sound_step_json
  sound_step_state_set sound_step_access_set sound_step_refresh_set : steps.

Lemma sound_step_refresh_value (env : Env) :
  steps (sound_step env) (RefreshTokenCookie.value env).
Proof. unfold RefreshTokenCookie.value. steps_go. Qed.

Lemma sound_step_getRealmConfig (env : Env) :
  steps (sound_step env) (OIDC.getRealmConfig env).
Proof. unfold OIDC.getRealmConfig. steps_go. Qed.

Lemma sound_step_endpoint (env : Env) (field : string) (config : JSON) :
  steps (sound_step env) (OIDC.endpoint env field config).
Proof. unfold OIDC.endpoint. steps_go. Qed.

#[local] Hint Resolve sound_step_refresh_value sound_step_getRealmConfig
  sound_step_endpoint : steps.

Lemma sound_step_deleteTokens (env : Env) : steps (sound_step env) OIDC.deleteTokens.
Proof.
  unfold OIDC.deleteTokens, AccessTokenCookie.delete, RefreshTokenCookie.delete. steps_go.
Qed.

Lemma sound_step_storeTokens (env : Env) (data : JSON) :
  dependable env -> decodes_well_formed env ->
  steps (sound_step env) (OIDC.storeTokens env data).
Proof. intros Henv Hdecoder. unfold OIDC.storeTokens. steps_go. Qed.

Lemma sound_step_authorization_request (env : Env) (code : string) :
  steps (sound_step env) (OIDC.createAuthorizationCodeRequest env code).
Proof. unfold OIDC.createAuthorizationCodeRequest. steps_go. Qed.

Lemma sound_step_refresh_request (env : Env) (rt : string) :
  steps (sound_step env) (OIDC.createRefreshTokenRequest env rt).
Proof. unfold OIDC.createRefreshTokenRequest. steps_go. Qed.

#[local] Hint Resolve sound_step_deleteTokens sound_step_storeTokens
  sound_step_authorization_request sound_step_refresh_request : steps.

Lemma sound_step_refresh (env : Env) :
  dependable env -> decodes_well_formed env ->
  steps (sound_step env) (OIDC.refresh env).
Proof. intros Henv Hdecoder. unfold OIDC.refresh, OIDC.refreshToken. steps_go. Qed.

Lemma sound_step_completeLoginFlow (env : Env) (state : option string) (code : string) :
  dependable env -> decodes_well_formed env ->
  steps (sound_step env) (OIDC.completeLoginFlow env state code).
Proof.
  intros Henv Hdecoder. unfold OIDC.completeLoginFlow, OIDC.authState, AuthStateCookie.value.
  steps_go.
Qed.

Lemma sound_step_startLoginFlow (env : Env) :
  steps (sound_step env) (OIDC.startLoginFlow env).
Proof. unfold OIDC.startLoginFlow. steps_go. Qed.

#[local] Hint Resolve sound_step_refresh sound_step_completeLoginFlow
  sound_step_startLoginFlow : steps.

(** X16: under a dependable environment whose decoder does not tell a
    token from its well-formed form (jwt-decode reads the payload part
    only, and refuses one that is not base64), the operations of the
    manager keep the jar sound, however they end: an access-token cookie
    always holds a decodable token and expires with it, and a
    refresh-token cookie always decrypts to a decodable token and expires
    with it. *)
Theorem operations_keep_sound_jar (env : Env) :
  dependable env -> decodes_well_formed env ->
  steps (sound_step env) (OIDC.startLoginFlow env) /\
  (forall state code, steps (sound_step env) (OIDC.completeLoginFlow env state code)) /\
  (forall params, steps (sound_step env) (OIDC.handleLoginFlow env params)) /\
  steps (sound_step env) (OIDC.refresh env) /\
  steps (sound_step env) (OIDC.getAccessToken env) /\
  steps (sound_step env) (OIDC.getExpirations env) /\
  steps (sound_step env) (OIDC.isLoggedIn env) /\
  steps (sound_step env) (OIDC.logout env).
Proof.
  intros Henv Hdecoder. split_and!.
  - apply sound_step_startLoginFlow.
  - intros state code. by apply sound_step_completeLoginFlow.
  - intros params. unfold OIDC.handleLoginFlow. steps_go.
  - by apply sound_step_refresh.
  - unfold OIDC.getAccessToken, OIDC.accessToken, AccessTokenCookie.value. steps_go.
  - unfold OIDC.getExpirations, OIDC.decode_if_present, OIDC.accessToken,
      OIDC.refreshToken, AccessTokenCookie.value. steps_go.
  - unfold OIDC.isLoggedIn, OIDC.refreshToken. steps_go.
  - unfold OIDC.logout. steps_go.
Qed.

Lemma sample_decodes_well_formed (algorithm : string) (discovery token : option Response) :
  decodes_well_formed (sample_env algorithm discovery token).
Proof.
  intros t. cbn [jwtDecode sample_env]. unfold sample_jwtDecode.
  by rewrite toWellFormed_idempotent.
Qed.

(** X16, witness: the sample provider. *)
Lemma operations_keep_sound_jar_witness :
  let env := sample_provider "toy-aead" {| status := 200; body := Some sample_tokens |} in
  steps (sound_step env) (OIDC.startLoginFlow env) /\
  (forall state code, steps (sound_step env) (OIDC.completeLoginFlow env state code)) /\
  (forall params, steps (sound_step env) (OIDC.handleLoginFlow env params)) /\
  steps (sound_step env) (OIDC.refresh env) /\
  steps (sound_step env) (OIDC.getAccessToken env) /\
  steps (sound_step env) (OIDC.getExpirations env) /\
  steps (sound_step env) (OIDC.isLoggedIn env) /\
  steps (sound_step env) (OIDC.logout env).
Proof.
  intros env. apply (operations_keep_sound_jar env).
  - apply sample_dependable.
  - apply sample_decodes_well_formed.
Defined.

(** Without the hypothesis on the decoder the jar need not stay sound: the
    login completes, and the refresh-token cookie then decrypts to the
    well-formed form of the refresh token, which this decoder rejects. *)
Example sound_jar_picky_decoder :
  let w := with_cookies (insert "auth-state" (plain_cookie "12345")) empty_world in
  let run := OIDC.completeLoginFlow picky_env (Some "12345") "code" w in
  dependable picky_env /\
  sound_jar picky_env w /\
  run.1 = Ok "/" /\
  ~ sound_jar picky_env run.2.
Proof.
  intros w run. split_and!.
  - split; [apply toy_aead_supported|]. split; [|by vm_compute].
    intros draw n. apply repeat_length.
  - split; intros c Hc; by vm_compute in Hc.
  - by vm_compute.
  - intros [_ Hr].
    destruct (cookies run.2 !! "refresh-token") as [c|] eqn:Hc; [|by vm_compute in Hc].
    destruct (Hr c eq_refl) as (rt & jwt & Hd & Hjwt & _).
    vm_compute in Hc. injection Hc as <-.
    vm_compute in Hd. injection Hd as <-.
    by vm_compute in Hjwt.
Qed.

(** X17: on a sound jar the reading operations change nothing and never
    throw: [getExpirations] returns the expiry attributes of the two
    cookies, [isLoggedIn] tells whether a refresh-token cookie is stored,
    and [getAccessToken] returns a stored access token as it is. *)
Theorem sound_jar_reads (env : Env) (w : World) :
  jwtDecode env "" = None -> sound_jar env w ->
  OIDC.getExpirations env w =
    (Ok {| exp_accessToken := cookie_expiry "access-token" w;
           exp_refreshToken := cookie_expiry "refresh-token" w |}, w) /\
  OIDC.isLoggedIn env w = (Ok (bool_decide (is_Some (cookies w !! "refresh-token"))), w) /\
  (forall c, cookies w !! "access-token" = Some c ->
     OIDC.getAccessToken env w = (Ok (Some (cookie_value c)), w)).
Proof.
  intros Hempty [Ha Hr].
  assert (forall jwt e, getExpiry jwt = Some e -> expiration (Some jwt) = e) as Hexpiry.
  { intros jwt e. destruct jwt; cbn; by intros [= <-]. }
  assert (forall token jwt, jwtDecode env token = Some jwt -> truthy (Some token) = true)
    as Htruthy.
  { intros token jwt Hjwt. apply truthy_Some. intros ->. by rewrite Hempty in Hjwt. }
  assert (exists rt, OIDC.refreshToken env w = (Ok rt, w) /\
            truthy rt = bool_decide (is_Some (cookies w !! "refresh-token")) /\
            (OIDC.decode_if_present env rt w).1 =
              Ok ((rt ≫= jwtDecode env)) /\
            (OIDC.decode_if_present env rt w).2 = w /\
            expiration (rt ≫= jwtDecode env) = cookie_expiry "refresh-token" w)
    as (rt & Hread & Hrt & Hdec1 & Hdec2 & Hexp).
  { unfold cookie_expiry. destruct (cookies w !! "refresh-token") as [c|] eqn:Hc.
    - destruct (Hr c eq_refl) as (rt & jwt & Hd & Hjwt & He).
      exists (Some rt). rewrite (refreshToken_stored env w c rt Hc Hd).
      unfold OIDC.decode_if_present. rewrite (Htruthy rt jwt Hjwt).
      cbn [mbind option_bind]. rewrite Hjwt. cbn -[expiration].
      rewrite (Hexpiry _ _ He).
      by split_and!.
    - exists None. by rewrite (refreshToken_absent env w Hc). }
  split_and!.
  - unfold OIDC.getExpirations.
    rewrite (bind_ok _ _ _ _ _ (accessToken_read w)).
    unfold cookie_expiry at 1.
    destruct (cookies w !! "access-token") as [c|] eqn:Hc.
    + destruct (Ha c eq_refl) as (jwt & Hjwt & He).
      rewrite (bind_ok _ _ w w (Some jwt)).
      2: { unfold OIDC.decode_if_present. cbn [fmap option_fmap option_map].
           rewrite (Htruthy _ jwt Hjwt). cbn [mbind option_bind]. by rewrite Hjwt. }
      rewrite (bind_ok _ _ _ _ _ Hread).
      rewrite (bind_ok _ _ w w (rt ≫= jwtDecode env)).
      2: { destruct (OIDC.decode_if_present env rt w) as [r w0]. cbn in Hdec1, Hdec2.
           by subst. }
      cbn [mret M_ret]. rewrite Hexp, (Hexpiry _ _ He). done.
    + rewrite (bind_ok _ _ w w None); [|done].
      rewrite (bind_ok _ _ _ _ _ Hread).
      rewrite (bind_ok _ _ w w (rt ≫= jwtDecode env)).
      2: { destruct (OIDC.decode_if_present env rt w) as [r w0]. cbn in Hdec1, Hdec2.
           by subst. }
      cbn [mret M_ret]. by rewrite Hexp.
  - unfold OIDC.isLoggedIn. rewrite (bind_ok _ _ _ _ _ Hread). cbn [mret M_ret].
    by rewrite Hrt.
  - intros c Hc. destruct (Ha c Hc) as (jwt & Hjwt & _).
    unfold OIDC.getAccessToken.
    rewrite (bind_ok _ _ _ _ _ (accessToken_read w)), Hc.
    cbn [fmap option_fmap option_map]. by rewrite (Htruthy _ jwt Hjwt).
Qed.

(** X17, witness: the jar that a refresh leaves. *)
Lemma sound_jar_reads_witness :
  let env := sample_provider "toy-aead" {| status := 200; body := Some sample_tokens |} in
  let w := (OIDC.refresh env refreshable_world).2 in
  OIDC.getExpirations env w =
    (Ok {| exp_accessToken := cookie_expiry "access-token" w;
           exp_refreshToken := cookie_expiry "refresh-token" w |}, w) /\
  OIDC.isLoggedIn env w = (Ok (bool_decide (is_Some (cookies w !! "refresh-token"))), w) /\
  (forall c, cookies w !! "access-token" = Some c ->
     OIDC.getAccessToken env w = (Ok (Some (cookie_value c)), w)).
Proof.
  intros env w. apply (sound_jar_reads env w); [by vm_compute|].
  split; intros c Hc; vm_compute in Hc; injection Hc as <-.
  - exists (JObject [("exp", JNumber 1700000000)]). by vm_compute.
  - exists sample_jwt', (JObject [("exp", JNumber 1800000000)]). by vm_compute.
Defined.

(** ** Asking for the access token again *)

(** X18: under a dependable environment [getAccessToken] settles: once it
    has returned, calling it again returns the same value, sends no
    request and leaves the jar as it is. *)
Theorem getAccessToken_settles (env : Env) (w w' : World) (v : option string) :
  dependable env ->
  OIDC.getAccessToken env w = (Ok v, w') ->
  exists w'',
    OIDC.getAccessToken env w' = (Ok v, w'') /\
    sent w'' = sent w' /\ cookies w'' = cookies w'.
Proof.
  intros Henv Hrun. pose proof Hrun as Hfirst. unfold OIDC.getAccessToken in Hrun.
  rewrite (bind_ok _ _ _ _ _ (accessToken_read w)) in Hrun.
  destruct (truthy (cookie_value <$> cookies w !! "access-token")) eqn:Hcurrent.
  { injection Hrun as <- <-. by exists w. }
  step Hrun as u w1 Hrefresh. destruct u. rewrite accessToken_read in Hrun.
  injection Hrun as <- <-.
  destruct (refreshToken_total env w) as (rt & w0 & Hread & Hjar & _).
  destruct (truthy rt) eqn:Hrt.
  - assert (refresh_token_stored env w (default "" rt)) as Hstored.
    { destruct (cookies w !! "refresh-token") as [c|] eqn:Hc.
      2: { rewrite (refreshToken_absent env w Hc) in Hread. by injection Hread as <- _. }
      destruct (String.eqb_spec (cookie_value c) "") as [He|Hne].
      { rewrite (refreshToken_empty env w c Hc He) in Hread. by injection Hread as <- _. }
      destruct (CryptoSuite.decrypt (node_crypto env) (RefreshTokenCookie.crypto env)
                  (cookie_value c)) as [token|] eqn:Hd.
      2: { rewrite (refreshToken_invalid env w c Hc Hne Hd) in Hread.
           by injection Hread as <- _. }
      rewrite (refreshToken_stored env w c token Hc Hd) in Hread. injection Hread as <- _.
      exists c. split_and!; [done..|]. by apply truthy_Some. }
    destruct (refresh_leaves_session env w w1 _ Henv Hstored Hrefresh)
      as [Hout|(access & refresh & Hsession)].
    + exists w1. destruct (logged_out_reads env w1 Hout) as (_ & -> & _).
      destruct Hout as [-> _]. done.
    + exists w1.
      destruct (usable_session_reads env w1 access refresh Hsession) as [_ ->].
      destruct Hsession as (-> & _). done.
  - unfold OIDC.refresh in Hrefresh.
    rewrite (bind_ok _ _ _ _ _ Hread), Hrt in Hrefresh. injection Hrefresh as <-.
    destruct (refreshToken_total env w0) as (rt' & w0' & Hread' & Hjar' & _ & Hsent' & _).
    pose proof (refreshToken_jar env w0 w Hjar) as Hsame.
    rewrite Hread, Hread' in Hsame. injection Hsame as ->.
    exists w0'. unfold OIDC.getAccessToken.
    rewrite (bind_ok _ _ _ _ _ (accessToken_read w0)), Hjar, Hcurrent.
    rewrite (bind_ok _ _ w0 w0' tt).
    2: { unfold OIDC.refresh. by rewrite (bind_ok _ _ _ _ _ Hread'), Hrt. }
    rewrite accessToken_read, Hjar', Hjar. done.
Qed.

(** X18, witness: a refresh, then a second call. *)
Lemma getAccessToken_settles_witness :
  let env := sample_provider "toy-aead" {| status := 200; body := Some sample_tokens |} in
  let w' := (OIDC.getAccessToken env refreshable_world).2 in
  exists w'',
    OIDC.getAccessToken env w' = (Ok (Some sample_jwt), w'') /\
    sent w'' = sent w' /\ cookies w'' = cookies w'.
Proof.
  intros env w'.
  apply (getAccessToken_settles env refreshable_world w' (Some sample_jwt)).
  - apply sample_dependable.
  - by vm_compute.
Defined.

(** ** The API client and the logout route *)

Lemma units_of_bytes_ascii (l : list ascii) :
  Forall (fun c => (N_of_ascii c < 128)%N) l -> units_of_bytes l = map N_of_ascii l.
Proof.
  induction 1 as [|c l Hc _ IH]; [done|].
  rewrite units_of_bytes_1 by lia. by rewrite IH.
Qed.

Lemma utf8_bytes_ascii (l : list ascii) :
  Forall (fun c => (N_of_ascii c < 128)%N) l ->
  flat_map utf8_bytes (map N_of_ascii l) = l.
Proof.
  induction 1 as [|c l Hc _ IH]; [done|].
  cbn [map flat_map]. rewrite IH. unfold utf8_bytes.
  assert ((N_of_ascii c <? 128)%N = true) as -> by (by apply N.ltb_lt).
  by rewrite byte_N_of_ascii.
Qed.

Lemma headerValueNormalize_inner (a b : N) (l : list N) :
  is_http_whitespace a = false -> is_http_whitespace b = false ->
  headerValueNormalize (a :: l ++ [b])%list = (a :: l ++ [b])%list.
Proof.
  intros Ha Hb. unfold headerValueNormalize. cbn [drop_while]. rewrite Ha.
  change (a :: l ++ [b])%list with ((a :: l) ++ [b])%list. rewrite rev_app_distr.
  cbn [rev app drop_while]. rewrite Hb.
  change (b :: rev l ++ [a])%list with ([b] ++ (rev l ++ [a]))%list.
  rewrite rev_app_distr, rev_app_distr, rev_involutive. done.
Qed.

(** A bearer token of visible ASCII characters is appended as it is. *)
Lemma Headers_append_visible (token : string) :
  token <> "" -> visible_ascii token = true ->
  Headers_append [] "Authorization" ("Bearer " ++ token)
  = Some [("Authorization", "Bearer " ++ token)].
Proof.
  intros Hne Hvisible.
  assert (Forall (fun c => (33 <= N_of_ascii c < 127)%N) (list_ascii_of_string token))
    as Hrange.
  { apply List.Forall_forall. intros c Hc. unfold visible_ascii in Hvisible.
    pose proof (proj1 (forallb_forall _ _) Hvisible c Hc) as [H1 H2]%andb_true_iff.
    apply N.leb_le in H1. apply N.ltb_lt in H2. done. }
  assert (exists l b, list_ascii_of_string token = (l ++ [b])%list) as (l & b & Htoken).
  { destruct (list_ascii_of_string token) as [|c l] eqn:Hl.
    - destruct token; [done|]. done.
    - destruct (exists_last (l := c :: l)) as (l' & b & ->); [done|]. by exists l', b. }
  rewrite Htoken in Hrange.
  assert (Forall (fun c => (N_of_ascii c < 128)%N)
            (list_ascii_of_string "Bearer " ++ l ++ [b])%list) as Hascii.
  { apply Forall_app. split; [by repeat constructor|].
    eapply Forall_impl; [exact Hrange|]. intros c Hc. cbn in Hc. lia. }
  unfold Headers_append, code_units.
  assert (list_ascii_of_string ("Bearer " ++ token)
          = (list_ascii_of_string "Bearer " ++ l ++ [b])%list) as Hbytes.
  { rewrite <- Htoken. done. }
  rewrite Hbytes, (units_of_bytes_ascii _ Hascii).
  assert (isByteString (map N_of_ascii (list_ascii_of_string "Bearer " ++ l ++ [b])%list)
          = true) as ->.
  { unfold isByteString. rewrite forallb_forall. intros u [c [<- Hc]]%in_map_iff.
    pose proof (N_ascii_bounded c). apply N.leb_le. lia. }
  apply Forall_app in Hrange as [Hl Hb]. apply Forall_inv in Hb.
  assert (map N_of_ascii (list_ascii_of_string "Bearer " ++ l ++ [b])%list
          = (66%N :: ([101; 97; 114; 101; 114; 32]%N ++ map N_of_ascii l)
             ++ [N_of_ascii b])%list)
    as Hunits.
  { rewrite !map_app. cbn [map list_ascii_of_string app]. reflexivity. }
  rewrite Hunits.
  rewrite headerValueNormalize_inner.
  2: done.
  2: { unfold is_http_whitespace.
       repeat (apply orb_false_iff; split); apply N.eqb_neq; lia. }
  rewrite <- Hunits.
  assert (isValidHeaderValue
            (map N_of_ascii (list_ascii_of_string "Bearer " ++ l ++ [b])%list)
          = true) as ->.
  { unfold isValidHeaderValue. rewrite forallb_forall. intros u [c [<- Hc]]%in_map_iff.
    apply in_app_or in Hc as [Hc|Hc].
    - cbn in Hc. by repeat (destruct Hc as [<-|Hc]; [done|]).
    - assert (33 <= N_of_ascii c < 127)%N as Hr.
      { apply in_app_or in Hc as [Hc|[<-|[]]]; [|done].
        rewrite List.Forall_forall in Hl. by apply Hl. }
      apply negb_true_iff.
      repeat (apply orb_false_iff; split); apply N.eqb_neq; lia. }
  unfold string_of_units. rewrite (utf8_bytes_ascii _ Hascii), <- Hbytes.
  by rewrite string_of_list_ascii_of_string.
Qed.

(** X19: [getHello] sends the bearer token exactly when [getAccessToken]
    yields a non-empty one and the header accepts it.  Without a token
    (absent or empty) the API is called without the header.  With one, the
    header value is what [append] makes of [Bearer ] followed by the
    token, and [getHello] throws without calling the API when [append]
    refuses the value; a token of visible ASCII characters (as a JWT is)
    is sent as it is, so with such a token in the access-token cookie the
    request carries that value and nothing else happens.  When
    [getAccessToken] throws, so does [getHello], whatever the API would
    answer. *)
Theorem getHello_authorization (env : Env) (api : ApiEnv) (w : World) (url : URL) :
  newURL env (API_URL api ++ "/hello") = Some url ->
  (forall v w',
     OIDC.getAccessToken env w = (Ok v, w') -> truthy v = false ->
     Api.getHello env api w =
       or_throw FetchRejected
         (api_fetch api {| api_url := url; api_headers := [] |}) w') /\
  (forall token w',
     OIDC.getAccessToken env w = (Ok (Some token), w') -> token <> "" ->
     Api.getHello env api w =
       match Headers_append [] "Authorization" ("Bearer " ++ token) with
       | Some headers =>
           or_throw FetchRejected
             (api_fetch api {| api_url := url; api_headers := headers |}) w'
       | None => (Throw InvalidHeaderValue, w')
       end) /\
  (forall token,
     token <> "" -> visible_ascii token = true ->
     Headers_append [] "Authorization" ("Bearer " ++ token)
     = Some [("Authorization", "Bearer " ++ token)]) /\
  (forall c,
     cookies w !! "access-token" = Some c ->
     cookie_value c <> "" -> visible_ascii (cookie_value c) = true ->
     Api.getHello env api w =
       or_throw FetchRejected
         (api_fetch api
            {| api_url := url;
               api_headers := [("Authorization", "Bearer " ++ cookie_value c)] |}) w) /\
  (logged_out w ->
   Api.getHello env api w =
     or_throw FetchRejected (api_fetch api {| api_url := url; api_headers := [] |}) w) /\
  (forall e w',
     OIDC.getAccessToken env w = (Throw e, w') ->
     Api.getHello env api w = (Throw e, w')).
Proof.
  intros Hurl.
  assert (forall v w',
     OIDC.getAccessToken env w = (Ok v, w') -> truthy v = false ->
     Api.getHello env api w =
       or_throw FetchRejected
         (api_fetch api {| api_url := url; api_headers := [] |}) w') as Hwithout.
  { intros v w' Hrun Hv. unfold Api.getHello. rewrite Hurl.
    rewrite (bind_ok _ _ w w url); [|done].
    rewrite (bind_ok _ _ _ _ _ Hrun), Hv. done. }
  assert (forall token w',
     OIDC.getAccessToken env w = (Ok (Some token), w') -> token <> "" ->
     Api.getHello env api w =
       match Headers_append [] "Authorization" ("Bearer " ++ token) with
       | Some headers =>
           or_throw FetchRejected
             (api_fetch api {| api_url := url; api_headers := headers |}) w'
       | None => (Throw InvalidHeaderValue, w')
       end) as Hwith.
  { intros token w' Hrun Hne. unfold Api.getHello. rewrite Hurl.
    rewrite (bind_ok _ _ w w url); [|done].
    rewrite (bind_ok _ _ _ _ _ Hrun), (proj2 (truthy_Some _) Hne).
    cbn [default api_headers api_url id].
    destruct (Headers_append [] "Authorization" ("Bearer " ++ token)); reflexivity. }
  split_and!; [done|done|apply Headers_append_visible|..].
  - intros c Hc Hne Hvisible.
    assert (OIDC.getAccessToken env w = (Ok (Some (cookie_value c)), w)) as Hrun.
    { unfold OIDC.getAccessToken.
      rewrite (bind_ok _ _ _ _ _ (accessToken_read w)), Hc.
      cbn [fmap option_fmap option_map]. by rewrite (proj2 (truthy_Some _) Hne). }
    by rewrite (Hwith _ _ Hrun Hne), Headers_append_visible.
  - intros Hout. destruct (logged_out_reads env w Hout) as (_ & Hrun & _).
    by rewrite (Hwithout _ _ Hrun).
  - intros e w' Hrun. unfold Api.getHello. rewrite Hurl.
    rewrite (bind_ok _ _ w w url); [|done].
    by rewrite (bind_throw _ _ _ _ _ Hrun).
Qed.

(** X19, witness: a logged-out visitor, and a token with a line feed in
    it, which the header refuses. *)
Lemma getHello_authorization_witness :
  let env := sample_env "toy-aead" None None in
  let url := {| href := "https://api/hello"; searchParams := [] |} in
  let token := string_of_units [97; 10; 98]%N in
  let w := with_cookies (insert "access-token" (plain_cookie token)) empty_world in
  Api.getHello env sample_api empty_world =
    or_throw FetchRejected
      (api_fetch sample_api {| api_url := url; api_headers := [] |}) empty_world /\
  Api.getHello env sample_api w = (Throw InvalidHeaderValue, w).
Proof.
  intros env url token w. split.
  - by apply (getHello_authorization env sample_api empty_world url eq_refl).
  - pose proof (proj1 (proj2 (getHello_authorization env sample_api w url eq_refl))
                  token w eq_refl) as H.
    assert (token <> "") as Hne by (by vm_compute).
    exact (H Hne).
Defined.

(** X20: the logout route works on a manager of its own, so it always
    asks for the discovery document, once, and sends nothing else; both
    token cookies are gone however it ends, and when it redirects, the
    address carries the client id and the address to come back to. *)
Theorem logout_route (env : Env) (w : World) :
  let run := LogoutRoute.GET env w in
  sent run.2 = (sent w ++ [discovery_request env])%list /\
  logged_out run.2 /\
  forall url,
    run.1 = Ok (redirect url) ->
    params_get "client_id" (searchParams url) = Some (CLIENT_ID env) /\
    params_get "post_logout_redirect_uri" (searchParams url) = Some (BASE_URL env ++ "/").
Proof.
  intros run. subst run. unfold LogoutRoute.GET, new_OIDC, OIDC.logout, discovery_request.
  unfold logged_out. run_program.
  all: rewrite ?lookup_delete_eq, ?(lookup_delete_ne _ "refresh-token" "access-token"),
         ?lookup_delete_eq by done.
  all: split_and!; try done.
  all: intros url' [= <-]; unfold url_set; cbn [searchParams].
  all: rewrite params_get_set.
  all: by rewrite (params_get_set_ne "client_id" "post_logout_redirect_uri"),
         params_get_set by done.
Qed.

(** X20, witness: the redirect of the sample provider. *)
Lemma logout_route_witness :
  let env := sample_provider "toy-aead" {| status := 200; body := Some sample_tokens |} in
  let url := {| href := "https://idp/logout";
                searchParams := [("post_logout_redirect_uri", "https://app/");
                                 ("client_id", "demo")] |} in
  params_get "client_id" (searchParams url) = Some (CLIENT_ID env) /\
  params_get "post_logout_redirect_uri" (searchParams url) = Some (BASE_URL env ++ "/").
Proof.
  intros env url.
  destruct (logout_route env refreshable_world) as (_ & _ & Hurl).
  apply (Hurl url). by vm_compute.
Defined.

(** ** Where requests go *)

#[local] Instance provider_step_preorder (env : Env) : PreOrder (provider_step env).
Proof.
  split.
  - intros w. split; [done|]. exists []. by rewrite app_nil_r.
  - intros w1 w2 w3 [Hc12 (new12 & Hs12 & Hn12)] [Hc23 (new23 & Hs23 & Hn23)]. split.
    + intros config H. by apply Hc23, Hc12.
    + exists (new12 ++ new23)%list. split; [by rewrite Hs23, Hs12, app_assoc|].
      apply Forall_app. split; [|done].
      eapply Forall_impl; [done|]. intros r [->|(config & url & body & Hc & Hu & ->)].
      * by left.
      * right. exists config, url, body. split; [by apply Hc23|done].
Qed.

Lemma provider_step_same (env : Env) (w w' : World) :
  cachedConfig w' = cachedConfig w -> sent w' = sent w -> provider_step env w w'.
Proof.
  intros Hc Hs. split; [by rewrite Hc|]. exists []. by rewrite Hs, app_nil_r.
Qed.

Lemma provider_step_cookies (env : Env)
    (f : gmap string CookieRecord -> gmap string CookieRecord) :
  steps (provider_step env) (modify (with_cookies f)).
Proof. intros w. by apply provider_step_same. Qed.

Lemma provider_step_slot_set (env : Env) (slot : Cookie.t) (value : string)
    (overrides : CookieSerializeOptions) :
  steps (provider_step env) (Cookie.set slot value overrides).
Proof. apply provider_step_cookies. Qed.

Lemma provider_step_slot_delete (env : Env) (slot : Cookie.t) :
  steps (provider_step env) (Cookie.delete slot).
Proof. apply provider_step_cookies. Qed.

Lemma provider_step_slot_value (env : Env) (slot : Cookie.t) :
  steps (provider_step env) (Cookie.value slot).
Proof. by intros w. Qed.

Lemma provider_step_console (env : Env) (e : LogEntry) :
  steps (provider_step env) (console_log e).
Proof. intros w. by apply provider_step_same. Qed.

Lemma provider_step_draw (env : Env) : steps (provider_step env) (modify with_draw).
Proof. intros w. by apply provider_step_same. Qed.

Lemma provider_step_json (env : Env) (r : Response) : steps (provider_step env) (jsonM r).
Proof. apply steps_or_throw. apply _. Qed.

Lemma provider_step_fetch (env : Env) (r : Request) (w : World) :
  provider_request env w r -> provider_step env w (fetchM env r w).2.
Proof.
  intros Hr.
  assert (provider_step env w (with_sent r w)) as Hstep.
  { split; [done|]. exists [r]. split; [done|]. by apply Forall_singleton. }
  unfold fetchM. by destruct (fetch env _ _).
Qed.

Lemma provider_step_getRealmConfig (env : Env) :
  steps (provider_step env) (OIDC.getRealmConfig env).
Proof.
  intros w. destruct (cachedConfig w) as [config|] eqn:Hc.
  { by rewrite (getRealmConfig_cached env w config Hc). }
  assert (provider_step env w (OIDC.getRealmConfig env w).2 <->
          provider_step env w
            ((response ← fetchM env (discovery_request env);
              data ← jsonM response;
              if negb (isRealmConfig data) then throw ConfigUnavailable
              else modify (with_cachedConfig (Some data));; mret data) w).2) as ->.
  { unfold OIDC.getRealmConfig, discovery_request. unfold_program. cbn. by rewrite Hc. }
  assert (forall w', cachedConfig w' = None -> sent w' = (sent w ++ [discovery_request env])%list ->
                     provider_step env w w') as Hsent.
  { intros w' _ Hs. split; [by rewrite Hc|]. exists [discovery_request env].
    split; [done|]. apply Forall_singleton. by left. }
  assert (forall data w', sent w' = (sent w ++ [discovery_request env])%list ->
                          provider_step env w (with_cachedConfig data w')) as Hset.
  { intros data w' Hs. split; [by rewrite Hc|]. exists [discovery_request env].
    split; [done|]. apply Forall_singleton. by left. }
  unfold fetchM, jsonM. unfold_program. cbn.
  destruct (fetch env _ _) as [response|]; [|by apply Hsent].
  destruct (body response) as [data|]; [|by apply Hsent].
  destruct (negb (isRealmConfig data)); [by apply Hsent|].
  by apply (Hset (Some data) (with_sent (discovery_request env) w)).
Qed.

Lemma provider_step_endpoint (env : Env) (field : string) (config : JSON) :
  steps (provider_step env) (OIDC.endpoint env field config).
Proof. unfold OIDC.endpoint. apply steps_or_throw. apply _. Qed.

#[local] Hint Resolve provider_step_slot_set provider_step_slot_delete
  provider_step_slot_value provider_step_console provider_step_draw provider_step_json
  provider_step_getRealmConfig provider_step_endpoint : steps.

(** A token request is addressed to the token endpoint of the
    configuration that is cached when it has been built. *)
Lemma token_request_address (env : Env) (body : list (string * string))
    (w w1 : World) (request : Request) :
  (config ← OIDC.getRealmConfig env;
   tokenUrl ← OIDC.endpoint env "token_endpoint" config;
   mret (POST tokenUrl body)) w = (Ok request, w1) ->
  provider_request env w1 request.
Proof.
  intros H. step H as config w2 Hconfig. step H as url w3 Hurl.
  injection H as <- <-.
  destruct (getRealmConfig_memoised env w w2 config Hconfig) as [Hcached _].
  unfold OIDC.endpoint in Hurl.
  destruct (string_property "token_endpoint" config ≫= newURL env) as [u|] eqn:Hu; [|done].
  injection Hurl as <- <-. right. by exists config, u, body.
Qed.

Lemma provider_step_post (env : Env) {B : Type} (request_of : M Request)
    (k : Response -> M B) :
  steps (provider_step env) request_of ->
  (forall w request w1, request_of w = (Ok request, w1) -> provider_request env w1 request) ->
  (forall response, steps (provider_step env) (k response)) ->
  steps (provider_step env) (request ← request_of; response ← fetchM env request; k response).
Proof.
  intros Hbuild Haddress Hk w. rewrite bind_run.
  pose proof (Hbuild w) as Hstep. specialize (Haddress w).
  destruct (request_of w) as [[request|e] w1]; [|done]. cbn [snd] in Hstep.
  etransitivity; [exact Hstep|].
  pose proof (provider_step_fetch env request w1 (Haddress request w1 eq_refl)) as Hfetch.
  rewrite bind_run. destruct (fetchM env request w1) as [[response|e] w2]; [|done].
  cbn [snd] in Hfetch. etransitivity; [exact Hfetch|]. apply Hk.
Qed.

Lemma provider_step_refresh_value (env : Env) :
  steps (provider_step env) (RefreshTokenCookie.value env).
Proof. unfold RefreshTokenCookie.value. steps_go. Qed.

Lemma provider_step_deleteTokens (env : Env) : steps (provider_step env) OIDC.deleteTokens.
Proof.
  unfold OIDC.deleteTokens, AccessTokenCookie.delete, RefreshTokenCookie.delete. steps_go.
Qed.

Lemma provider_step_storeTokens (env : Env) (data : JSON) :
  steps (provider_step env) (OIDC.storeTokens env data).
Proof.
  unfold OIDC.storeTokens, AccessTokenCookie.set, RefreshTokenCookie.set. steps_go.
Qed.

Lemma provider_step_authorization_request (env : Env) (code : string) :
  steps (provider_step env) (OIDC.createAuthorizationCodeRequest env code).
Proof. unfold OIDC.createAuthorizationCodeRequest. steps_go. Qed.

Lemma provider_step_refresh_request (env : Env) (rt : string) :
  steps (provider_step env) (OIDC.createRefreshTokenRequest env rt).
Proof. unfold OIDC.createRefreshTokenRequest. steps_go. Qed.

#[local] Hint Resolve provider_step_refresh_value provider_step_deleteTokens
  provider_step_storeTokens provider_step_authorization_request
  provider_step_refresh_request : steps.

Lemma provider_step_refresh (env : Env) : steps (provider_step env) (OIDC.refresh env).
Proof.
  unfold OIDC.refresh, OIDC.refreshToken.
  apply steps_bind; [apply _|steps_go|]. intros rt.
  destruct (negb (truthy rt)); [steps_go|].
  apply steps_bind; [apply _|steps_go|]. intros rt'.
  apply provider_step_post; [steps_go| |intros response; steps_go].
  intros w request w1. apply token_request_address.
Qed.

Lemma provider_step_completeLoginFlow (env : Env) (state : option string) (code : string) :
  steps (provider_step env) (OIDC.completeLoginFlow env state code).
Proof.
  unfold OIDC.completeLoginFlow, OIDC.authState, AuthStateCookie.value.
  apply steps_bind; [apply _|steps_go|]. intros mismatch.
  destruct mismatch; [steps_go|].
  apply provider_step_post; [steps_go| |intros response; steps_go].
  intros w request w1. apply token_request_address.
Qed.

Lemma provider_step_startLoginFlow (env : Env) :
  steps (provider_step env) (OIDC.startLoginFlow env).
Proof. unfold OIDC.startLoginFlow, AuthStateCookie.set. steps_go. Qed.

#[local] Hint Resolve provider_step_refresh provider_step_completeLoginFlow
  provider_step_startLoginFlow : steps.

(** X21: whatever the operations of the manager do and however they end,
    every request they send is the discovery request or a POST to the
    token endpoint named by the cached configuration, and a cached
    configuration is never replaced; the reading operations
    [getExpirations] and [isLoggedIn] send nothing. *)
Theorem requests_go_to_provider (env : Env) :
  steps (provider_step env) (OIDC.startLoginFlow env) /\
  (forall state code, steps (provider_step env) (OIDC.completeLoginFlow env state code)) /\
  (forall params, steps (provider_step env) (OIDC.handleLoginFlow env params)) /\
  steps (provider_step env) (OIDC.refresh env) /\
  steps (provider_step env) (OIDC.getAccessToken env) /\
  steps (provider_step env) (OIDC.logout env) /\
  (forall w, sent (OIDC.getExpirations env w).2 = sent w) /\
  (forall w, sent (OIDC.isLoggedIn env w).2 = sent w).
Proof.
  split_and!.
  - apply provider_step_startLoginFlow.
  - apply provider_step_completeLoginFlow.
  - intros params. unfold OIDC.handleLoginFlow. steps_go.
  - apply provider_step_refresh.
  - unfold OIDC.getAccessToken, OIDC.accessToken, AccessTokenCookie.value. steps_go.
  - unfold OIDC.logout. steps_go.
  - intros w. unfold OIDC.getExpirations.
    rewrite (bind_ok _ _ _ _ _ (accessToken_read w)).
    assert (forall token w0, (OIDC.decode_if_present env token w0).2 = w0) as Hdecode.
    { intros token w0. unfold OIDC.decode_if_present.
      destruct (truthy token); [|done]. by destruct (token ≫= jwtDecode env). }
    rewrite bind_run. pose proof (Hdecode (cookie_value <$> cookies w !! "access-token") w) as H1.
    destruct (OIDC.decode_if_present env _ w) as [[jat|e] w1]; cbn [snd] in H1; subst w1;
      [|done].
    destruct (refreshToken_total env w) as (rt & w2 & Hread & _ & _ & Hsent & _).
    rewrite (bind_ok _ _ _ _ _ Hread). rewrite bind_run.
    pose proof (Hdecode rt w2) as H2.
    by destruct (OIDC.decode_if_present env rt w2) as [[jrt|e] w3]; cbn [snd] in H2; subst w3.
  - intros w. unfold OIDC.isLoggedIn.
    destruct (refreshToken_total env w) as (rt & w2 & Hread & _ & _ & Hsent & _).
    by rewrite (bind_ok _ _ _ _ _ Hread).
Qed.

(** X21, witness: a refresh at the sample provider. *)
Lemma requests_go_to_provider_witness :
  let env := sample_provider "toy-aead" {| status := 200; body := Some sample_tokens |} in
  provider_step env refreshable_world (OIDC.refresh env refreshable_world).2.
Proof.
  intros env.
  destruct (requests_go_to_provider env) as (_ & _ & _ & Hrefresh & _).
  apply (Hrefresh refreshable_world).
Defined.

(** ** The auth-state cookie after the login *)

#[local] Instance auth_state_step_preorder : PreOrder auth_state_step.
Proof.
  split; [done|]. intros w1 w2 w3 H12 H23. unfold auth_state_step in *. congruence.
Qed.

Lemma auth_state_step_same (w w' : World) : cookies w' = cookies w -> auth_state_step w w'.
Proof. unfold auth_state_step. by intros ->. Qed.

Lemma auth_state_step_access_set (value : string) (overrides : CookieSerializeOptions) :
  steps auth_state_step (Cookie.set AccessTokenCookie.new value overrides).
Proof. intros w. unfold auth_state_step. cbn -[insert lookup]. by rewrite lookup_insert_ne. Qed.

Lemma auth_state_step_refresh_set (value : string) (overrides : CookieSerializeOptions) :
  steps auth_state_step (Cookie.set RefreshTokenCookie.new value overrides).
Proof. intros w. unfold auth_state_step. cbn -[insert lookup]. by rewrite lookup_insert_ne. Qed.

Lemma auth_state_step_access_delete : steps auth_state_step (Cookie.delete AccessTokenCookie.new).
Proof. intros w. unfold auth_state_step. cbn -[delete lookup]. by rewrite lookup_delete_ne. Qed.

Lemma auth_state_step_refresh_delete :
  steps auth_state_step (Cookie.delete RefreshTokenCookie.new).
Proof. intros w. unfold auth_state_step. cbn -[delete lookup]. by rewrite lookup_delete_ne. Qed.

Lemma auth_state_step_slot_value (slot : Cookie.t) : steps auth_state_step (Cookie.value slot).
Proof. by intros w. Qed.

Lemma auth_state_step_console (e : LogEntry) : steps auth_state_step (console_log e).
Proof. intros w. by apply auth_state_step_same. Qed.

Lemma auth_state_step_draw : steps auth_state_step (modify with_draw).
Proof. intros w. by apply auth_state_step_same. Qed.

Lemma auth_state_step_config (c : option JSON) :
  steps auth_state_step (modify (with_cachedConfig c)).
Proof. intros w. by apply auth_state_step_same. Qed.

Lemma auth_state_step_fetch (env : Env) (r : Request) : steps auth_state_step (fetchM env r).
Proof. intros w. unfold fetchM. destruct (fetch env _ _); by apply auth_state_step_same. Qed.

Lemma auth_state_step_json (r : Response) : steps auth_state_step (jsonM r).
Proof. apply steps_or_throw. apply _. Qed.

#[local] Hint Resolve auth_state_step_access_set auth_state_step_refresh_set
  auth_state_step_access_delete auth_state_step_refresh_delete auth_state_step_slot_value
  auth_state_step_console auth_state_step_draw auth_state_step_config
  auth_state_step_fetch auth_state_step_json : steps.

Lemma auth_state_step_refresh_value (env : Env) :
  steps auth_state_step (RefreshTokenCookie.value env).
Proof. unfold RefreshTokenCookie.value. steps_go. Qed.

Lemma auth_state_step_getRealmConfig (env : Env) :
  steps auth_state_step (OIDC.getRealmConfig env).
Proof. unfold OIDC.getRealmConfig. steps_go. Qed.

Lemma auth_state_step_endpoint (env : Env) (field : string) (config : JSON) :
  steps auth_state_step (OIDC.endpoint env field config).
Proof. unfold OIDC.endpoint. steps_go. Qed.

#[local] Hint Resolve auth_state_step_refresh_value auth_state_step_getRealmConfig
  auth_state_step_endpoint : steps.

Lemma auth_state_step_deleteTokens : steps auth_state_step OIDC.deleteTokens.
Proof.
  unfold OIDC.deleteTokens, AccessTokenCookie.delete, RefreshTokenCookie.delete. steps_go.
Qed.

Lemma auth_state_step_storeTokens (env : Env) (data : JSON) :
  steps auth_state_step (OIDC.storeTokens env data).
Proof.
  unfold OIDC.storeTokens, AccessTokenCookie.set, RefreshTokenCookie.set. steps_go.
Qed.

Lemma auth_state_step_authorization_request (env : Env) (code : string) :
  steps auth_state_step (OIDC.createAuthorizationCodeRequest env code).
Proof. unfold OIDC.createAuthorizationCodeRequest. steps_go. Qed.

Lemma auth_state_step_refresh_request (env : Env) (rt : string) :
  steps auth_state_step (OIDC.createRefreshTokenRequest env rt).
Proof. unfold OIDC.createRefreshTokenRequest. steps_go. Qed.

#[local] Hint Resolve auth_state_step_deleteTokens auth_state_step_storeTokens
  auth_state_step_authorization_request auth_state_step_refresh_request : steps.

Lemma auth_state_step_refresh (env : Env) : steps auth_state_step (OIDC.refresh env).
Proof. unfold OIDC.refresh, OIDC.refreshToken. steps_go. Qed.

Lemma auth_state_step_completeLoginFlow (env : Env) (state : option string) (code : string) :
  steps auth_state_step (OIDC.completeLoginFlow env state code).
Proof.
  unfold OIDC.completeLoginFlow, OIDC.authState, AuthStateCookie.value. steps_go.
Qed.

#[local] Hint Resolve auth_state_step_refresh auth_state_step_completeLoginFlow : steps.

(** X22: only [startLoginFlow] touches the auth-state cookie: every other
    operation leaves it as it is, however it ends.  The state is therefore
    not used up by a login: after [completeLoginFlow] has returned, a
    second callback with the same state is not refused as a mismatch. *)
Theorem auth_state_is_kept (env : Env) :
  (forall state code, steps auth_state_step (OIDC.completeLoginFlow env state code)) /\
  steps auth_state_step (OIDC.refresh env) /\
  steps auth_state_step (OIDC.getAccessToken env) /\
  steps auth_state_step (OIDC.getExpirations env) /\
  steps auth_state_step (OIDC.isLoggedIn env) /\
  steps auth_state_step (OIDC.logout env) /\
  (forall w w' state code path code',
     OIDC.completeLoginFlow env state code w = (Ok path, w') ->
     (OIDC.completeLoginFlow env state code' w').1 <> Throw StateMismatch).
Proof.
  split_and!.
  - apply auth_state_step_completeLoginFlow.
  - apply auth_state_step_refresh.
  - unfold OIDC.getAccessToken, OIDC.accessToken, AccessTokenCookie.value. steps_go.
  - unfold OIDC.getExpirations, OIDC.decode_if_present, OIDC.accessToken,
      OIDC.refreshToken, AccessTokenCookie.value. steps_go.
  - unfold OIDC.isLoggedIn, OIDC.refreshToken. steps_go.
  - unfold OIDC.logout. steps_go.
  - intros w w' state code path code' Hrun.
    pose proof (auth_state_step_completeLoginFlow env state code w) as Hkept.
    rewrite Hrun in Hkept. unfold auth_state_step in Hkept. cbn [snd] in Hkept.
    destruct (decide (state = None
                      \/ state <> (cookie_value <$> cookies w !! "auth-state"))) as [Hbad|Hgood].
    { by rewrite (completeLoginFlow_rejects env w _ _ Hbad) in Hrun. }
    destruct state as [s|]; [|destruct Hgood; by left].
    assert (cookie_value <$> cookies w' !! "auth-state" = Some s) as Heq.
    { rewrite Hkept.
      destruct (decide (Some s = (cookie_value <$> cookies w !! "auth-state"))); [done|].
      destruct Hgood. by right. }
    rewrite (completeLoginFlow_accepts env w' s code' Heq).
    apply exchange_no_mismatch.
Qed.

(** X22, witness: the callback of a completed login, sent again. *)
Lemma auth_state_is_kept_witness :
  let env := sample_provider "toy-aead" {| status := 200; body := Some sample_tokens |} in
  let w := with_cookies (insert "auth-state" (plain_cookie "12345")) empty_world in
  let w' := (OIDC.completeLoginFlow env (Some "12345") "code" w).2 in
  (OIDC.completeLoginFlow env (Some "12345") "code" w').1 <> Throw StateMismatch /\
  cookies w' !! "auth-state" = cookies w !! "auth-state".
Proof.
  intros env w w'.
  destruct (auth_state_is_kept env) as (Hkept & _ & _ & _ & _ & _ & Hagain).
  split.
  - apply (Hagain w w' (Some "12345") "code" "/" "code"). by vm_compute.
  - apply (Hkept (Some "12345") "code" w).
Defined.

(** ** Failures before the tokens are stored *)

(** X23: [completeLoginFlow] and [refresh] change the jar only by storing
    or deleting tokens: when they end with an error that is not an error
    of storing a token (the decoder's, the one of a [null] payload or the
    cipher's), the cookie jar is as it was. *)
Theorem failure_keeps_jar (env : Env) (w w' : World) (e : Error) :
  storing_error e = false ->
  (forall state code,
     OIDC.completeLoginFlow env state code w = (Throw e, w') -> cookies w' = cookies w) /\
  (OIDC.refresh env w = (Throw e, w') -> cookies w' = cookies w).
Proof.
  intros He.
  assert (forall data w0 w1, OIDC.storeTokens env data w0 = (Throw e, w1) -> False) as Hstore.
  { intros data w0 w1 H.
    pose proof (raises_storeTokens storing_error env data (fun _ H => H) w0 e) as Hr.
    rewrite H in Hr. specialize (Hr eq_refl). congruence. }
  split.
  - intros state code Hrun.
    destruct (decide (state = None
                      \/ state <> (cookie_value <$> cookies w !! "auth-state"))) as [Hbad|Hgood].
    { rewrite (completeLoginFlow_rejects env w _ _ Hbad) in Hrun. by injection Hrun as _ <-. }
    destruct state as [s|]; [|destruct Hgood; by left].
    assert (cookie_value <$> cookies w !! "auth-state" = Some s) as Heq.
    { destruct (decide (Some s = (cookie_value <$> cookies w !! "auth-state"))); [done|].
      destruct Hgood. by right. }
    rewrite (completeLoginFlow_accepts env w s code Heq) in Hrun.
    pose proof (createAuthorizationCodeRequest_frame env code w) as (Hjar & _).
    rewrite bind_run in Hrun.
    destruct (OIDC.createAuthorizationCodeRequest env code w) as [[request|e1] w1];
      cbn [snd] in Hjar; [|by injection Hrun as _ <-].
    unfold fetchM in Hrun. rewrite bind_run in Hrun.
    destruct (fetch env (sent w1) request) as [response|]; [|by injection Hrun as _ <-].
    unfold jsonM, or_throw in Hrun. rewrite bind_run in Hrun.
    destruct (body response) as [data|]; [|by injection Hrun as _ <-].
    cbn [mret M_ret] in Hrun.
    destruct (negb (ok response) || negb (isTokens data)); [by injection Hrun as _ <-|].
    rewrite bind_run in Hrun.
    destruct (OIDC.storeTokens env data (with_sent request w1)) as [[u|e2] w2] eqn:Hs; [done|].
    injection Hrun as -> _. by destruct (Hstore _ _ _ Hs).
  - intros Hrun. unfold OIDC.refresh in Hrun.
    destruct (refreshToken_total env w) as (rt & w0 & Hread & Hjar0 & _).
    rewrite (bind_ok _ _ _ _ _ Hread) in Hrun.
    destruct (negb (truthy rt)); [done|].
    destruct (refreshToken_total env w0) as (rt' & w1 & Hread' & Hjar1 & _).
    rewrite (bind_ok _ _ _ _ _ Hread') in Hrun.
    pose proof (createRefreshTokenRequest_frame env (default "undefined" rt') w1) as (Hjar & _).
    rewrite bind_run in Hrun.
    destruct (OIDC.createRefreshTokenRequest env (default "undefined" rt') w1)
      as [[request|e1] w2]; cbn [snd] in Hjar;
      [|injection Hrun as _ <-; congruence].
    unfold fetchM in Hrun. rewrite bind_run in Hrun.
    destruct (fetch env (sent w2) request) as [response|];
      [|injection Hrun as _ <-; cbn; congruence].
    unfold jsonM, or_throw in Hrun. rewrite bind_run in Hrun.
    destruct (body response) as [data|]; [|injection Hrun as _ <-; cbn; congruence].
    cbn [mret M_ret] in Hrun.
    rewrite (bind_ok _ _ _ (with_console (LogResponse response) (with_sent request w2)) tt)
      in Hrun by done.
    rewrite (bind_ok _ _ _
               (with_console (LogData data)
                  (with_console (LogResponse response) (with_sent request w2))) tt)
      in Hrun by done.
    destruct (isExpiredSession response data); [done|].
    destruct (negb (ok response) || negb (isTokens data)).
    + injection Hrun as _ <-. cbn. congruence.
    + by destruct (Hstore _ _ _ Hrun).
Qed.

(** X23, witness: a code exchange that the provider refuses. *)
Lemma failure_keeps_jar_witness :
  let data := JObject [("error", JString "invalid_grant")] in
  let env := sample_provider "toy-aead" {| status := 400; body := Some data |} in
  let w := with_cookies (insert "auth-state" (plain_cookie "12345")) empty_world in
  cookies (OIDC.completeLoginFlow env (Some "12345") "code" w).2 = cookies w.
Proof.
  intros data env w.
  apply (proj1 (failure_keeps_jar env w (OIDC.completeLoginFlow env (Some "12345") "code" w).2
                  (TokenExchangeFailed 400 data) eq_refl) (Some "12345") "code").
  by vm_compute.
Defined.
